(** * Concentric-ring marker detector: CCircleDetect

    A shallow embedding of
    [jockeys/cameradetection/src/imageproc/CCircleDetect.cpp]
    and the properties of it that the specification states.

    Conventions of the embedding.
    - C++ [int] is [Z]; [/] and [%] on [int] are [Z.quot] and [Z.rem]
      (truncation towards zero).  The macros [min] and [max] of the file
      are [Z.min] and [Z.max].
    - [float] arithmetic is kept behind the interface [FloatArith]; the
      detector is written once over the interface and run on IEEE-754
      binary32 ([binary32], built on the kernel's [SpecFloat]).
    - The arrays [buffer], [queue], [segmentArray] and [image->data] are
      lists; every indexed access is checked, and an access outside the
      array ends the run with a [Fault] naming the array.
    - [while] loops whose trip count depends on the data take fuel and end
      with [Fault OutOfFuel] when it runs out; [for] loops over a fixed
      range are structural.
    - The header [CCircleDetect.h] is not part of the sources at hand:
      [MAX_SEGMENTS] is a parameter, and the field types of [SSegment] are
      read off their uses ([x], [y], the moments and the angle are
      [float]; the bounding box, [size], [mean] and [type] are [int]).
    - [printf]/[fprintf] calls, the [timer] and the write-only counters
      [tima..timd], [sizer], [sizerAll] are left out. *)

From stdpp Require Import base list numbers option.
From Equations Require Import Equations.
From Corelib Require Import SpecFloat.

Local Open Scope Z_scope.

(** ** Outcomes of a run *)

Inductive fault := OobBuffer | OobQueue | OobImage | OobSegment | OutOfFuel.

Inductive outcome (A : Type) :=
  | Ok (a : A)
  | Fault (f : fault).
Arguments Ok {A} a.
Arguments Fault {A} f.

#[global] Instance outcome_ret : MRet outcome := @Ok.
#[global] Instance outcome_bind : MBind outcome := λ A B k m,
  match m with
  | Ok a => k a
  | Fault f => Fault f
  end.

#[global] Instance outcome_fmap : FMap outcome := λ A B g m,
  match m with
  | Ok a => Ok (g a)
  | Fault f => Fault f
  end.

#[global] Instance fault_eq_dec : EqDecision fault.
Proof. solve_decision. Defined.

(** ** Checked array access *)

Definition rd {A} (e : fault) (l : list A) (i : Z) : outcome A :=
  if 0 <=? i then
    match l !! Z.to_nat i with
    | Some a => Ok a
    | None => Fault e
    end
  else Fault e.

Definition wr {A} (e : fault) (l : list A) (i : Z) (v : A) : outcome (list A) :=
  if (0 <=? i) && (i <? Z.of_nat (length l))
  then Ok (<[Z.to_nat i := v]> l)
  else Fault e.

(** [for (i = lo; i < hi; i++) body], for a body that changes neither
    [i] nor the bounds. *)
Fixpoint for_loop {S} (n : nat) (i : Z) (body : Z → S → outcome S) (s : S)
  : outcome S :=
  match n with
  | O => Ok s
  | Datatypes.S n' => s' ← body i s; for_loop n' (i + 1) body s'
  end.

Definition for_range {S} (lo hi : Z) (body : Z → S → outcome S) (s : S)
  : outcome S :=
  for_loop (Z.to_nat (hi - lo)) lo body s.

(** ** The floating-point interface *)

Class FloatArith (F : Type) := {
  fofZ : Z → F;            (* conversion int -> float *)
  ftoZ : F → Z;            (* conversion float -> int, truncating *)
  fadd : F → F → F;
  fsub : F → F → F;
  fmul : F → F → F;
  fdiv : F → F → F;
  fneg : F → F;
  fabs : F → F;
  fsqrt : F → F;
  fatan2 : F → F → F;
  fltb : F → F → bool;
  fleb : F → F → bool;
  fpi : F                  (* M_PI *)
}.

Declare Scope float_scope.
Delimit Scope float_scope with fl.
Infix "+" := fadd : float_scope.
Infix "-" := fsub : float_scope.
Infix "*" := fmul : float_scope.
Infix "/" := fdiv : float_scope.
Notation "- a" := (fneg a) : float_scope.
Infix "<?" := fltb : float_scope.
Infix "<=?" := fleb : float_scope.

(** ** Segments *)

Module SSegment.

Record t {F : Type} := mk {
  x : F; y : F; m0 : F; m1 : F; v0 : F; v1 : F; bwRatio : F; round : bool;
  valid : bool; maxx : Z; maxy : Z; minx : Z; miny : Z; size : Z; mean : Z;
  type : Z; roundness : F; horizontal : F; angle : F
}.
Arguments t : clear implicits.
Arguments mk {F}.

Section Update.
Context {F : Type}.
Implicit Types s : t F.

Definition set_x (v : F) s : t F :=
  mk v (s.(y)) (s.(m0)) (s.(m1)) (s.(v0)) (s.(v1)) (s.(bwRatio)) (s.(round))
  (s.(valid)) (s.(maxx)) (s.(maxy)) (s.(minx)) (s.(miny)) (s.(size))
  (s.(mean)) (s.(type)) (s.(roundness)) (s.(horizontal)) (s.(angle)).
Definition set_y (v : F) s : t F :=
  mk (s.(x)) v (s.(m0)) (s.(m1)) (s.(v0)) (s.(v1)) (s.(bwRatio)) (s.(round))
  (s.(valid)) (s.(maxx)) (s.(maxy)) (s.(minx)) (s.(miny)) (s.(size))
  (s.(mean)) (s.(type)) (s.(roundness)) (s.(horizontal)) (s.(angle)).
Definition set_m0 (v : F) s : t F :=
  mk (s.(x)) (s.(y)) v (s.(m1)) (s.(v0)) (s.(v1)) (s.(bwRatio)) (s.(round))
  (s.(valid)) (s.(maxx)) (s.(maxy)) (s.(minx)) (s.(miny)) (s.(size))
  (s.(mean)) (s.(type)) (s.(roundness)) (s.(horizontal)) (s.(angle)).
Definition set_m1 (v : F) s : t F :=
  mk (s.(x)) (s.(y)) (s.(m0)) v (s.(v0)) (s.(v1)) (s.(bwRatio)) (s.(round))
  (s.(valid)) (s.(maxx)) (s.(maxy)) (s.(minx)) (s.(miny)) (s.(size))
  (s.(mean)) (s.(type)) (s.(roundness)) (s.(horizontal)) (s.(angle)).
Definition set_v0 (v : F) s : t F :=
  mk (s.(x)) (s.(y)) (s.(m0)) (s.(m1)) v (s.(v1)) (s.(bwRatio)) (s.(round))
  (s.(valid)) (s.(maxx)) (s.(maxy)) (s.(minx)) (s.(miny)) (s.(size))
  (s.(mean)) (s.(type)) (s.(roundness)) (s.(horizontal)) (s.(angle)).
Definition set_v1 (v : F) s : t F :=
  mk (s.(x)) (s.(y)) (s.(m0)) (s.(m1)) (s.(v0)) v (s.(bwRatio)) (s.(round))
  (s.(valid)) (s.(maxx)) (s.(maxy)) (s.(minx)) (s.(miny)) (s.(size))
  (s.(mean)) (s.(type)) (s.(roundness)) (s.(horizontal)) (s.(angle)).
Definition set_bwRatio (v : F) s : t F :=
  mk (s.(x)) (s.(y)) (s.(m0)) (s.(m1)) (s.(v0)) (s.(v1)) v (s.(round))
  (s.(valid)) (s.(maxx)) (s.(maxy)) (s.(minx)) (s.(miny)) (s.(size))
  (s.(mean)) (s.(type)) (s.(roundness)) (s.(horizontal)) (s.(angle)).
Definition set_round (v : bool) s : t F :=
  mk (s.(x)) (s.(y)) (s.(m0)) (s.(m1)) (s.(v0)) (s.(v1)) (s.(bwRatio)) v
  (s.(valid)) (s.(maxx)) (s.(maxy)) (s.(minx)) (s.(miny)) (s.(size))
  (s.(mean)) (s.(type)) (s.(roundness)) (s.(horizontal)) (s.(angle)).
Definition set_valid (v : bool) s : t F :=
  mk (s.(x)) (s.(y)) (s.(m0)) (s.(m1)) (s.(v0)) (s.(v1)) (s.(bwRatio))
  (s.(round)) v (s.(maxx)) (s.(maxy)) (s.(minx)) (s.(miny)) (s.(size))
  (s.(mean)) (s.(type)) (s.(roundness)) (s.(horizontal)) (s.(angle)).
Definition set_maxx (v : Z) s : t F :=
  mk (s.(x)) (s.(y)) (s.(m0)) (s.(m1)) (s.(v0)) (s.(v1)) (s.(bwRatio))
  (s.(round)) (s.(valid)) v (s.(maxy)) (s.(minx)) (s.(miny)) (s.(size))
  (s.(mean)) (s.(type)) (s.(roundness)) (s.(horizontal)) (s.(angle)).
Definition set_maxy (v : Z) s : t F :=
  mk (s.(x)) (s.(y)) (s.(m0)) (s.(m1)) (s.(v0)) (s.(v1)) (s.(bwRatio))
  (s.(round)) (s.(valid)) (s.(maxx)) v (s.(minx)) (s.(miny)) (s.(size))
  (s.(mean)) (s.(type)) (s.(roundness)) (s.(horizontal)) (s.(angle)).
Definition set_minx (v : Z) s : t F :=
  mk (s.(x)) (s.(y)) (s.(m0)) (s.(m1)) (s.(v0)) (s.(v1)) (s.(bwRatio))
  (s.(round)) (s.(valid)) (s.(maxx)) (s.(maxy)) v (s.(miny)) (s.(size))
  (s.(mean)) (s.(type)) (s.(roundness)) (s.(horizontal)) (s.(angle)).
Definition set_miny (v : Z) s : t F :=
  mk (s.(x)) (s.(y)) (s.(m0)) (s.(m1)) (s.(v0)) (s.(v1)) (s.(bwRatio))
  (s.(round)) (s.(valid)) (s.(maxx)) (s.(maxy)) (s.(minx)) v (s.(size))
  (s.(mean)) (s.(type)) (s.(roundness)) (s.(horizontal)) (s.(angle)).
Definition set_size (v : Z) s : t F :=
  mk (s.(x)) (s.(y)) (s.(m0)) (s.(m1)) (s.(v0)) (s.(v1)) (s.(bwRatio))
  (s.(round)) (s.(valid)) (s.(maxx)) (s.(maxy)) (s.(minx)) (s.(miny)) v
  (s.(mean)) (s.(type)) (s.(roundness)) (s.(horizontal)) (s.(angle)).
Definition set_mean (v : Z) s : t F :=
  mk (s.(x)) (s.(y)) (s.(m0)) (s.(m1)) (s.(v0)) (s.(v1)) (s.(bwRatio))
  (s.(round)) (s.(valid)) (s.(maxx)) (s.(maxy)) (s.(minx)) (s.(miny))
  (s.(size)) v (s.(type)) (s.(roundness)) (s.(horizontal)) (s.(angle)).
Definition set_type (v : Z) s : t F :=
  mk (s.(x)) (s.(y)) (s.(m0)) (s.(m1)) (s.(v0)) (s.(v1)) (s.(bwRatio))
  (s.(round)) (s.(valid)) (s.(maxx)) (s.(maxy)) (s.(minx)) (s.(miny))
  (s.(size)) (s.(mean)) v (s.(roundness)) (s.(horizontal)) (s.(angle)).
Definition set_roundness (v : F) s : t F :=
  mk (s.(x)) (s.(y)) (s.(m0)) (s.(m1)) (s.(v0)) (s.(v1)) (s.(bwRatio))
  (s.(round)) (s.(valid)) (s.(maxx)) (s.(maxy)) (s.(minx)) (s.(miny))
  (s.(size)) (s.(mean)) (s.(type)) v (s.(horizontal)) (s.(angle)).
Definition set_horizontal (v : F) s : t F :=
  mk (s.(x)) (s.(y)) (s.(m0)) (s.(m1)) (s.(v0)) (s.(v1)) (s.(bwRatio))
  (s.(round)) (s.(valid)) (s.(maxx)) (s.(maxy)) (s.(minx)) (s.(miny))
  (s.(size)) (s.(mean)) (s.(type)) (s.(roundness)) v (s.(angle)).
Definition set_angle (v : F) s : t F :=
  mk (s.(x)) (s.(y)) (s.(m0)) (s.(m1)) (s.(v0)) (s.(v1)) (s.(bwRatio))
  (s.(round)) (s.(valid)) (s.(maxx)) (s.(maxy)) (s.(minx)) (s.(miny))
  (s.(size)) (s.(mean)) (s.(type)) (s.(roundness)) (s.(horizontal)) v.
End Update.
End SSegment.

(** ** Images *)

Record CRawImage := mkImage {
  getwidth : Z;
  getheight : Z;
  data : list Z          (* unsigned char, three per pixel *)
}.

Definition set_data (v : list Z) (img : CRawImage) : CRawImage :=
  mkImage (getwidth img) (getheight img) v.

(** ** The detector object

    The members of [CCircleDetect] that the methods below read, with the
    two static arrays [buffer] and [queue]. *)

Record Detector {F : Type} := mkDetector {
  width : Z; height : Z; len : Z; minSize : Z; maxFailed : Z; track : bool;
  debug : bool; draw : bool; centerDistanceToleranceRatio : F;
  centerDistanceToleranceAbs : F; circularTolerance : F; ratioTolerance : F;
  circularityTolerance : F; diameterRatio : F; outerAreaRatio : F;
  innerAreaRatio : F; areasRatio : F; threshold : Z; lastThreshold : Z;
  numFailed : Z; lastTrackOK : bool; drawAll : bool; numSegments : Z;
  queueStart : Z; queueEnd : Z; queueOldStart : Z;
  segmentArray : list (SSegment.t F); buffer : list Z; queue : list Z
}.
Arguments Detector : clear implicits.
Arguments mkDetector {F}.

Section Update.
Context {F : Type}.


Definition set_maxFailed (v : Z) (d : Detector F) : Detector F :=
  mkDetector (d.(width)) (d.(height)) (d.(len)) (d.(minSize)) v (d.(track))
  (d.(debug)) (d.(draw)) (d.(centerDistanceToleranceRatio))
  (d.(centerDistanceToleranceAbs)) (d.(circularTolerance))
  (d.(ratioTolerance)) (d.(circularityTolerance)) (d.(diameterRatio))
  (d.(outerAreaRatio)) (d.(innerAreaRatio)) (d.(areasRatio)) (d.(threshold))
  (d.(lastThreshold)) (d.(numFailed)) (d.(lastTrackOK)) (d.(drawAll))
  (d.(numSegments)) (d.(queueStart)) (d.(queueEnd)) (d.(queueOldStart))
  (d.(segmentArray)) (d.(buffer)) (d.(queue)).
Definition set_diameterRatio (v : F) (d : Detector F) : Detector F :=
  mkDetector (d.(width)) (d.(height)) (d.(len)) (d.(minSize)) (d.(maxFailed))
  (d.(track)) (d.(debug)) (d.(draw)) (d.(centerDistanceToleranceRatio))
  (d.(centerDistanceToleranceAbs)) (d.(circularTolerance))
  (d.(ratioTolerance)) (d.(circularityTolerance)) v
  (d.(outerAreaRatio)) (d.(innerAreaRatio)) (d.(areasRatio)) (d.(threshold))
  (d.(lastThreshold)) (d.(numFailed)) (d.(lastTrackOK)) (d.(drawAll))
  (d.(numSegments)) (d.(queueStart)) (d.(queueEnd)) (d.(queueOldStart))
  (d.(segmentArray)) (d.(buffer)) (d.(queue)).
Definition set_track (v : bool) (d : Detector F) : Detector F :=
  mkDetector (d.(width)) (d.(height)) (d.(len)) (d.(minSize)) (d.(maxFailed))
  v (d.(debug)) (d.(draw)) (d.(centerDistanceToleranceRatio))
  (d.(centerDistanceToleranceAbs)) (d.(circularTolerance))
  (d.(ratioTolerance)) (d.(circularityTolerance)) (d.(diameterRatio))
  (d.(outerAreaRatio)) (d.(innerAreaRatio)) (d.(areasRatio)) (d.(threshold))
  (d.(lastThreshold)) (d.(numFailed)) (d.(lastTrackOK)) (d.(drawAll))
  (d.(numSegments)) (d.(queueStart)) (d.(queueEnd)) (d.(queueOldStart))
  (d.(segmentArray)) (d.(buffer)) (d.(queue)).
Definition set_debug (v : bool) (d : Detector F) : Detector F :=
  mkDetector (d.(width)) (d.(height)) (d.(len)) (d.(minSize)) (d.(maxFailed))
  (d.(track)) v (d.(draw)) (d.(centerDistanceToleranceRatio))
  (d.(centerDistanceToleranceAbs)) (d.(circularTolerance))
  (d.(ratioTolerance)) (d.(circularityTolerance)) (d.(diameterRatio))
  (d.(outerAreaRatio)) (d.(innerAreaRatio)) (d.(areasRatio)) (d.(threshold))
  (d.(lastThreshold)) (d.(numFailed)) (d.(lastTrackOK)) (d.(drawAll))
  (d.(numSegments)) (d.(queueStart)) (d.(queueEnd)) (d.(queueOldStart))
  (d.(segmentArray)) (d.(buffer)) (d.(queue)).
Definition set_draw (v : bool) (d : Detector F) : Detector F :=
  mkDetector (d.(width)) (d.(height)) (d.(len)) (d.(minSize)) (d.(maxFailed))
  (d.(track)) (d.(debug)) v (d.(centerDistanceToleranceRatio))
  (d.(centerDistanceToleranceAbs)) (d.(circularTolerance))
  (d.(ratioTolerance)) (d.(circularityTolerance)) (d.(diameterRatio))
  (d.(outerAreaRatio)) (d.(innerAreaRatio)) (d.(areasRatio)) (d.(threshold))
  (d.(lastThreshold)) (d.(numFailed)) (d.(lastTrackOK)) (d.(drawAll))
  (d.(numSegments)) (d.(queueStart)) (d.(queueEnd)) (d.(queueOldStart))
  (d.(segmentArray)) (d.(buffer)) (d.(queue)).
Definition set_threshold (v : Z) (d : Detector F) : Detector F :=
  mkDetector (d.(width)) (d.(height)) (d.(len)) (d.(minSize)) (d.(maxFailed))
  (d.(track)) (d.(debug)) (d.(draw)) (d.(centerDistanceToleranceRatio))
  (d.(centerDistanceToleranceAbs)) (d.(circularTolerance))
  (d.(ratioTolerance)) (d.(circularityTolerance)) (d.(diameterRatio))
  (d.(outerAreaRatio)) (d.(innerAreaRatio)) (d.(areasRatio)) v
  (d.(lastThreshold)) (d.(numFailed)) (d.(lastTrackOK)) (d.(drawAll))
  (d.(numSegments)) (d.(queueStart)) (d.(queueEnd)) (d.(queueOldStart))
  (d.(segmentArray)) (d.(buffer)) (d.(queue)).
Definition set_lastThreshold (v : Z) (d : Detector F) : Detector F :=
  mkDetector (d.(width)) (d.(height)) (d.(len)) (d.(minSize)) (d.(maxFailed))
  (d.(track)) (d.(debug)) (d.(draw)) (d.(centerDistanceToleranceRatio))
  (d.(centerDistanceToleranceAbs)) (d.(circularTolerance))
  (d.(ratioTolerance)) (d.(circularityTolerance)) (d.(diameterRatio))
  (d.(outerAreaRatio)) (d.(innerAreaRatio)) (d.(areasRatio)) (d.(threshold))
  v (d.(numFailed)) (d.(lastTrackOK)) (d.(drawAll)) (d.(numSegments))
  (d.(queueStart)) (d.(queueEnd)) (d.(queueOldStart)) (d.(segmentArray))
  (d.(buffer)) (d.(queue)).
Definition set_numFailed (v : Z) (d : Detector F) : Detector F :=
  mkDetector (d.(width)) (d.(height)) (d.(len)) (d.(minSize)) (d.(maxFailed))
  (d.(track)) (d.(debug)) (d.(draw)) (d.(centerDistanceToleranceRatio))
  (d.(centerDistanceToleranceAbs)) (d.(circularTolerance))
  (d.(ratioTolerance)) (d.(circularityTolerance)) (d.(diameterRatio))
  (d.(outerAreaRatio)) (d.(innerAreaRatio)) (d.(areasRatio)) (d.(threshold))
  (d.(lastThreshold)) v (d.(lastTrackOK)) (d.(drawAll)) (d.(numSegments))
  (d.(queueStart)) (d.(queueEnd)) (d.(queueOldStart)) (d.(segmentArray))
  (d.(buffer)) (d.(queue)).
Definition set_lastTrackOK (v : bool) (d : Detector F) : Detector F :=
  mkDetector (d.(width)) (d.(height)) (d.(len)) (d.(minSize)) (d.(maxFailed))
  (d.(track)) (d.(debug)) (d.(draw)) (d.(centerDistanceToleranceRatio))
  (d.(centerDistanceToleranceAbs)) (d.(circularTolerance))
  (d.(ratioTolerance)) (d.(circularityTolerance)) (d.(diameterRatio))
  (d.(outerAreaRatio)) (d.(innerAreaRatio)) (d.(areasRatio)) (d.(threshold))
  (d.(lastThreshold)) (d.(numFailed)) v (d.(drawAll)) (d.(numSegments))
  (d.(queueStart)) (d.(queueEnd)) (d.(queueOldStart)) (d.(segmentArray))
  (d.(buffer)) (d.(queue)).
Definition set_drawAll (v : bool) (d : Detector F) : Detector F :=
  mkDetector (d.(width)) (d.(height)) (d.(len)) (d.(minSize)) (d.(maxFailed))
  (d.(track)) (d.(debug)) (d.(draw)) (d.(centerDistanceToleranceRatio))
  (d.(centerDistanceToleranceAbs)) (d.(circularTolerance))
  (d.(ratioTolerance)) (d.(circularityTolerance)) (d.(diameterRatio))
  (d.(outerAreaRatio)) (d.(innerAreaRatio)) (d.(areasRatio)) (d.(threshold))
  (d.(lastThreshold)) (d.(numFailed)) (d.(lastTrackOK)) v (d.(numSegments))
  (d.(queueStart)) (d.(queueEnd)) (d.(queueOldStart)) (d.(segmentArray))
  (d.(buffer)) (d.(queue)).
Definition set_numSegments (v : Z) (d : Detector F) : Detector F :=
  mkDetector (d.(width)) (d.(height)) (d.(len)) (d.(minSize)) (d.(maxFailed))
  (d.(track)) (d.(debug)) (d.(draw)) (d.(centerDistanceToleranceRatio))
  (d.(centerDistanceToleranceAbs)) (d.(circularTolerance))
  (d.(ratioTolerance)) (d.(circularityTolerance)) (d.(diameterRatio))
  (d.(outerAreaRatio)) (d.(innerAreaRatio)) (d.(areasRatio)) (d.(threshold))
  (d.(lastThreshold)) (d.(numFailed)) (d.(lastTrackOK)) (d.(drawAll)) v
  (d.(queueStart)) (d.(queueEnd)) (d.(queueOldStart)) (d.(segmentArray))
  (d.(buffer)) (d.(queue)).
Definition set_queueStart (v : Z) (d : Detector F) : Detector F :=
  mkDetector (d.(width)) (d.(height)) (d.(len)) (d.(minSize)) (d.(maxFailed))
  (d.(track)) (d.(debug)) (d.(draw)) (d.(centerDistanceToleranceRatio))
  (d.(centerDistanceToleranceAbs)) (d.(circularTolerance))
  (d.(ratioTolerance)) (d.(circularityTolerance)) (d.(diameterRatio))
  (d.(outerAreaRatio)) (d.(innerAreaRatio)) (d.(areasRatio)) (d.(threshold))
  (d.(lastThreshold)) (d.(numFailed)) (d.(lastTrackOK)) (d.(drawAll))
  (d.(numSegments)) v (d.(queueEnd)) (d.(queueOldStart)) (d.(segmentArray))
  (d.(buffer)) (d.(queue)).
Definition set_queueEnd (v : Z) (d : Detector F) : Detector F :=
  mkDetector (d.(width)) (d.(height)) (d.(len)) (d.(minSize)) (d.(maxFailed))
  (d.(track)) (d.(debug)) (d.(draw)) (d.(centerDistanceToleranceRatio))
  (d.(centerDistanceToleranceAbs)) (d.(circularTolerance))
  (d.(ratioTolerance)) (d.(circularityTolerance)) (d.(diameterRatio))
  (d.(outerAreaRatio)) (d.(innerAreaRatio)) (d.(areasRatio)) (d.(threshold))
  (d.(lastThreshold)) (d.(numFailed)) (d.(lastTrackOK)) (d.(drawAll))
  (d.(numSegments)) (d.(queueStart)) v (d.(queueOldStart)) (d.(segmentArray))
  (d.(buffer)) (d.(queue)).
Definition set_queueOldStart (v : Z) (d : Detector F) : Detector F :=
  mkDetector (d.(width)) (d.(height)) (d.(len)) (d.(minSize)) (d.(maxFailed))
  (d.(track)) (d.(debug)) (d.(draw)) (d.(centerDistanceToleranceRatio))
  (d.(centerDistanceToleranceAbs)) (d.(circularTolerance))
  (d.(ratioTolerance)) (d.(circularityTolerance)) (d.(diameterRatio))
  (d.(outerAreaRatio)) (d.(innerAreaRatio)) (d.(areasRatio)) (d.(threshold))
  (d.(lastThreshold)) (d.(numFailed)) (d.(lastTrackOK)) (d.(drawAll))
  (d.(numSegments)) (d.(queueStart)) (d.(queueEnd)) v (d.(segmentArray))
  (d.(buffer)) (d.(queue)).
Definition set_segmentArray (v : list (SSegment.t F)) (d : Detector F) : Detector F :=
  mkDetector (d.(width)) (d.(height)) (d.(len)) (d.(minSize)) (d.(maxFailed))
  (d.(track)) (d.(debug)) (d.(draw)) (d.(centerDistanceToleranceRatio))
  (d.(centerDistanceToleranceAbs)) (d.(circularTolerance))
  (d.(ratioTolerance)) (d.(circularityTolerance)) (d.(diameterRatio))
  (d.(outerAreaRatio)) (d.(innerAreaRatio)) (d.(areasRatio)) (d.(threshold))
  (d.(lastThreshold)) (d.(numFailed)) (d.(lastTrackOK)) (d.(drawAll))
  (d.(numSegments)) (d.(queueStart)) (d.(queueEnd)) (d.(queueOldStart)) v
  (d.(buffer)) (d.(queue)).
Definition set_buffer (v : list Z) (d : Detector F) : Detector F :=
  mkDetector (d.(width)) (d.(height)) (d.(len)) (d.(minSize)) (d.(maxFailed))
  (d.(track)) (d.(debug)) (d.(draw)) (d.(centerDistanceToleranceRatio))
  (d.(centerDistanceToleranceAbs)) (d.(circularTolerance))
  (d.(ratioTolerance)) (d.(circularityTolerance)) (d.(diameterRatio))
  (d.(outerAreaRatio)) (d.(innerAreaRatio)) (d.(areasRatio)) (d.(threshold))
  (d.(lastThreshold)) (d.(numFailed)) (d.(lastTrackOK)) (d.(drawAll))
  (d.(numSegments)) (d.(queueStart)) (d.(queueEnd)) (d.(queueOldStart))
  (d.(segmentArray)) v (d.(queue)).
Definition set_queue (v : list Z) (d : Detector F) : Detector F :=
  mkDetector (d.(width)) (d.(height)) (d.(len)) (d.(minSize)) (d.(maxFailed))
  (d.(track)) (d.(debug)) (d.(draw)) (d.(centerDistanceToleranceRatio))
  (d.(centerDistanceToleranceAbs)) (d.(circularTolerance))
  (d.(ratioTolerance)) (d.(circularityTolerance)) (d.(diameterRatio))
  (d.(outerAreaRatio)) (d.(innerAreaRatio)) (d.(areasRatio)) (d.(threshold))
  (d.(lastThreshold)) (d.(numFailed)) (d.(lastTrackOK)) (d.(drawAll))
  (d.(numSegments)) (d.(queueStart)) (d.(queueEnd)) (d.(queueOldStart))
  (d.(segmentArray)) (d.(buffer)) v.

End Update.

Section Methods.

Context {F : Type} {FA : FloatArith F}.

(** The capacity of [segmentArray], a constant of the missing header. *)
Variable MAX_SEGMENTS : Z.

(** ** [setDiameterRatio] (lines 59-61)

    The method stores the ratio; the three area ratios that the
    constructor derived from its own ratio stay as they are. *)
Definition setDiameterRatio (diameter : F) (d : Detector F) : Detector F :=
  set_diameterRatio diameter d.

(** ** [changeThreshold] (lines 63-74) *)

(** The [while (dum > 1)] loop; it returns the final [div]. *)
Equations? thresholdDiv (dum div : Z) : Z by wf (Z.to_nat dum) lt :=
  thresholdDiv dum div with Z_lt_dec 1 dum := {
    | left _ => thresholdDiv (dum `quot` 2) (div * 2)
    | right _ => div }.
Proof.
  apply Z2Nat.inj_lt; [apply Z.quot_pos; lia | lia | apply Z.quot_lt; lia].
Qed.

Definition changeThreshold (d : Detector F) : bool * Detector F :=
  let div := thresholdDiv (numFailed d) 1 in
  let step := 256 `quot` div in
  let d := set_threshold (3 * (step * (numFailed d - div) + step `quot` 2)) d in
  (16 <? step, d).

(** ** [examineSegment] (lines 76-175) *)

(** Lazy classification of a pixel (lines 103-106 and their three copies,
    lines 240-243): an unclassified pixel gets -1 when the sum of its
    three samples exceeds the threshold, -2 otherwise. *)
Definition pixelSum (image : CRawImage) (pos : Z) : outcome Z :=
  p0 ← rd OobImage (data image) (pos * 3);
  p1 ← rd OobImage (data image) (pos * 3 + 1);
  p2 ← rd OobImage (data image) (pos * 3 + 2);
  Ok (p0 + p1 + p2).

Definition classify (image : CRawImage) (pos : Z) (d : Detector F)
  : outcome (Detector F) :=
  b ← rd OobBuffer (buffer d) pos;
  if b =? 0 then
    s ← pixelSum image pos;
    buf ← wr OobBuffer (buffer d) pos ((if threshold d <? s then 1 else 0) - 2);
    Ok (set_buffer buf d)
  else Ok d.

(** The locals [minx], [maxx], [miny], [maxy] of [examineSegment]. *)
Record bbox := mkBox { bminx : Z; bmaxx : Z; bminy : Z; bmaxy : Z }.

(** The four neighbours, in the order the loop body visits them. *)
Inductive side := East | West | North | South.

Definition neighbour (d : Detector F) (sd : side) (position : Z) : Z :=
  match sd with
  | East => position + 1
  | West => position - 1
  | North => position - width d
  | South => position + width d
  end.

Definition grow (d : Detector F) (sd : side) (pos : Z) (bb : bbox) : bbox :=
  match sd with
  | East => mkBox (bminx bb) (Z.max (bmaxx bb) (pos `rem` width d)) (bminy bb) (bmaxy bb)
  | West => mkBox (Z.min (bminx bb) (pos `rem` width d)) (bmaxx bb) (bminy bb) (bmaxy bb)
  | North => mkBox (bminx bb) (bmaxx bb) (Z.min (bminy bb) (pos `quot` width d)) (bmaxy bb)
  | South => mkBox (bminx bb) (bmaxx bb) (bminy bb) (Z.max (bmaxy bb) (pos `quot` width d))
  end.

(** One neighbour of the loop body (lines 102-111, 112-121, 122-131,
    132-141). *)
Definition probe (image : CRawImage) (type : Z) (sd : side) (position : Z)
    (st : Detector F * bbox) : outcome (Detector F * bbox) :=
  let '(d, bb) := st in
  let pos := neighbour d sd position in
  d ← classify image pos d;
  b ← rd OobBuffer (buffer d) pos;
  if b =? type then
    q ← wr OobQueue (queue d) (queueEnd d) pos;
    let d := set_queueEnd (queueEnd d + 1) (set_queue q d) in
    let bb := grow d sd pos bb in
    buf ← wr OobBuffer (buffer d) pos (numSegments d);
    Ok (set_buffer buf d, bb)
  else Ok (d, bb).

(** [while (queueEnd > queueStart)] (lines 98-142). *)
Fixpoint floodFill (fuel : nat) (image : CRawImage) (type : Z)
    (st : Detector F * bbox) : outcome (Detector F * bbox) :=
  if queueStart (fst st) <? queueEnd (fst st) then
    match fuel with
    | O => Fault OutOfFuel
    | S fuel' =>
        let '(d, bb) := st in
        position ← rd OobQueue (queue d) (queueStart d);
        let d := set_queueStart (queueStart d + 1) d in
        st ← probe image type East position (d, bb);
        st ← probe image type West position st;
        st ← probe image type North position st;
        st ← probe image type South position st;
        floodFill fuel' image type st
    end
  else Ok st.

(** The brightness sum of lines 164-168. *)
Definition meanStep (image : CRawImage) (q : list Z) (p : Z) (acc : Z)
  : outcome Z :=
  pos ← rd OobQueue q p;
  p0 ← rd OobImage (data image) (pos * 3);
  p1 ← rd OobImage (data image) (pos * 3 + 1);
  p2 ← rd OobImage (data image) (pos * 3 + 2);
  Ok (acc + (p0 + p1 + p2)).

(** Lines 89-94: the seed of a new segment. *)
Definition seedSegment (d : Detector F) (ii : Z) (segmen : SSegment.t F)
  : SSegment.t F :=
  let segmen := SSegment.set_x (fofZ (ii `rem` width d)) segmen in
  let segmen := SSegment.set_y (fofZ (ii `quot` width d)) segmen in
  let segmen := SSegment.set_valid false segmen in
  SSegment.set_round false segmen.

(** Lines 148-157: bounding box, type, centre and roundness of a segment
    that is large enough. *)
Definition boundSegment (type : Z) (bb : bbox) (areaRatio : F)
    (segmen : SSegment.t F) : SSegment.t F :=
  let segmen := SSegment.set_maxx (bmaxx bb) segmen in
  let segmen := SSegment.set_maxy (bmaxy bb) segmen in
  let segmen := SSegment.set_minx (bminx bb) segmen in
  let segmen := SSegment.set_miny (bminy bb) segmen in
  let segmen := SSegment.set_type (- type) segmen in
  let vx := SSegment.maxx segmen - SSegment.minx segmen + 1 in
  let vy := SSegment.maxy segmen - SSegment.miny segmen + 1 in
  let segmen :=
    SSegment.set_x
      (fofZ ((SSegment.maxx segmen + SSegment.minx segmen) `quot` 2)) segmen in
  let segmen :=
    SSegment.set_y
      (fofZ ((SSegment.maxy segmen + SSegment.miny segmen) `quot` 2)) segmen in
  SSegment.set_roundness
    (fofZ (vx * vy) * areaRatio / fofZ (SSegment.size segmen))%fl segmen.

(** The roundness test of lines 159-160. *)
Definition looksRound (d : Detector F) (segmen : SSegment.t F) : bool :=
  ((SSegment.roundness segmen - circularTolerance d <? fofZ 1)
   && (fofZ 1 <? SSegment.roundness segmen + circularTolerance d))%fl.

(** Lines 145-172: the description of the segment once the queue is
    empty. *)
Definition describeSegment (image : CRawImage) (type : Z) (areaRatio : F)
    (bb : bbox) (d : Detector F) (segmen : SSegment.t F)
  : outcome (bool * SSegment.t F) :=
  let segmen := SSegment.set_size (queueEnd d - queueOldStart d) segmen in
  if minSize d <? SSegment.size segmen then
    let segmen := boundSegment type bb areaRatio segmen in
    if looksRound d segmen then
      let segmen := SSegment.set_mean 0 (SSegment.set_round true segmen) in
      m ← for_range (queueOldStart d) (queueEnd d)
            (meanStep image (queue d)) (SSegment.mean segmen);
      Ok (true, SSegment.set_mean (m `quot` SSegment.size segmen) segmen)
    else Ok (false, segmen)
  else Ok (false, segmen).

(** [segmen] points to [segmentArray[si]]; the element is read when the
    method starts, updated in a local copy and stored back when it ends
    (nothing else reads the array in between). *)
Definition examineSegment (image : CRawImage) (si : Z) (ii : Z) (areaRatio : F)
    (d : Detector F) : outcome (bool * Detector F) :=
  let d := set_queueOldStart (queueStart d) d in
  type ← rd OobBuffer (buffer d) ii;
  segmen ← rd OobSegment (segmentArray d) si;
  let d := set_numSegments (numSegments d + 1) d in
  buf ← wr OobBuffer (buffer d) ii (numSegments d);
  let d := set_buffer buf d in
  let x0 := ii `rem` width d in
  let y0 := ii `quot` width d in
  let segmen := seedSegment d ii segmen in
  q ← wr OobQueue (queue d) (queueEnd d) ii;
  let d := set_queueEnd (queueEnd d + 1) (set_queue q d) in
  '(d, bb) ← floodFill (length (queue d)) image type (d, mkBox x0 x0 y0 y0);
  '(result, segmen) ← describeSegment image type areaRatio bb d segmen;
  segs ← wr OobSegment (segmentArray d) si segmen;
  Ok (result, set_segmentArray segs d).

(** ** [bufferCleanup] (lines 177-201) *)

(** [memset(buffer, 0, sizeof(int) * n)]. *)
Definition memset0 (buf : list Z) (n : Z) : outcome (list Z) :=
  if (0 <=? n) && (n <=? Z.of_nat (length buf))
  then Ok (replicate (Z.to_nat n) 0 ++ drop (Z.to_nat n) buf)
  else Fault OobBuffer.

Definition bufferCleanup (init : SSegment.t F) (d : Detector F)
  : outcome (Detector F) :=
  let pos := (height d - 1) * width d in
  if negb (SSegment.valid init) || negb (track d) || negb (lastTrackOK d) then
    buf ← memset0 (buffer d) (len d);
    buf ← for_range 0 (width d) (λ i buf,
             buf ← wr OobBuffer buf i (-1000);
             wr OobBuffer buf (pos + i) (-1000)) buf;
    buf ← for_range 0 (height d) (λ i buf,
             buf ← wr OobBuffer buf (width d * i) (-1000);
             wr OobBuffer buf (width d * i + width d - 1) (-1000)) buf;
    Ok (set_buffer buf d)
  else
    let ix := Z.max (SSegment.minx init - 2) 1 in
    let ax := Z.min (SSegment.maxx init + 2) (width d - 2) in
    let iy := Z.max (SSegment.miny init - 2) 1 in
    let ay := Z.min (SSegment.maxy init + 2) (height d - 2) in
    buf ← for_range iy ay (λ y buf,
             let pos := y * width d in
             for_range ix ax (λ x buf, wr OobBuffer buf (pos + x) 0) buf)
           (buffer d);
    Ok (set_buffer buf d).

(** ** [findSegment] (lines 203-502) *)

(** The acceptance test of a ring pair (lines 258-285): area ratio, then
    concentricity in x and in y. [o] is [segmentArray[numSegments - 2]],
    [i] is [segmentArray[numSegments - 1]]. *)
Definition ratioOK (d : Detector F) (o i : SSegment.t F) : bool :=
  let q := (fofZ (SSegment.size o) / areasRatio d / fofZ (SSegment.size i))%fl in
  ((q - ratioTolerance d <? fofZ 1) && (fofZ 1 <? q + ratioTolerance d))%fl.

Definition concentricOK (d : Detector F) (o i : SSegment.t F) : bool :=
  (fabs (SSegment.x i - SSegment.x o)
     <=? centerDistanceToleranceAbs d
         + centerDistanceToleranceRatio d
           * fofZ (SSegment.maxx o - SSegment.minx o))%fl
  && (fabs (SSegment.y i - SSegment.y o)
     <=? centerDistanceToleranceAbs d
         + centerDistanceToleranceRatio d
           * fofZ (SSegment.maxy o - SSegment.miny o))%fl.

Definition pairOK (d : Detector F) (o i : SSegment.t F) : bool :=
  ratioOK d o i && concentricOK d o i.

(** The coordinate sums of lines 292-296 and 301-305. *)
Definition sumStep (image : CRawImage) (q : list Z) (p : Z) (acc : F * F)
  : outcome (F * F) :=
  pos ← rd OobQueue q p;
  Ok (fst acc + fofZ (pos `rem` getwidth image),
      snd acc + fofZ (pos `quot` getwidth image))%fl.

(** The second moments of lines 308-315. *)
Definition momentStep (image : CRawImage) (q : list Z) (sx sy : F) (p : Z)
    (acc : F * F * F) : outcome (F * F * F) :=
  pos ← rd OobQueue q p;
  let '(cm0, cm1, cm2) := acc in
  let tx := (fofZ (pos `rem` getwidth image) - sx)%fl in
  let ty := (fofZ (pos `quot` getwidth image) - sy)%fl in
  Ok (cm0 + tx * tx, cm1 + tx * ty, cm2 + ty * ty)%fl.

(** The eigenvalues of the covariance matrix (lines 319-336). *)
Definition eigen (fm0 fm1 fm2 : F) : F * F :=
  let disc :=
    fsqrt ((fm0 + fm2) * (fm0 + fm2)
           - fofZ 4 * (fm0 * fm2 - fm1 * fm1))%fl in
  (((fm0 + fm2) + disc) / fofZ 2, ((fm0 + fm2) - disc) / fofZ 2)%fl.

(** The pixel leakage correction (lines 386-400): the term [t]. *)
Definition leakage (d : Detector F) (f0 f1 : F) (sizeO sizeI : Z) : F :=
  let r := (diameterRatio d * diameterRatio d)%fl in
  let m0o := fsqrt f0 in
  let m1o := fsqrt f1 in
  let ratio := (fofZ sizeI / fofZ (sizeO + sizeI))%fl in
  let m0i := (fsqrt ratio * m0o)%fl in
  let m1i := (fsqrt ratio * m1o)%fl in
  let a := (fofZ 1 - r)%fl in
  let b := (- (m0i + m1i) - (m0o + m1o) * r)%fl in
  let c := ((m0i * m1i) - (m0o * m1o) * r)%fl in
  ((- b - fsqrt (b * b - fofZ 4 * a * c)) / (fofZ 2 * a))%fl.

(** The centroid of the pixels in [queue[0 .. queueEnd)], summed in the
    order of lines 292-307: the last segment first, then the one before. *)
Definition unionCentroid (image : CRawImage) (d : Detector F) : outcome (F * F) :=
  s ← for_range (queueOldStart d) (queueEnd d) (sumStep image (queue d))
        (fofZ 0, fofZ 0);
  s ← for_range 0 (queueOldStart d) (sumStep image (queue d)) s;
  Ok (fst s / fofZ (queueEnd d), snd s / fofZ (queueEnd d))%fl.

(** The centroid of the pixels in [queue[queueOldStart .. queueEnd)]
    (lines 292-300). *)
Definition lastCentroid (image : CRawImage) (d : Detector F) : outcome (F * F) :=
  s ← for_range (queueOldStart d) (queueEnd d) (sumStep image (queue d))
        (fofZ 0, fofZ 0);
  Ok (fst s / fofZ (queueEnd d - queueOldStart d),
      snd s / fofZ (queueEnd d - queueOldStart d))%fl.

(** Lines 337-345: the raw semi-axes, the direction of the major axis and
    the area ratio, written to the inner segment. *)
Definition rawFit (fm0 fm1 f0 f1 : F) (o i : SSegment.t F) : SSegment.t F :=
  let nrm := fsqrt (fm1 * fm1 + (fm0 - f0) * (fm0 - f0))%fl in
  let i := SSegment.set_m0 (fsqrt f0) i in
  let i := SSegment.set_m1 (fsqrt f1) i in
  let i := SSegment.set_v0 (- fm1 / nrm)%fl i in
  let i := SSegment.set_v1 ((fm0 - f0) / nrm)%fl i in
  SSegment.set_bwRatio (fofZ (SSegment.size o) / fofZ (SSegment.size i))%fl i.

(** The circularity test of lines 352-361. *)
Definition circular (d : Detector F) (i : SSegment.t F) : bool :=
  let circularity :=
    (fpi * fofZ 4 * SSegment.m0 i * SSegment.m1 i / fofZ (queueEnd d))%fl in
  ((circularity - fofZ 1 <? circularityTolerance d)
   && (- circularityTolerance d <? circularity - fofZ 1))%fl.

(** Lines 362-427 for the inner segment: it becomes the result. *)
Definition acceptInner (d : Detector F) (sx sy f0 f1 : F)
    (o i : SSegment.t F) : SSegment.t F :=
  let i := SSegment.set_valid true i in
  let t := leakage d f0 f1 (SSegment.size o) (SSegment.size i) in
  let i := SSegment.set_m0 (fsqrt f0 + t)%fl i in
  let i := SSegment.set_m1 (fsqrt f1 + t)%fl i in
  let i := SSegment.set_maxx (SSegment.maxx o) i in
  let i := SSegment.set_maxy (SSegment.maxy o) i in
  let i := SSegment.set_minx (SSegment.minx o) i in
  let i := SSegment.set_miny (SSegment.miny o) i in
  let i := SSegment.set_x sx i in
  let i := SSegment.set_y sy i in
  let i := SSegment.set_size (SSegment.size o + SSegment.size i) i in
  let i := SSegment.set_horizontal (sx - SSegment.x o)%fl i in
  SSegment.set_angle (fatan2 (sy - SSegment.y o) (sx - SSegment.x o))%fl i.

(** Lines 362-364 and 426-427 for the outer segment. *)
Definition acceptOuter (sx sy : F) (o : SSegment.t F) : SSegment.t F :=
  SSegment.set_y sy (SSegment.set_x sx (SSegment.set_valid true o)).

(** The shape fit of an accepted pair (lines 286-428).  It returns the
    scan position [ii], which tracking moves to [start - 1]. *)
Definition shapeFit (image : CRawImage) (start ii : Z) (d : Detector F)
  : outcome (Detector F * Z) :=
  o ← rd OobSegment (segmentArray d) (numSegments d - 2);
  i ← rd OobSegment (segmentArray d) (numSegments d - 1);
  s ← for_range (queueOldStart d) (queueEnd d) (sumStep image (queue d))
        (fofZ 0, fofZ 0);
  let o := SSegment.set_x (fst s / fofZ (queueEnd d - queueOldStart d))%fl o in
  let o := SSegment.set_y (snd s / fofZ (queueEnd d - queueOldStart d))%fl o in
  s ← for_range 0 (queueOldStart d) (sumStep image (queue d)) s;
  let sx := (fst s / fofZ (queueEnd d))%fl in
  let sy := (snd s / fofZ (queueEnd d))%fl in
  cm ← for_range 0 (queueEnd d) (momentStep image (queue d) sx sy)
         (fofZ 0, fofZ 0, fofZ 0);
  let fm0 := (fst (fst cm) / fofZ (queueEnd d))%fl in
  let fm1 := (snd (fst cm) / fofZ (queueEnd d))%fl in
  let fm2 := (snd cm / fofZ (queueEnd d))%fl in
  let f0 := fst (eigen fm0 fm1 fm2) in
  let f1 := snd (eigen fm0 fm1 fm2) in
  let i := rawFit fm0 fm1 f0 f1 o i in
  let ii := if track d then start - 1 else ii in
  if circular d i then
    let d := set_threshold ((SSegment.mean o + SSegment.mean i) `quot` 2) d in
    let i := acceptInner d sx sy f0 f1 o i in
    let o := acceptOuter sx sy o in
    segs ← wr OobSegment (segmentArray d) (numSegments d - 2) o;
    segs ← wr OobSegment segs (numSegments d - 1) i;
    Ok (set_segmentArray segs d, ii)
  else
    segs ← wr OobSegment (segmentArray d) (numSegments d - 2) o;
    segs ← wr OobSegment segs (numSegments d - 1) i;
    Ok (set_segmentArray segs d, ii).

(** The search for a candidate pair at scan position [ii] (lines 225-285).

    The body of [while (cont)] is a cascade of tests around the shape
    fit; [seekPair] runs the cascade and reports whether it reached the
    fit, and [scanStep] then runs the fit or leaves the state as the
    cascade left it. *)

(** Lines 238-285, entered when the outer flood fill reported a ring: the
    pixel at the centre of its bounding box is classified and, when it is
    bright, flood-filled; a round inner segment is then put to the
    acceptance test. *)
Definition seekInner (image : CRawImage) (d : Detector F)
  : outcome (Detector F * bool) :=
  o ← rd OobSegment (segmentArray d) (numSegments d - 1);
  let pos :=
    ftoZ (SSegment.y o * fofZ (getwidth image) + SSegment.x o)%fl in
  d ← classify image pos d;
  b ← rd OobBuffer (buffer d) pos;
  if (b =? -1) && (numSegments d <? MAX_SEGMENTS) then
    '(found, d) ← examineSegment image (numSegments d) pos (innerAreaRatio d) d;
    if found : bool then
      o ← rd OobSegment (segmentArray d) (numSegments d - 2);
      i ← rd OobSegment (segmentArray d) (numSegments d - 1);
      Ok (d, pairOK d o i)
    else Ok (d, false)
  else Ok (d, false).

(** Lines 225-237 and, through [seekInner], 238-285. *)
Definition seekPair (image : CRawImage) (ii : Z) (d : Detector F)
  : outcome (Detector F * bool) :=
  b ← rd OobBuffer (buffer d) ii;
  d ← (if b =? 0 then
         s ← pixelSum image ii;
         if s <? threshold d then
           buf ← wr OobBuffer (buffer d) ii (-2);
           Ok (set_buffer buf d)
         else Ok d
       else Ok d);
  b ← rd OobBuffer (buffer d) ii;
  if (b =? -2) && (numSegments d <? MAX_SEGMENTS) then
    let d := set_queueStart 0 (set_queueEnd 0 d) in
    '(found, d) ← examineSegment image (numSegments d) ii (outerAreaRatio d) d;
    if found : bool then seekInner image d else Ok (d, false)
  else Ok (d, false).

(** The body of [while (cont)] up to [ii++] (lines 225-433). *)
Definition scanStep (image : CRawImage) (start ii : Z) (d : Detector F)
  : outcome (Detector F * Z) :=
  '(d, fit) ← seekPair image ii d;
  if fit : bool then shapeFit image start ii d else Ok (d, ii).

(** Lines 434-436: the next scan position. *)
Definition nextIndex (d : Detector F) (ii : Z) : Z :=
  let ii := ii + 1 in
  if len d <=? ii then 0 else ii.

(** [while (cont)] (lines 224-438). *)
Fixpoint scanLoop (fuel : nat) (image : CRawImage) (start ii : Z)
    (d : Detector F) : outcome (Detector F) :=
  match fuel with
  | O => Fault OutOfFuel
  | S fuel' =>
      '(d, ii) ← scanStep image start ii d;
      let ii := nextIndex d ii in
      if ii =? start then Ok d else scanLoop fuel' image start ii d
  end.

(** The local [result] as lines 204-208 leave it.  The fields that the
    source leaves indeterminate are zero here. *)
Definition noSegment : SSegment.t F :=
  SSegment.mk (fofZ 0) (fofZ 0) (fofZ 0) (fofZ 0) (fofZ 0) (fofZ 0) (fofZ 0)
    false false 0 0 0 0 0 0 0 (fofZ 0) (fofZ 0) (fofZ 0).

(** The choice of the result (lines 439-456). *)
Definition selectStep (d : Detector F) (i : Z) (result : SSegment.t F)
  : outcome (SSegment.t F) :=
  s ← rd OobSegment (segmentArray d) i;
  if (minSize d <? SSegment.size s) && (SSegment.valid s || debug d) then
    if SSegment.valid s then Ok s else Ok result
  else Ok result.

(** The tracking and threshold controller (lines 457-479). *)
Definition trackingUpdate (result : SSegment.t F) (d : Detector F)
  : outcome (Detector F) :=
  ok ← (if numSegments d =? 2 then
          s0 ← rd OobSegment (segmentArray d) 0;
          if SSegment.valid s0 then
            s1 ← rd OobSegment (segmentArray d) 1;
            Ok (SSegment.valid s1)
          else Ok false
        else Ok false);
  let d := set_lastTrackOK ok d in
  if SSegment.valid result then
    Ok (set_numFailed 0 (set_drawAll false (set_lastThreshold (threshold d) d)))
  else if numFailed d <? maxFailed d then
    let old := numFailed d in
    let d := set_numFailed (old + 1) d in
    let d :=
      if old `rem` 2 =? 0 then snd (changeThreshold d)
      else set_threshold (lastThreshold d) d in
    Ok (if debug d then set_drawAll true d else d)
  else
    let d := set_numFailed (numFailed d + 1) d in
    let '(more, d) := changeThreshold d in
    let d := if more then d else set_numFailed 0 d in
    Ok (if debug d then set_drawAll true d else d).

(** Lines 480-486: the pixels of the last segment examined are set to
    black in the frame. *)
Definition blackenStep (q : list Z) (p : Z) (dat : list Z) : outcome (list Z) :=
  pos ← rd OobQueue q p;
  dat ← wr OobImage dat (3 * pos + 0) 0;
  dat ← wr OobImage dat (3 * pos + 1) 0;
  wr OobImage dat (3 * pos + 2) 0.

(** Lines 488-499. *)
Definition drawStep (d : Detector F) (i : Z) (dat : list Z) : outcome (list Z) :=
  j ← rd OobBuffer (buffer d) i;
  if 0 <? j then
    paint ← (if drawAll d then Ok true
             else s ← rd OobSegment (segmentArray d) (j - 1);
                  Ok (SSegment.valid s));
    if paint : bool then
      dat ← wr OobImage dat (i * 3 + j `rem` 3) 0;
      dat ← wr OobImage dat (i * 3 + (j + 1) `rem` 3) 255;
      wr OobImage dat (i * 3 + (j + 2) `rem` 3) 255
    else Ok dat
  else Ok dat.

(** The first scan position (lines 214-223). *)
Definition scanStart (image : CRawImage) (init : SSegment.t F) (d : Detector F)
  : Z :=
  if SSegment.valid init && track d
  then ftoZ (fofZ (ftoZ (SSegment.y init) * getwidth image) + SSegment.x init)%fl
  else 0.

Definition findSegment (image : CRawImage) (init : SSegment.t F) (d : Detector F)
  : outcome (SSegment.t F * Detector F * CRawImage) :=
  let result := noSegment in
  let d := set_numSegments 0 d in
  let ii := scanStart image init d in
  let start := ii in
  d ← scanLoop (S (Z.to_nat (len d))) image start ii d;
  result ← for_range 0 (numSegments d) (selectStep d) result;
  d ← trackingUpdate result d;
  dat ← for_range (queueOldStart d) (queueEnd d) (blackenStep (queue d)) (data image);
  dat ← (if draw d then for_range 0 (len d) (drawStep d) dat else Ok dat);
  d ← bufferCleanup result d;
  Ok (result, d, set_data dat image).

(** ** The constructor (lines 10-49)

    The static arrays are allocated by the first detector; the members
    that the constructor leaves uninitialised ([lastThreshold],
    [numSegments], the queue indices, the contents of [queue] and of
    [segmentArray]) are zero here. *)
Definition CCircleDetect (wi he : Z) (diamRatio : F) : outcome (Detector F) :=
  let len := wi * he in
  let areaRatioInner_Outer := (diamRatio * diamRatio)%fl in
  let d :=
    mkDetector wi he len 10 0 true false false
      (fofZ 11 / fofZ 10)%fl (fofZ 5)
      (fofZ 3 / fofZ 10)%fl (fofZ 4 / fofZ 10)%fl (fofZ 1 / fofZ 10)%fl
      diamRatio
      (fpi * (fofZ 1 - areaRatioInner_Outer) / fofZ 4)%fl
      (fpi / fofZ 4)%fl
      ((fofZ 1 - areaRatioInner_Outer) / areaRatioInner_Outer)%fl
      (3 * 256 `quot` 2) 0 0 false false
      0 0 0 0
      (replicate (Z.to_nat MAX_SEGMENTS) noSegment)
      (replicate (Z.to_nat len) 0) (replicate (Z.to_nat len) 0) in
  bufferCleanup noSegment d.

End Methods.

(** ** IEEE-754 binary32 *)

Module Binary32.

Definition prec : Z := 24.
Definition emax : Z := 128.

Definition of_Z (n : Z) : spec_float := binary_normalize prec emax n 0 false.

(** Conversion to [int]: the fraction is dropped; the conversion of a
    NaN or an infinity is undefined in C++ and yields [INT_MIN] here, as
    the conversion instruction of x86 does. *)
Definition to_Z (f : spec_float) : Z :=
  match f with
  | S754_zero _ => 0
  | S754_finite s m e =>
      let a := if 0 <=? e then Z.pos m * 2 ^ e else Z.pos m `quot` 2 ^ (- e) in
      if s then - a else a
  | _ => - 2 ^ 31
  end.

Definition add := SFadd prec emax.
Definition sub := SFsub prec emax.
Definition mul := SFmul prec emax.
Definition div := SFdiv prec emax.
Definition sqrt := SFsqrt prec emax.

(** [M_PI] rounded to binary32. *)
Definition pi : spec_float := S754_finite false 13176795 (-22).

(** [atan2] is a library function outside IEEE-754.  This one follows
    the usual quadrant reduction with a quadratic fit of the arc tangent
    on [[-1, 1]] (absolute error below 0.004 rad); no branch of the
    detector reads the angle it returns. *)
Definition atan_unit (z : spec_float) : spec_float :=
  add (mul (div pi (of_Z 4)) z)
      (mul (mul (div (of_Z 273) (of_Z 1000)) z) (sub (of_Z 1) (SFabs z))).

Definition atan2 (y x : spec_float) : spec_float :=
  let zero := of_Z 0 in
  let half_pi := div pi (of_Z 2) in
  if SFleb (SFabs y) (SFabs x) then
    if SFeqb x zero then zero
    else
      let a := atan_unit (div y x) in
      if SFltb x zero then
        if SFltb y zero then sub a pi else add a pi
      else a
  else
    let a := atan_unit (div x y) in
    if SFltb y zero then sub (SFopp half_pi) a else sub half_pi a.

#[global] Instance binary32 : FloatArith spec_float := {
  fofZ := of_Z;
  ftoZ := to_Z;
  fadd := add;
  fsub := sub;
  fmul := mul;
  fdiv := div;
  fneg := SFopp;
  fabs := SFabs;
  fsqrt := sqrt;
  fatan2 := atan2;
  fltb := SFltb;
  fleb := SFleb;
  fpi := pi
}.

End Binary32.

(** ** Vocabulary of the statements *)

(** [guarded Q m]: the run [m] ends with a result that satisfies [Q], or
    with a fault that is neither an access outside the queue nor a loop
    that does not end. *)
Definition guarded {A} (Q : A → Prop) (m : outcome A) : Prop :=
  match m with
  | Ok a => Q a
  | Fault f => f ≠ OobQueue ∧ f ≠ OutOfFuel
  end.

(** [succeeds Q m]: the run [m] ends without a fault, with a result that
    satisfies [Q]. *)
Definition succeeds {A} (Q : A → Prop) (m : outcome A) : Prop :=
  match m with
  | Ok a => Q a
  | Fault _ => False
  end.

Section Vocabulary.

Context {F : Type} {FA : FloatArith F}.

(** The members that a scan of the frame never writes: the detector with
    the members it does write (threshold, segment count, queue indices,
    segment array, label buffer, queue) blanked. *)
Definition settings (d : Detector F) : Detector F :=
  set_threshold 0 (set_numSegments 0 (set_queueStart 0 (set_queueEnd 0
    (set_queueOldStart 0 (set_segmentArray [] (set_buffer [] (set_queue [] d))))))).

(** The configuration: the members that no call of [findSegment] writes
    (the frame size, [minSize], [maxFailed], the flags [track], [debug]
    and [draw], the tolerances and the ratios). *)
Definition configuration (d : Detector F) : Detector F :=
  set_lastThreshold 0 (set_numFailed 0 (set_lastTrackOK false
    (set_drawAll false (settings d)))).

(** The eigenvalues of the covariance matrix of the pixels in
    [queue[0 .. queueEnd)] about their centroid (lines 308-336). *)
Definition unionEigen (image : CRawImage) (d : Detector F) : outcome (F * F) :=
  c ← unionCentroid image d;
  cm ← for_range 0 (queueEnd d) (momentStep image (queue d) (fst c) (snd c))
         (fofZ 0, fofZ 0, fofZ 0);
  Ok (eigen (fst (fst cm) / fofZ (queueEnd d))%fl
            (snd (fst cm) / fofZ (queueEnd d))%fl
            (snd cm / fofZ (queueEnd d))%fl).

(** The members that a flood fill never writes: the detector with the
    label buffer, the queue and its two moving indices blanked. *)
Definition beyondFill (d : Detector F) : Detector F :=
  set_queueStart 0 (set_queueEnd 0 (set_buffer [] (set_queue [] d))).

(** Segment [j] of the detector. *)
Definition segment (d : Detector F) (j : Z) : option (SSegment.t F) :=
  if 0 <=? j then segmentArray d !! Z.to_nat j else None.

(** [lastPair d k]: segments [k] and [k + 1] are a fitted pair, the
    threshold is the mean of their mean brightnesses, and no segment
    after them is valid. *)
Definition lastPair (d : Detector F) (k : Z) : Prop :=
  0 ≤ k ∧ k + 1 < numSegments d
  ∧ ∃ o i, segment d k = Some o ∧ segment d (k + 1) = Some i
      ∧ SSegment.valid o = true ∧ SSegment.valid i = true
      ∧ minSize d < SSegment.size i
      ∧ threshold d = (SSegment.mean o + SSegment.mean i) `quot` 2
      ∧ ∀ j s, k + 1 < j < numSegments d → segment d j = Some s →
          SSegment.valid s = false.

(** The state of the segment array during a scan: no segment found so
    far is valid, or there is a last fitted pair. *)
Definition calibrated (d : Detector F) : Prop :=
  0 ≤ numSegments d
  ∧ ((∀ j s, 0 ≤ j < numSegments d → segment d j = Some s →
        SSegment.valid s = false)
     ∨ ∃ k, lastPair d k).

(** The detector with its two diagnostic flags replaced. *)
Definition withFlags (dbg drw : bool) (d : Detector F) : Detector F :=
  set_debug dbg (set_draw drw d).

(** The detector with the flags and [drawAll], which only the drawing of
    lines 488-499 reads, replaced. *)
Definition withDiag (dbg drw all : bool) (d : Detector F) : Detector F :=
  set_debug dbg (set_draw drw (set_drawAll all d)).

(** The cell of the label buffer for column [x] of row [y]. *)
Definition cell (d : Detector F) (x y : Z) : nat := Z.to_nat (y * width d + x).

(** The one-pixel border of the image. *)
Definition onBorder (d : Detector F) (x y : Z) : bool :=
  (x =? 0) || (x =? width d - 1) || (y =? 0) || (y =? height d - 1).

(** The bounding box of a segment, grown by two pixels and clamped. *)
Definition inMargin (d : Detector F) (init : SSegment.t F) (x y : Z) : bool :=
  (Z.max (SSegment.minx init - 2) 1 <=? x)
  && (x <? Z.min (SSegment.maxx init + 2) (width d - 2))
  && (Z.max (SSegment.miny init - 2) 1 <=? y)
  && (y <? Z.min (SSegment.maxy init + 2) (height d - 2)).

(** The label buffer after a full reset. *)
Definition isReset (d : Detector F) (buf : list Z) : Prop :=
  Z.of_nat (length buf) = len d
  ∧ ∀ x y, 0 ≤ x < width d → 0 ≤ y < height d →
      buf !! cell d x y = Some (if onBorder d x y then -1000 else 0).

(** The capacity of [segmentArray], as in the methods. *)
Variable MAX_SEGMENTS : Z.

(** [visits image start d0 ii d]: the scan that starts at position
    [start] in state [d0] enters the body of its loop at position [ii] in
    state [d]. *)
Inductive visits (image : CRawImage) (start : Z) (d0 : Detector F)
  : Z → Detector F → Prop :=
  | visits_first : visits image start d0 start d0
  | visits_next ii d d' ii' :
      visits image start d0 ii d →
      scanStep MAX_SEGMENTS image start ii d = Ok (d', ii') →
      nextIndex d' ii' ≠ start →
      visits image start d0 (nextIndex d' ii') d'.

(** [fittedAt image dm r]: segment [r] carries the shape fit of the pair
    that state [dm] holds in its last two segments and in
    [queue[0 .. queueEnd)]: its centre is the centroid of those pixels
    and its semi-axes are the roots of the eigenvalues of their
    covariance, each increased by the leakage term. *)
Definition fittedAt (image : CRawImage) (dm : Detector F) (r : SSegment.t F)
  : Prop :=
  unionCentroid image dm = Ok (SSegment.x r, SSegment.y r)
  ∧ ∃ o i f0 f1,
      segment dm (numSegments dm - 2) = Some o
      ∧ segment dm (numSegments dm - 1) = Some i
      ∧ unionEigen image dm = Ok (f0, f1)
      ∧ SSegment.m0 r
        = (fsqrt f0 + leakage dm f0 f1 (SSegment.size o) (SSegment.size i))%fl
      ∧ SSegment.m1 r
        = (fsqrt f1 + leakage dm f0 f1 (SSegment.size o) (SSegment.size i))%fl.

(** [fitted image start d0 r]: during the scan from [d0] a candidate pair
    was found and fitted, and [r] carries that fit. *)
Definition fitted (image : CRawImage) (start : Z) (d0 : Detector F)
    (r : SSegment.t F) : Prop :=
  ∃ ii d dm,
    visits image start d0 ii d
    ∧ seekPair MAX_SEGMENTS image ii d = Ok (dm, true)
    ∧ fittedAt image dm r.

(** [afterFrames d0 d]: the detector is in state [d] after one or more
    frames were processed from state [d0]. *)
Inductive afterFrames (d0 : Detector F) : Detector F → Prop :=
  | after_first image init result d image' :
      findSegment MAX_SEGMENTS image init d0 = Ok (result, d, image') →
      afterFrames d0 d
  | after_next image init result d d' image' :
      afterFrames d0 d →
      findSegment MAX_SEGMENTS image init d = Ok (result, d', image') →
      afterFrames d0 d'.

(** The pixels in the queue: [queue[0 .. queueEnd)]. *)
Definition queued (d : Detector F) : list Z :=
  take (Z.to_nat (queueEnd d)) (queue d).

(** The state of the static arrays and of the queue indices between two
    steps of a scan, and between two frames: both arrays have [len]
    cells, the indices lie within them, and the queue holds pairwise
    different pixel indices. *)
Definition scanReady (d : Detector F) : Prop :=
  Z.of_nat (length (buffer d)) = len d
  ∧ Z.of_nat (length (queue d)) = len d
  ∧ 0 ≤ numSegments d
  ∧ 0 ≤ queueOldStart d ≤ len d
  ∧ 0 ≤ queueEnd d ≤ len d
  ∧ NoDup (queued d)
  ∧ ∀ p, p ∈ queued d → 0 ≤ p < len d.

(** Every pixel in the queue carries the label of a segment. *)
Definition labelled (d : Detector F) : Prop :=
  ∀ p, p ∈ queued d → ∃ v, buffer d !! Z.to_nat p = Some v ∧ 0 < v.

(** The state in which a flood fill may start: the pixels already in the
    queue are labelled and the read index lies within the array. *)
Definition seedReady (d : Detector F) : Prop :=
  scanReady d ∧ 0 ≤ queueStart d ≤ len d ∧ labelled d.

(** The state during a flood fill: moreover a segment is being labelled. *)
Definition fillReady (d : Detector F) : Prop :=
  seedReady d ∧ 1 ≤ numSegments d.

(** What holds of the segment array throughout a scan: it is calibrated,
    and the inner segment of the last fitted pair carries a fit made
    during this scan. *)
Definition scanInv (image : CRawImage) (start : Z) (d0 d : Detector F) : Prop :=
  calibrated d
  ∧ ∀ k i, lastPair d k → segment d (k + 1) = Some i → fitted image start d0 i.

(** [relabelled type n b b']: the label buffer [b'] comes from [b] by a
    flood fill for the class [type] that writes the label [n]: a cell
    keeps its label, or it held 0 and was classified, or it held 0 or
    [type] and now holds [n]. *)
Definition relabelled (type n : Z) (b b' : list Z) : Prop :=
  length b' = length b
  ∧ ∀ p v, b !! p = Some v →
      ∃ v', b' !! p = Some v'
        ∧ (v' = v
           ∨ (v = 0 ∧ (v' = -1 ∨ v' = -2))
           ∨ ((v = 0 ∨ v = type) ∧ v' = n)).

(** [touched m b b']: the label buffer [b'] comes from [b] by the scan
    of a frame: a cell keeps its label, or it held 0, -1 or -2 and now
    holds -1, -2 or the ordinal of a segment, between 1 and [m]. *)
Definition touched (m : Z) (b b' : list Z) : Prop :=
  length b' = length b
  ∧ ∀ p v, b !! p = Some v →
      ∃ v', b' !! p = Some v'
        ∧ (v' = v
           ∨ ((v = 0 ∨ v = -1 ∨ v = -2)
              ∧ (v' = -1 ∨ v' = -2 ∨ 1 ≤ v' ≤ m))).

(** The pixels of the last region examined:
    [queue[queueOldStart .. queueEnd)]. *)
Definition lastRegion (d : Detector F) : list Z :=
  drop (Z.to_nat (queueOldStart d)) (queued d).

(** The label buffer has a cell for every pixel of a frame that has an
    interior, and its border holds the sentinel -1000. *)
Definition fenced (d : Detector F) : Prop :=
  0 < width d ∧ 0 < height d ∧ len d = width d * height d
  ∧ Z.of_nat (length (buffer d)) = len d
  ∧ ∀ x y, 0 ≤ x < width d → 0 ≤ y < height d → onBorder d x y = true →
      buffer d !! cell d x y = Some (-1000).

(** The border of the label buffer holds the sentinel, and every cell
    holds the sentinel, a pixel class (0, -1 or -2) or the ordinal of a
    segment that fits the segment array. *)
Definition wellLabelled (d : Detector F) : Prop :=
  fenced d
  ∧ ∀ p v, buffer d !! p = Some v →
      v = -1000 ∨ -2 ≤ v ≤ 0 ∨ 1 ≤ v ≤ MAX_SEGMENTS.

(** A bounding box that lies within the border of the frame. *)
Definition boxed (d : Detector F) (bb : bbox) : Prop :=
  1 ≤ bminx bb ≤ width d - 2 ∧ 1 ≤ bmaxx bb ≤ width d - 2
  ∧ 1 ≤ bminy bb ≤ height d - 2 ∧ 1 ≤ bmaxy bb ≤ height d - 2.


(** A segment without its semi-axes, and a detector without the diameter
    ratio and without the semi-axes of its segments. *)
Definition eraseAxes (s : SSegment.t F) : SSegment.t F :=
  SSegment.set_m0 (fofZ 0) (SSegment.set_m1 (fofZ 0) s).

Definition axesErased (d : Detector F) : Detector F :=
  set_diameterRatio (fofZ 0)
    (set_segmentArray (eraseAxes <$> segmentArray d) d).

(** The frame has three samples for every pixel of the detector. *)
Definition fits (image : CRawImage) (d : Detector F) : Prop :=
  3 * len d ≤ Z.of_nat (length (data image)).


End Vocabulary.

(** ** Synthetic frames

    A frame that shows a dark ring on a light ground: the pixels at
    squared distance at most [R2] from [(cx, cy)] are dark, except those
    at squared distance at most [r2] from [(ix, iy)].  All three
    channels of a pixel hold the same value. *)
Module Sample.
Import Binary32.

Definition ringPixel (w cx cy R2 ix iy r2 dark light : Z) (i : nat) : list Z :=
  let x := Z.of_nat i `rem` w in
  let y := Z.of_nat i `quot` w in
  let outer := (x - cx) * (x - cx) + (y - cy) * (y - cy) in
  let inner := (x - ix) * (x - ix) + (y - iy) * (y - iy) in
  if (outer <=? R2) && negb (inner <=? r2)
  then [dark; dark; dark] else [light; light; light].

Definition ringFrame (w h cx cy R2 ix iy r2 dark light : Z) : CRawImage :=
  mkImage w h
    (concat (map (ringPixel w cx cy R2 ix iy r2 dark light)
               (seq 0 (Z.to_nat (w * h))))).

(** The capacity of the segment array in the examples. *)
Definition MAX_SEGMENTS : Z := 100.

(** The ratio of the diameters of a disc of radius 5 in a disc of
    radius 14. *)
Definition diamRatio : spec_float := div (of_Z 5) (of_Z 14).

(** A detector for frames of 32 x 32 pixels. *)
Definition detector : outcome (Detector spec_float) :=
  CCircleDetect MAX_SEGMENTS 32 32 diamRatio.

(** Black ring of radii 14 and 5 around [(16, 16)] on white. *)
Definition ideal : CRawImage := ringFrame 32 32 16 16 196 16 16 25 0 255.

(** The same ring with its hole one pixel to the right. *)
Definition offCentre : CRawImage := ringFrame 32 32 16 16 196 17 16 25 0 255.

(** The ideal ring in black on a ground of channel value 100. *)
Definition dim : CRawImage := ringFrame 32 32 16 16 196 16 16 25 0 100.

(** A ring whose hole is too small for the diameter ratio. *)
Definition smallHole : CRawImage := ringFrame 32 32 16 16 196 16 16 16 0 255.

(** The value of a computation that succeeds. *)
Definition unwrap {A} (default : A) (m : outcome A) : A :=
  match m with Ok a => a | Fault _ => default end.

(** A detector without arrays. *)
Definition blank : Detector spec_float :=
  let z := S754_zero false in
  mkDetector 0 0 0 0 0 false false false z z z z z z z z z
    0 0 0 false false 0 0 0 0 [] [] [].

(** The detector as the constructor leaves it. *)
Definition started : Detector spec_float :=
  Eval vm_compute in unwrap blank detector.

(** The same with tracking disabled. *)
Definition untracked : Detector spec_float :=
  Eval vm_compute in set_track false started.

(** The same with [debug] and [draw] set. *)
Definition verbose : Detector spec_float :=
  Eval vm_compute in withFlags true true started.

Definition frameResult : Type :=
  SSegment.t spec_float * Detector spec_float * CRawImage.

Definition nothing : frameResult := (noSegment, blank, mkImage 0 0 []).

(** The first frame of a detector, for each of the frames above. *)
Definition idealRun : frameResult :=
  Eval vm_compute in
    unwrap nothing (findSegment MAX_SEGMENTS ideal noSegment started).

Definition idealResult : SSegment.t spec_float :=
  Eval vm_compute in fst (fst idealRun).

Definition idealAfter : Detector spec_float :=
  Eval vm_compute in snd (fst idealRun).

Definition verboseRun : frameResult :=
  Eval vm_compute in
    unwrap nothing (findSegment MAX_SEGMENTS ideal noSegment verbose).

Definition offCentreRun : frameResult :=
  Eval vm_compute in
    unwrap nothing (findSegment MAX_SEGMENTS offCentre noSegment started).

(** Three frames in a row that show [dim], tracking disabled. *)
Definition dimRun1 : frameResult :=
  Eval vm_compute in
    unwrap nothing (findSegment MAX_SEGMENTS dim noSegment untracked).



(** The scan position of the topmost pixel of the ring. *)
Definition seed : Z := 2 * 32 + 16.

(** The cascade at [seed], for two of the frames. *)
Definition offCentrePair : Detector spec_float * bool :=
  Eval vm_compute in
    unwrap (blank, false) (seekPair MAX_SEGMENTS offCentre seed started).

Definition smallHolePair : Detector spec_float * bool :=
  Eval vm_compute in
    unwrap (blank, false) (seekPair MAX_SEGMENTS smallHole seed started).

(** *** A small frame

    A frame of 12 x 12 pixels with a black ring around [(6, 6)], for a
    detector whose diameter ratio is one half. *)
Definition tinyFrame : CRawImage := ringFrame 12 12 6 6 20 6 6 5 0 255.

Definition tinyDetector : outcome (Detector spec_float) :=
  CCircleDetect MAX_SEGMENTS 12 12 (div (of_Z 1) (of_Z 2)).

Definition tinyStarted : Detector spec_float :=
  Eval vm_compute in unwrap blank tinyDetector.

(** The scan position of the first black pixel, [(4, 2)]. *)
Definition tinySeed : Z := 2 * 12 + 4.

(** The detector when the scan has classified the pixel at [tinySeed]. *)
Definition tinyReady : Detector spec_float :=
  Eval vm_compute in
    set_buffer (<[Z.to_nat tinySeed := -2]> (buffer tinyStarted)) tinyStarted.

(** The flood fill of the ring. *)
Definition tinyOuter : bool * Detector spec_float :=
  Eval vm_compute in
    unwrap (false, blank)
      (examineSegment tinyFrame 0 tinySeed (outerAreaRatio tinyReady) tinyReady).

(** The cascade at [tinySeed] and the shape fit of the pair it finds. *)
Definition tinyPair : Detector spec_float * bool :=
  Eval vm_compute in
    unwrap (blank, false) (seekPair MAX_SEGMENTS tinyFrame tinySeed tinyStarted).

Definition tinyFit : Detector spec_float * Z :=
  Eval vm_compute in
    unwrap (blank, 0) (shapeFit tinyFrame 0 tinySeed (fst tinyPair)).

(** The first frame of the small detector. *)
Definition tinyRun : frameResult :=
  Eval vm_compute in
    unwrap nothing (findSegment MAX_SEGMENTS tinyFrame noSegment tinyStarted).

End Sample.

(** * Properties *)

(** ** Runs that end with [Ok] *)

Lemma bind_Ok {A B} (m : outcome A) (k : A → outcome B) r :
  m ≫= k = Ok r → ∃ a, m = Ok a ∧ k a = Ok r.
Proof. destruct m; [eauto | discriminate]. Qed.

Lemma rd_Ok {A} e (l : list A) i a :
  rd e l i = Ok a → 0 ≤ i ∧ l !! Z.to_nat i = Some a.
Proof.
  unfold rd. destruct (Z.leb_spec 0 i); [|discriminate].
  destruct (l !! Z.to_nat i); [|discriminate]. intros [= ->]. done.
Qed.

Lemma wr_Ok {A} e (l : list A) i v l' :
  wr e l i v = Ok l' → 0 ≤ i < Z.of_nat (length l) ∧ l' = <[Z.to_nat i := v]> l.
Proof.
  unfold wr. destruct (Z.leb_spec 0 i), (Z.ltb_spec i (Z.of_nat (length l)));
    simpl; try discriminate. intros [= <-]. done.
Qed.

(** Inversion of a run that ended with [Ok]: binds are split, tests are
    decided, results are unpacked. *)
Ltac inv_ok H :=
  lazymatch type of H with
  | Ok _ = Ok _ => injection H as H; try subst
  | Fault _ = Ok _ => discriminate H
  | (_ ≫= _) = Ok _ =>
      let a := fresh "a" in let E := fresh "E" in
      apply bind_Ok in H as (a & E & H); inv_ok E; inv_ok H
  | (if ?c then _ else _) = Ok _ =>
      let E := fresh "C" in destruct c eqn:E; inv_ok H
  | (let '(_, _) := ?p in _) = Ok _ => destruct p; inv_ok H
  | _ => idtac
  end.

(** An invariant of a [for] loop. *)
Lemma for_loop_inv {St} (P : Z → St → Prop) n i (body : Z → St → outcome St) s s' :
  (∀ j t t', i ≤ j < i + Z.of_nat n → P j t → body j t = Ok t' → P (j + 1) t') →
  P i s → for_loop n i body s = Ok s' → P (i + Z.of_nat n) s'.
Proof.
  revert i s. induction n as [|n IH]; intros i s Hb Hi Hl; simpl in Hl.
  - injection Hl as <-. by rewrite Z.add_0_r.
  - inv_ok Hl. replace (i + Z.of_nat (S n)) with (i + 1 + Z.of_nat n) by lia.
    eapply IH; [| |done].
    + intros j t t' ?. apply Hb. lia.
    + eapply Hb; [|done..]. lia.
Qed.

Lemma for_range_inv {St} (P : Z → St → Prop) lo hi (body : Z → St → outcome St) s s' :
  (∀ j t t', lo ≤ j < hi → P j t → body j t = Ok t' → P (j + 1) t') →
  P lo s → for_range lo hi body s = Ok s' → P (Z.max lo hi) s'.
Proof.
  unfold for_range. intros Hb Hlo Hl.
  replace (Z.max lo hi) with (lo + Z.of_nat (Z.to_nat (hi - lo))) by lia.
  eapply for_loop_inv; [|done..]. intros j t t' ?. apply Hb. lia.
Qed.

(** A [for] loop whose body cannot fault under the invariant runs to the end. *)
Lemma for_loop_total {St} (P : Z → St → Prop) n i (body : Z → St → outcome St) s :
  (∀ j t, i ≤ j < i + Z.of_nat n → P j t → ∃ t', body j t = Ok t' ∧ P (j + 1) t') →
  P i s → ∃ s', for_loop n i body s = Ok s' ∧ P (i + Z.of_nat n) s'.
Proof.
  revert i s. induction n as [|n IH]; intros i s Hb Hi; simpl.
  - exists s. by rewrite Z.add_0_r.
  - destruct (Hb i s) as (t & -> & Ht); [lia|done|]. simpl.
    replace (i + Z.of_nat (S n)) with (i + 1 + Z.of_nat n) by lia.
    apply IH; [|done]. intros j u ?. apply Hb. lia.
Qed.

Lemma for_range_total {St} (P : Z → St → Prop) lo hi (body : Z → St → outcome St) s :
  (∀ j t, lo ≤ j < hi → P j t → ∃ t', body j t = Ok t' ∧ P (j + 1) t') →
  P lo s → ∃ s', for_range lo hi body s = Ok s' ∧ P (Z.max lo hi) s'.
Proof.
  unfold for_range. intros Hb Hlo.
  replace (Z.max lo hi) with (lo + Z.of_nat (Z.to_nat (hi - lo))) by lia.
  apply for_loop_total; [|done]. intros j t ?. apply Hb. lia.
Qed.

Lemma lookup_wr {A} e (l l' : list A) i v j :
  wr e l i v = Ok l' → 0 ≤ j →
  l' !! Z.to_nat j = if decide (j = i) then Some v else l !! Z.to_nat j.
Proof.
  intros [Hi ->]%wr_Ok Hj. destruct (decide (j = i)) as [->|Hne].
  - apply list_lookup_insert_eq. lia.
  - apply list_lookup_insert_ne. lia.
Qed.

Lemma length_wr {A} e (l l' : list A) i v :
  wr e l i v = Ok l' → length l' = length l.
Proof. intros [_ ->]%wr_Ok. apply length_insert. Qed.

Lemma wr_total {A} e (l : list A) i v :
  0 ≤ i < Z.of_nat (length l) → wr e l i v = Ok (<[Z.to_nat i := v]> l).
Proof.
  intros. unfold wr.
  destruct (Z.leb_spec 0 i), (Z.ltb_spec i (Z.of_nat (length l))); simpl; done || lia.
Qed.

Lemma rd_total {A} e (l : list A) i :
  0 ≤ i < Z.of_nat (length l) → ∃ a, rd e l i = Ok a ∧ l !! Z.to_nat i = Some a.
Proof.
  intros. unfold rd. destruct (Z.leb_spec 0 i); [|lia].
  destruct (lookup_lt_is_Some_2 l (Z.to_nat i)) as [a Ha]; [lia|].
  rewrite Ha. eauto.
Qed.

Section Properties.

Context {F : Type} {FA : FloatArith F}.
Variable MAX_SEGMENTS : Z.

Implicit Types d : Detector F.
Implicit Types image : CRawImage.

(** ** What a scan leaves alone *)

Lemma settings_threshold v d : settings (set_threshold v d) = settings d.
Proof. by destruct d. Qed.
Lemma settings_numSegments v d : settings (set_numSegments v d) = settings d.
Proof. by destruct d. Qed.
Lemma settings_queueStart v d : settings (set_queueStart v d) = settings d.
Proof. by destruct d. Qed.
Lemma settings_queueEnd v d : settings (set_queueEnd v d) = settings d.
Proof. by destruct d. Qed.
Lemma settings_queueOldStart v d : settings (set_queueOldStart v d) = settings d.
Proof. by destruct d. Qed.
Lemma settings_segmentArray v d : settings (set_segmentArray v d) = settings d.
Proof. by destruct d. Qed.
Lemma settings_buffer v d : settings (set_buffer v d) = settings d.
Proof. by destruct d. Qed.
Lemma settings_queue v d : settings (set_queue v d) = settings d.
Proof. by destruct d. Qed.

Create Rewrite HintDb settings.
#[local] Hint Rewrite settings_threshold settings_numSegments
  settings_queueStart settings_queueEnd settings_queueOldStart
  settings_segmentArray settings_buffer settings_queue : settings.

Ltac settings := autorewrite with settings; try done.

Lemma classify_settings image pos d d' :
  classify image pos d = Ok d' → settings d' = settings d.
Proof. unfold classify. intros Hc. inv_ok Hc; settings. Qed.

Lemma probe_settings image type sd position (st st' : Detector F * bbox) :
  probe image type sd position st = Ok st' →
  settings (fst st') = settings (fst st).
Proof.
  unfold probe. destruct st as [d bb]. intros Hp. inv_ok Hp; cbn [fst]; settings;
    eauto using classify_settings.
Qed.

Lemma floodFill_settings fuel image type (st st' : Detector F * bbox) :
  floodFill fuel image type st = Ok st' →
  settings (fst st') = settings (fst st).
Proof.
  revert st. induction fuel as [|fuel IH]; intros st Hf; cbn [floodFill] in Hf.
  - inv_ok Hf. done.
  - destruct (queueStart (fst st) <? queueEnd (fst st)); [|by inv_ok Hf].
    destruct st as [d bb]. inv_ok Hf.
    apply IH in Hf. rewrite Hf.
    repeat match goal with
           | E : probe _ _ _ _ _ = Ok _ |- _ =>
               apply probe_settings in E; rewrite E; clear E
           end.
    cbn [fst]. settings.
Qed.

Lemma examineSegment_settings image si ii areaRatio d found d' :
  examineSegment image si ii areaRatio d = Ok (found, d') →
  settings d' = settings d.
Proof.
  unfold examineSegment. intros He. inv_ok He;
    match goal with E : floodFill _ _ _ _ = Ok _ |- _ =>
      apply floodFill_settings in E; cbn [fst] in E end;
    autorewrite with settings in *; done.
Qed.

(** ** The threshold schedule *)

Lemma thresholdDiv_spec dum div :
  1 ≤ dum → thresholdDiv dum div = div * 2 ^ Z.log2 dum.
Proof.
  funelim (thresholdDiv dum div); intros Hd.
  - assert (Hq : dum `quot` 2 = dum `div` 2) by (apply Z.quot_div_nonneg; lia).
    assert (1 ≤ dum `div` 2) by (apply Z.div_le_lower_bound; lia).
    rewrite H by lia. rewrite Hq.
    assert (Z.log2 dum = Z.succ (Z.log2 (dum `div` 2))) as ->.
    { pose proof (Z.div_mod dum 2 ltac:(lia)) as Hdm.
      pose proof (Z.mod_pos_bound dum 2 ltac:(lia)).
      destruct (decide (dum `mod` 2 = 0)) as [E|E].
      - rewrite Hdm at 1. rewrite E, Z.add_0_r. apply Z.log2_double. lia.
      - rewrite Hdm at 1. replace (dum `mod` 2) with 1 by lia.
        apply Z.log2_succ_double. lia. }
    rewrite Z.pow_succ_r by apply Z.log2_nonneg. lia.
  - replace dum with 1 by lia. simpl. lia.
Qed.

Lemma thresholdDiv_small dum div : dum ≤ 1 → thresholdDiv dum div = div.
Proof. intros. simp thresholdDiv. destruct (Z_lt_dec 1 dum); [lia|done]. Qed.

(** Between 1 and [INT_MAX] failures no intermediate value of
    [changeThreshold] leaves the range of [int]. *)
Lemma changeThreshold_in_range n :
  1 ≤ n < 2 ^ 31 →
  let div := thresholdDiv n 1 in
  let step := 256 `quot` div in
  1 ≤ div ≤ n ∧ 0 ≤ step ≤ 256 ∧ 0 ≤ step * (n - div) < 256
  ∧ 0 ≤ 3 * (step * (n - div) + step `quot` 2) < 768.
Proof.
  intros Hn div step. subst div step. rewrite thresholdDiv_spec, Z.mul_1_l by lia.
  pose proof (Z.log2_spec n ltac:(lia)) as [Hlo Hhi].
  rewrite Z.pow_succ_r in Hhi by apply Z.log2_nonneg.
  set (dv := 2 ^ Z.log2 n) in *.
  assert (0 < dv) by (apply Z.pow_pos_nonneg; [lia | apply Z.log2_nonneg]).
  rewrite !Z.quot_div_nonneg by (try apply Z.div_pos; lia).
  assert (0 ≤ 256 `div` dv) by (apply Z.div_pos; lia).
  assert (256 `div` dv * dv ≤ 256) by (rewrite Z.mul_comm; apply Z.mul_div_le; lia).
  assert ((256 `div` dv) `div` 2 * 2 ≤ 256 `div` dv)
    by (rewrite Z.mul_comm; apply Z.mul_div_le; lia).
  assert (0 ≤ (256 `div` dv) `div` 2) by (apply Z.div_pos; lia).
  nia.
Qed.

Lemma shapeFit_settings image start ii d d' ii' :
  shapeFit image start ii d = Ok (d', ii') → settings d' = settings d.
Proof. unfold shapeFit. intros Hs. inv_ok Hs; settings. Qed.

Lemma seekInner_settings image d d' fit :
  seekInner MAX_SEGMENTS image d = Ok (d', fit) → settings d' = settings d.
Proof.
  unfold seekInner. intros Hs. inv_ok Hs;
    repeat match goal with
    | E : examineSegment _ _ _ _ _ = Ok _ |- _ => apply examineSegment_settings in E
    | E : classify _ _ _ = Ok _ |- _ => apply classify_settings in E
    end; congruence.
Qed.

Lemma seekPair_settings image ii d d' fit :
  seekPair MAX_SEGMENTS image ii d = Ok (d', fit) → settings d' = settings d.
Proof.
  unfold seekPair. intros Hs. inv_ok Hs;
    repeat match goal with
    | E : seekInner _ _ _ = Ok _ |- _ => apply seekInner_settings in E
    | E : examineSegment _ _ _ _ _ = Ok _ |- _ => apply examineSegment_settings in E
    end; autorewrite with settings in *; congruence.
Qed.

Lemma scanStep_settings image start ii d d' ii' :
  scanStep MAX_SEGMENTS image start ii d = Ok (d', ii') →
  settings d' = settings d.
Proof.
  unfold scanStep. intros Hs. inv_ok Hs;
    repeat match goal with
    | E : seekPair _ _ _ _ = Ok _ |- _ => apply seekPair_settings in E
    | E : shapeFit _ _ _ _ = Ok _ |- _ => apply shapeFit_settings in E
    end; congruence.
Qed.

Lemma scanLoop_settings fuel image start ii d d' :
  scanLoop MAX_SEGMENTS fuel image start ii d = Ok d' →
  settings d' = settings d.
Proof.
  revert ii d. induction fuel as [|fuel IH]; intros ii d Hs; cbn [scanLoop] in Hs.
  - discriminate.
  - inv_ok Hs.
    + by eapply scanStep_settings.
    + apply IH in Hs. rewrite Hs. by eapply scanStep_settings.
Qed.

(** C4. For every count of failures [numFailed >= 1], [changeThreshold]
    sets the threshold to [3 * (step * (numFailed - div) + step / 2)],
    where [div] is the largest power of two not exceeding [numFailed] and
    [step = 256 / div], and it returns true exactly when [step > 16]; per
    channel the probes for 1, 2, 3, ... failures are 128, then 64 and 192,
    then the odd multiples of 32. *)
Theorem changeThreshold_schedule d :
  1 ≤ numFailed d →
  let div := 2 ^ Z.log2 (numFailed d) in
  let step := 256 `quot` div in
  div ≤ numFailed d < 2 * div
  ∧ threshold (snd (changeThreshold d))
    = 3 * (step * (numFailed d - div) + step `quot` 2)
  ∧ (fst (changeThreshold d) = true ↔ 16 < step)
  ∧ map (λ n, threshold (snd (changeThreshold (set_numFailed n d))) `quot` 3)
        [1; 2; 3; 4; 5; 6; 7]
    = [128; 64; 192; 32; 96; 160; 224].
Proof.
  intros Hn div step. subst div step.
  split; [|split; [|split]].
  - split; [apply Z.log2_spec; lia|].
    replace (2 * 2 ^ Z.log2 (numFailed d)) with (2 ^ Z.succ (Z.log2 (numFailed d))).
    + apply Z.log2_spec. lia.
    + rewrite Z.pow_succ_r; [lia | apply Z.log2_nonneg].
  - unfold changeThreshold. rewrite thresholdDiv_spec, Z.mul_1_l by done.
    by destruct d.
  - unfold changeThreshold. rewrite thresholdDiv_spec, Z.mul_1_l by done.
    cbn [fst]. apply Z.ltb_lt.
  - destruct d. vm_compute. reflexivity.
Qed.

(** ** The failure counter *)

Lemma settings_fields d d' :
  settings d' = settings d →
  width d' = width d ∧ height d' = height d ∧ len d' = len d
  ∧ minSize d' = minSize d ∧ maxFailed d' = maxFailed d
  ∧ track d' = track d ∧ debug d' = debug d ∧ draw d' = draw d
  ∧ lastThreshold d' = lastThreshold d ∧ numFailed d' = numFailed d
  ∧ lastTrackOK d' = lastTrackOK d ∧ drawAll d' = drawAll d.
Proof. destruct d, d'. intros [= ]. by subst. Qed.

(** [changeThreshold] reports exhaustion from the sixteenth failure on. *)
Lemma changeThreshold_exhausted d :
  fst (changeThreshold d) = false ↔ 16 ≤ numFailed d.
Proof.
  unfold changeThreshold. cbn [fst]. rewrite Z.ltb_ge.
  destruct (Z_lt_dec (numFailed d) 1) as [Hs|Hs].
  - rewrite thresholdDiv_small by lia.
    change (256 `quot` 1) with 256. lia.
  - rewrite thresholdDiv_spec, Z.mul_1_l by lia.
    pose proof (Z.log2_spec (numFailed d) ltac:(lia)) as [Hlo Hhi].
    rewrite Z.pow_succ_r in Hhi by apply Z.log2_nonneg.
    set (dv := 2 ^ Z.log2 (numFailed d)) in *.
    assert (0 < dv) by (apply Z.pow_pos_nonneg; [lia | apply Z.log2_nonneg]).
    rewrite Z.quot_div_nonneg by lia.
    split.
    + intros Hq. destruct (Z_lt_dec (numFailed d) 16) as [Hlt|]; [|lia].
      assert (dv ≤ 8); [|].
      { destruct (Z_le_gt_dec (Z.log2 (numFailed d)) 3) as [Hl|Hl].
        - subst dv. change 8 with (2 ^ 3). apply Z.pow_le_mono_r; lia.
        - assert (2 ^ 4 ≤ dv) by (subst dv; apply Z.pow_le_mono_r; lia).
          change (2 ^ 4) with 16 in *. lia. }
      assert (32 ≤ 256 `div` dv); [|lia].
      apply Z.div_le_lower_bound; lia.
    + intros Hge.
      assert (16 ≤ dv).
      { destruct (Z_le_gt_dec 4 (Z.log2 (numFailed d))) as [Hl|Hl].
        - change 16 with (2 ^ 4). subst dv. apply Z.pow_le_mono_r; lia.
        - assert (dv ≤ 2 ^ 3) by (subst dv; apply Z.pow_le_mono_r; lia).
          change (2 ^ 3) with 8 in *. lia. }
      apply Z.div_le_upper_bound; lia.
Qed.

Lemma changeThreshold_settings d :
  settings (snd (changeThreshold d)) = settings d.
Proof. unfold changeThreshold. cbn [snd]. settings. Qed.

Lemma changeThreshold_numFailed d :
  numFailed (snd (changeThreshold d)) = numFailed d
  ∧ maxFailed (snd (changeThreshold d)) = maxFailed d.
Proof. by destruct d. Qed.

(** The counter after the controller of lines 457-479 has run. *)
Lemma trackingUpdate_numFailed result d d' :
  trackingUpdate result d = Ok d' →
  maxFailed d' = maxFailed d
  ∧ numFailed d' =
      if SSegment.valid result then 0
      else if numFailed d <? maxFailed d then numFailed d + 1
      else if 16 <=? numFailed d + 1 then 0 else numFailed d + 1.
Proof.
  unfold trackingUpdate. intros Hu.
  apply bind_Ok in Hu as (ok & _ & Hu).
  assert (Hlt : numFailed (set_lastTrackOK ok d) = numFailed d
                ∧ maxFailed (set_lastTrackOK ok d) = maxFailed d) by by destruct d.
  destruct Hlt as [Hn Hm]. rewrite Hn, Hm in Hu.
  destruct (SSegment.valid result).
  { inv_ok Hu. by destruct d. }
  destruct (numFailed d <? maxFailed d).
  { inv_ok Hu. destruct (_ `rem` 2 =? 0), d, debug; done. }
  destruct (changeThreshold _) as [more dc] eqn:Ec.
  pose proof (changeThreshold_exhausted (set_numFailed (numFailed d + 1)
                (set_lastTrackOK ok d))) as Hex.
  pose proof (changeThreshold_numFailed (set_numFailed (numFailed d + 1)
                (set_lastTrackOK ok d))) as [Hcn Hcm].
  rewrite Ec in *. cbn [fst snd] in *.
  replace (numFailed (set_numFailed (numFailed d + 1) (set_lastTrackOK ok d)))
    with (numFailed d + 1) in * by by destruct d.
  replace (maxFailed (set_numFailed (numFailed d + 1) (set_lastTrackOK ok d)))
    with (maxFailed d) in * by by destruct d.
  inv_ok Hu.
  destruct more.
  - destruct (Z.leb_spec 16 (numFailed d + 1)).
    + assert (true = false) by (apply Hex; lia). done.
    + destruct dc, debug; simpl in *; done.
  - destruct (Z.leb_spec 16 (numFailed d + 1)).
    + destruct dc, debug; simpl in *; done.
    + assert (16 ≤ numFailed d + 1) by by apply Hex. lia.
Qed.

Lemma bufferCleanup_buffer init d d' :
  bufferCleanup init d = Ok d' → ∃ buf, d' = set_buffer buf d.
Proof. unfold bufferCleanup. intros Hb. inv_ok Hb; eauto. Qed.

(** The counter after a whole frame. *)
Lemma findSegment_numFailed image init d result d' image' :
  findSegment MAX_SEGMENTS image init d = Ok (result, d', image') →
  maxFailed d' = maxFailed d
  ∧ numFailed d' =
      if SSegment.valid result then 0
      else if numFailed d <? maxFailed d then numFailed d + 1
      else if 16 <=? numFailed d + 1 then 0 else numFailed d + 1.
Proof.
  unfold findSegment. intros Hf.
  apply bind_Ok in Hf as (d1 & Hscan & Hf).
  apply bind_Ok in Hf as (r & Hsel & Hf).
  apply bind_Ok in Hf as (d2 & Hupd & Hf).
  apply bind_Ok in Hf as (dat & _ & Hf).
  apply bind_Ok in Hf as (dat' & _ & Hf).
  apply bind_Ok in Hf as (d3 & Hclean & Hf).
  injection Hf as -> -> _.
  apply scanLoop_settings in Hscan. rewrite settings_numSegments in Hscan.
  apply settings_fields in Hscan as (_ & _ & _ & _ & Hm & _ & _ & _ & _ & Hn & _).
  apply trackingUpdate_numFailed in Hupd as [Hm2 Hn2].
  apply bufferCleanup_buffer in Hclean as [buf ->].
  rewrite Hm, Hn in *.
  replace (maxFailed (set_buffer buf d2)) with (maxFailed d2) by by destruct d2.
  replace (numFailed (set_buffer buf d2)) with (numFailed d2) by by destruct d2.
  done.
Qed.

(** C5. A failed frame on which the sweep is exhausted ([numFailed] has
    reached [maxFailed] and [changeThreshold], called on the incremented
    counter, returns false) leaves the failure counter at 0; and after
    any number of frames the counter is at most [max maxFailed 16]. *)
Theorem failure_counter_bounded d0 :
  (∀ image init result d image',
      findSegment MAX_SEGMENTS image init d0 = Ok (result, d, image') →
      SSegment.valid result = false →
      maxFailed d0 ≤ numFailed d0 →
      fst (changeThreshold (set_numFailed (numFailed d0 + 1) d0)) = false →
      numFailed d = 0)
  ∧ (∀ d, afterFrames MAX_SEGMENTS d0 d →
          maxFailed d = maxFailed d0
          ∧ numFailed d ≤ Z.max (maxFailed d0) 16).
Proof.
  split.
  - intros image init result d image' Hf Hv Hm Hc.
    apply findSegment_numFailed in Hf as [_ ->]. rewrite Hv.
    apply changeThreshold_exhausted in Hc.
    replace (numFailed (set_numFailed (numFailed d0 + 1) d0))
      with (numFailed d0 + 1) in Hc by by destruct d0.
    destruct (Z.ltb_spec (numFailed d0) (maxFailed d0)); [lia|].
    destruct (Z.leb_spec 16 (numFailed d0 + 1)); [done|lia].
  - intros d Ha.
    assert (∀ image init da result db image',
               findSegment MAX_SEGMENTS image init da = Ok (result, db, image') →
               maxFailed db = maxFailed da
               ∧ numFailed db ≤ Z.max (maxFailed da) 16) as Hstep.
    { intros image init da result db image' Hf.
      apply findSegment_numFailed in Hf as [-> ->]. split; [done|].
      destruct (SSegment.valid result); [lia|].
      destruct (Z.ltb_spec (numFailed da) (maxFailed da)); [lia|].
      destruct (Z.leb_spec 16 (numFailed da + 1)); lia. }
    induction Ha as [image init result d image' Hf
                    |image init result d d' image' _ [IHm IHn] Hf].
    + by eapply Hstep.
    + apply Hstep in Hf as [-> Hf]. rewrite IHm in Hf. done.
Qed.

(** ** The label buffer after [bufferCleanup] *)

Lemma cell_lt d x y :
  0 ≤ x < width d → 0 ≤ y < height d →
  0 ≤ y * width d + x < width d * height d.
Proof.
  intros Hx Hy.
  assert (y * width d ≤ (height d - 1) * width d)
    by (apply Z.mul_le_mono_nonneg_r; lia).
  assert (0 ≤ y * width d) by (apply Z.mul_nonneg_nonneg; lia).
  lia.
Qed.

Lemma cell_inj d x y x' y' :
  0 ≤ x < width d → 0 ≤ x' < width d →
  y * width d + x = y' * width d + x' → x = x' ∧ y = y'.
Proof.
  intros Hx Hx' E.
  destruct (Z.lt_trichotomy y y') as [Hlt|[->|Hlt]]; [|lia|].
  - assert ((y + 1) * width d ≤ y' * width d)
      by (apply Z.mul_le_mono_nonneg_r; lia). lia.
  - assert ((y' + 1) * width d ≤ y * width d)
      by (apply Z.mul_le_mono_nonneg_r; lia). lia.
Qed.

Lemma memset0_whole buf n :
  Z.of_nat (length buf) = n → memset0 buf n = Ok (replicate (Z.to_nat n) 0).
Proof.
  intros <-. unfold memset0.
  destruct (Z.leb_spec 0 (Z.of_nat (length buf))); [|lia].
  rewrite Z.leb_refl, Nat2Z.id, drop_all, app_nil_r. done.
Qed.

(** The full reset (lines 180-188). *)
Lemma bufferCleanup_full init d :
  0 < width d → 0 < height d → len d = width d * height d →
  Z.of_nat (length (buffer d)) = len d →
  negb (SSegment.valid init) || negb (track d) || negb (lastTrackOK d) = true →
  ∃ buf, bufferCleanup init d = Ok (set_buffer buf d) ∧ isReset d buf.
Proof.
  intros Hw Hh Hlen Hbuf Hfull. unfold bufferCleanup. rewrite Hfull.
  rewrite (memset0_whole _ _ Hbuf). cbn [mbind outcome_bind].
  set (rows := λ (j : Z) (buf : list Z),
         Z.of_nat (length buf) = len d
         ∧ ∀ x y, 0 ≤ x < width d → 0 ≤ y < height d →
             buf !! cell d x y
             = Some (if ((y =? 0) || (y =? height d - 1)) && (x <? j)
                     then -1000 else 0)).
  edestruct (for_range_total rows 0 (width d)) as (buf1 & -> & [Hl1 Hrows]).
  { intros j t Hj [Hl Ht].
    pose proof (cell_lt d j 0 ltac:(lia) ltac:(lia)).
    pose proof (cell_lt d j (height d - 1) ltac:(lia) ltac:(lia)).
    rewrite (wr_total _ t j) by lia. cbn [mbind outcome_bind].
    rewrite wr_total by (rewrite length_insert; lia).
    eexists; split; [done|]. split; [by rewrite !length_insert|].
    intros x y Hx Hy. specialize (Ht x y Hx Hy). unfold cell in *.
    pose proof (cell_lt d x y Hx Hy).
    destruct (decide (y * width d + x = (height d - 1) * width d + j)) as [E|E].
    - rewrite E, list_lookup_insert_eq by (rewrite length_insert; lia).
      apply cell_inj in E as [-> ->]; [|lia..].
      rewrite Z.eqb_refl, orb_true_r. by destruct (Z.ltb_spec j (j + 1)); [|lia].
    - rewrite list_lookup_insert_ne by lia.
      destruct (decide (y * width d + x = j)) as [E'|E'].
      + rewrite E', list_lookup_insert_eq by lia.
        assert (x = j ∧ y = 0) as [-> ->] by (apply (cell_inj d); lia).
        rewrite Z.eqb_refl. simpl. by destruct (Z.ltb_spec j (j + 1)); [|lia].
      + rewrite list_lookup_insert_ne by lia. rewrite Ht.
        destruct (Z.eqb_spec y 0), (Z.eqb_spec y (height d - 1)),
          (Z.ltb_spec x j), (Z.ltb_spec x (j + 1)); simpl; try done;
          try lia; assert (x = j) by lia; subst; lia. }
  { split; [rewrite length_replicate; lia|]. intros x y Hx Hy.
    rewrite lookup_replicate_2 by (unfold cell; pose proof (cell_lt d x y Hx Hy); lia).
    destruct (Z.ltb_spec x 0); [lia|]. by rewrite andb_false_r. }
  cbn [mbind outcome_bind].
  set (cols := λ (j : Z) (buf : list Z),
         Z.of_nat (length buf) = len d
         ∧ ∀ x y, 0 ≤ x < width d → 0 ≤ y < height d →
             buf !! cell d x y
             = Some (if (y =? 0) || (y =? height d - 1)
                        || ((x =? 0) || (x =? width d - 1)) && (y <? j)
                     then -1000 else 0)).
  edestruct (for_range_total cols 0 (height d)) as (buf2 & -> & [Hl2 Hcols]).
  { intros j t Hj [Hl Ht].
    pose proof (cell_lt d 0 j ltac:(lia) ltac:(lia)).
    pose proof (cell_lt d (width d - 1) j ltac:(lia) ltac:(lia)).
    rewrite (wr_total _ t (width d * j)) by lia. cbn [mbind outcome_bind].
    rewrite wr_total by (rewrite length_insert; lia).
    eexists; split; [done|]. split; [by rewrite !length_insert|].
    intros x y Hx Hy. specialize (Ht x y Hx Hy). unfold cell in *.
    pose proof (cell_lt d x y Hx Hy).
    destruct (decide (y * width d + x = width d * j + width d - 1)) as [E|E].
    - rewrite E, list_lookup_insert_eq by (rewrite length_insert; lia).
      assert (x = width d - 1 ∧ y = j) as [-> ->] by (apply (cell_inj d); lia).
      rewrite (Z.eqb_refl (width d - 1)), orb_true_r.
      destruct (Z.ltb_spec j (j + 1)); [|lia]. by rewrite orb_true_r.
    - rewrite list_lookup_insert_ne by lia.
      destruct (decide (y * width d + x = width d * j)) as [E'|E'].
      + rewrite E', list_lookup_insert_eq by lia.
        assert (x = 0 ∧ y = j) as [-> ->] by (apply (cell_inj d); lia).
        destruct (Z.ltb_spec j (j + 1)); [|lia]. simpl. by rewrite orb_true_r.
      + rewrite list_lookup_insert_ne by lia. rewrite Ht.
        destruct (Z.eqb_spec y 0), (Z.eqb_spec y (height d - 1)),
          (Z.eqb_spec x 0), (Z.eqb_spec x (width d - 1)),
          (Z.ltb_spec y j), (Z.ltb_spec y (j + 1)); simpl; try done;
          try lia; assert (y = j) by lia; subst; lia. }
  { split; [done|]. intros x y Hx Hy. rewrite (Hrows x y Hx Hy).
    rewrite Z.max_r by lia.
    destruct (Z.ltb_spec x (width d)); [|lia]. rewrite andb_true_r.
    destruct (Z.ltb_spec y 0); [lia|]. by rewrite andb_false_r, orb_false_r. }
  cbn [mbind outcome_bind]. eexists; split; [done|]. split; [done|].
  intros x y Hx Hy. rewrite (Hcols x y Hx Hy). rewrite Z.max_r by lia.
  unfold onBorder. destruct (Z.ltb_spec y (height d)); [|lia].
  rewrite andb_true_r.
  by destruct (y =? 0), (y =? height d - 1), (x =? 0), (x =? width d - 1).
Qed.

(** The reset around the last detection (lines 190-199). *)
Lemma bufferCleanup_margin init d :
  0 < width d → 0 < height d → len d = width d * height d →
  Z.of_nat (length (buffer d)) = len d →
  negb (SSegment.valid init) || negb (track d) || negb (lastTrackOK d) = false →
  ∃ buf, bufferCleanup init d = Ok (set_buffer buf d)
    ∧ Z.of_nat (length buf) = len d
    ∧ ∀ x y, 0 ≤ x < width d → 0 ≤ y < height d →
        buf !! cell d x y
        = if inMargin d init x y then Some 0 else buffer d !! cell d x y.
Proof.
  intros Hw Hh Hlen Hbuf Hpart. unfold bufferCleanup. rewrite Hpart.
  set (ix := Z.max (SSegment.minx init - 2) 1).
  set (ax := Z.min (SSegment.maxx init + 2) (width d - 2)).
  set (iy := Z.max (SSegment.miny init - 2) 1).
  set (ay := Z.min (SSegment.maxy init + 2) (height d - 2)).
  set (rows := λ (j : Z) (buf : list Z),
         Z.of_nat (length buf) = len d
         ∧ ∀ x y, 0 ≤ x < width d → 0 ≤ y < height d →
             buf !! cell d x y
             = if decide (iy ≤ y < j ∧ ix ≤ x < ax) then Some 0
               else buffer d !! cell d x y).
  edestruct (for_range_total rows iy ay) as (buf1 & -> & [Hl1 Hrows]).
  { intros j t Hj [Hl Ht].
    set (cols := λ (k : Z) (buf : list Z),
           Z.of_nat (length buf) = len d
           ∧ ∀ x y, 0 ≤ x < width d → 0 ≤ y < height d →
               buf !! cell d x y
               = if decide ((iy ≤ y < j ∧ ix ≤ x < ax) ∨ (y = j ∧ ix ≤ x < k))
                 then Some 0 else buffer d !! cell d x y).
    edestruct (for_range_total cols ix ax) as (buf2 & -> & [Hl2 Hcols]).
    - intros k u Hk [Hlu Hu].
      pose proof (cell_lt d k j ltac:(lia) ltac:(lia)).
      rewrite wr_total by lia. eexists; split; [done|].
      split; [by rewrite length_insert|].
      intros x y Hx Hy. specialize (Hu x y Hx Hy). unfold cell in *.
      destruct (decide (y * width d + x = j * width d + k)) as [E|E].
      + rewrite E, list_lookup_insert_eq by lia.
        apply cell_inj in E as [-> ->]; [|lia..].
        rewrite decide_True by lia. done.
      + rewrite list_lookup_insert_ne by lia. rewrite Hu.
        repeat case_decide; try done; lia.
    - split; [done|]. intros x y Hx Hy. rewrite (Ht x y Hx Hy).
      repeat case_decide; try done; lia.
    - eexists; split; [done|]. split; [done|].
      intros x y Hx Hy. rewrite (Hcols x y Hx Hy).
      repeat case_decide; try done; lia. }
  { split; [done|]. intros x y Hx Hy. rewrite decide_False by lia. done. }
  cbn [mbind outcome_bind]. eexists; split; [done|]. split; [done|].
  intros x y Hx Hy. rewrite (Hrows x y Hx Hy). unfold inMargin.
  fold ix ax iy ay.
  destruct (Z.leb_spec ix x), (Z.ltb_spec x ax), (Z.leb_spec iy y),
    (Z.ltb_spec y ay); simpl; case_decide; try done; lia.
Qed.

(** C8. [bufferCleanup] follows the reset policy. When the segment passed
    to it is invalid, or tracking is disabled, or the last track failed,
    every cell of the one-pixel border holds -1000 afterwards and every
    other cell holds 0. Otherwise the cells with
    [max (minx - 2) 1 <= x < min (maxx + 2) (width - 2)] and
    [max (miny - 2) 1 <= y < min (maxy + 2) (height - 2)] hold 0 and every
    other cell keeps its label. No other member changes. *)
Theorem bufferCleanup_policy init d :
  0 < width d → 0 < height d → len d = width d * height d →
  Z.of_nat (length (buffer d)) = len d →
  ∃ buf, bufferCleanup init d = Ok (set_buffer buf d)
    ∧ Z.of_nat (length buf) = len d
    ∧ ∀ x y, 0 ≤ x < width d → 0 ≤ y < height d →
        buf !! cell d x y
        = if negb (SSegment.valid init) || negb (track d) || negb (lastTrackOK d)
          then Some (if onBorder d x y then -1000 else 0)
          else if inMargin d init x y then Some 0
          else buffer d !! cell d x y.
Proof.
  intros Hw Hh Hlen Hbuf.
  destruct (negb (SSegment.valid init) || negb (track d) || negb (lastTrackOK d))
    eqn:Hc.
  - destruct (bufferCleanup_full init d) as (buf & Hb & Hl & Hr); try done.
    by exists buf.
  - destruct (bufferCleanup_margin init d) as (buf & Hb & Hl & Hr); try done.
    by exists buf.
Qed.

(** ** The diagnostic flags *)

(** Field access and field update on an explicit record, and the monad
    operations on an explicit outcome, reduce; nothing else is unfolded. *)
Ltac record_cbn :=
  cbn [width height len minSize maxFailed track debug draw
       centerDistanceToleranceRatio centerDistanceToleranceAbs
       circularTolerance ratioTolerance circularityTolerance diameterRatio
       outerAreaRatio innerAreaRatio areasRatio threshold lastThreshold
       numFailed lastTrackOK drawAll numSegments queueStart queueEnd
       queueOldStart segmentArray buffer queue
       set_maxFailed set_track set_debug set_draw set_threshold
       set_lastThreshold set_numFailed set_lastTrackOK set_drawAll
       set_numSegments set_queueStart set_queueEnd set_queueOldStart
       set_segmentArray set_buffer set_queue withFlags withDiag
       mbind outcome_bind fmap outcome_fmap fst snd prod_map] in *.

(** [withDiag] changes no member but [debug], [draw] and [drawAll], and it
    commutes with the update of any other member. *)
Lemma diag_width a b c d : width (withDiag a b c d) = width d.
Proof. by destruct d. Qed.
Lemma diag_height a b c d : height (withDiag a b c d) = height d.
Proof. by destruct d. Qed.
Lemma diag_len a b c d : len (withDiag a b c d) = len d.
Proof. by destruct d. Qed.
Lemma diag_minSize a b c d : minSize (withDiag a b c d) = minSize d.
Proof. by destruct d. Qed.
Lemma diag_maxFailed a b c d : maxFailed (withDiag a b c d) = maxFailed d.
Proof. by destruct d. Qed.
Lemma diag_track a b c d : track (withDiag a b c d) = track d.
Proof. by destruct d. Qed.
Lemma diag_centerDistanceToleranceRatio a b c d : centerDistanceToleranceRatio (withDiag a b c d) = centerDistanceToleranceRatio d.
Proof. by destruct d. Qed.
Lemma diag_centerDistanceToleranceAbs a b c d : centerDistanceToleranceAbs (withDiag a b c d) = centerDistanceToleranceAbs d.
Proof. by destruct d. Qed.
Lemma diag_circularTolerance a b c d : circularTolerance (withDiag a b c d) = circularTolerance d.
Proof. by destruct d. Qed.
Lemma diag_ratioTolerance a b c d : ratioTolerance (withDiag a b c d) = ratioTolerance d.
Proof. by destruct d. Qed.
Lemma diag_circularityTolerance a b c d : circularityTolerance (withDiag a b c d) = circularityTolerance d.
Proof. by destruct d. Qed.
Lemma diag_diameterRatio a b c d : diameterRatio (withDiag a b c d) = diameterRatio d.
Proof. by destruct d. Qed.
Lemma diag_outerAreaRatio a b c d : outerAreaRatio (withDiag a b c d) = outerAreaRatio d.
Proof. by destruct d. Qed.
Lemma diag_innerAreaRatio a b c d : innerAreaRatio (withDiag a b c d) = innerAreaRatio d.
Proof. by destruct d. Qed.
Lemma diag_areasRatio a b c d : areasRatio (withDiag a b c d) = areasRatio d.
Proof. by destruct d. Qed.
Lemma diag_threshold a b c d : threshold (withDiag a b c d) = threshold d.
Proof. by destruct d. Qed.
Lemma diag_lastThreshold a b c d : lastThreshold (withDiag a b c d) = lastThreshold d.
Proof. by destruct d. Qed.
Lemma diag_numFailed a b c d : numFailed (withDiag a b c d) = numFailed d.
Proof. by destruct d. Qed.
Lemma diag_lastTrackOK a b c d : lastTrackOK (withDiag a b c d) = lastTrackOK d.
Proof. by destruct d. Qed.
Lemma diag_numSegments a b c d : numSegments (withDiag a b c d) = numSegments d.
Proof. by destruct d. Qed.
Lemma diag_queueStart a b c d : queueStart (withDiag a b c d) = queueStart d.
Proof. by destruct d. Qed.
Lemma diag_queueEnd a b c d : queueEnd (withDiag a b c d) = queueEnd d.
Proof. by destruct d. Qed.
Lemma diag_queueOldStart a b c d : queueOldStart (withDiag a b c d) = queueOldStart d.
Proof. by destruct d. Qed.
Lemma diag_segmentArray a b c d : segmentArray (withDiag a b c d) = segmentArray d.
Proof. by destruct d. Qed.
Lemma diag_buffer a b c d : buffer (withDiag a b c d) = buffer d.
Proof. by destruct d. Qed.
Lemma diag_queue a b c d : queue (withDiag a b c d) = queue d.
Proof. by destruct d. Qed.
Lemma diag_set_maxFailed a b c v d :
  set_maxFailed v (withDiag a b c d) = withDiag a b c (set_maxFailed v d).
Proof. by destruct d. Qed.
Lemma diag_set_track a b c v d :
  set_track v (withDiag a b c d) = withDiag a b c (set_track v d).
Proof. by destruct d. Qed.
Lemma diag_set_threshold a b c v d :
  set_threshold v (withDiag a b c d) = withDiag a b c (set_threshold v d).
Proof. by destruct d. Qed.
Lemma diag_set_lastThreshold a b c v d :
  set_lastThreshold v (withDiag a b c d) = withDiag a b c (set_lastThreshold v d).
Proof. by destruct d. Qed.
Lemma diag_set_numFailed a b c v d :
  set_numFailed v (withDiag a b c d) = withDiag a b c (set_numFailed v d).
Proof. by destruct d. Qed.
Lemma diag_set_lastTrackOK a b c v d :
  set_lastTrackOK v (withDiag a b c d) = withDiag a b c (set_lastTrackOK v d).
Proof. by destruct d. Qed.
Lemma diag_set_numSegments a b c v d :
  set_numSegments v (withDiag a b c d) = withDiag a b c (set_numSegments v d).
Proof. by destruct d. Qed.
Lemma diag_set_queueStart a b c v d :
  set_queueStart v (withDiag a b c d) = withDiag a b c (set_queueStart v d).
Proof. by destruct d. Qed.
Lemma diag_set_queueEnd a b c v d :
  set_queueEnd v (withDiag a b c d) = withDiag a b c (set_queueEnd v d).
Proof. by destruct d. Qed.
Lemma diag_set_queueOldStart a b c v d :
  set_queueOldStart v (withDiag a b c d) = withDiag a b c (set_queueOldStart v d).
Proof. by destruct d. Qed.
Lemma diag_set_segmentArray a b c v d :
  set_segmentArray v (withDiag a b c d) = withDiag a b c (set_segmentArray v d).
Proof. by destruct d. Qed.
Lemma diag_set_buffer a b c v d :
  set_buffer v (withDiag a b c d) = withDiag a b c (set_buffer v d).
Proof. by destruct d. Qed.
Lemma diag_set_queue a b c v d :
  set_queue v (withDiag a b c d) = withDiag a b c (set_queue v d).
Proof. by destruct d. Qed.
Create Rewrite HintDb diag.
#[local] Hint Rewrite
  diag_width diag_height diag_len diag_minSize diag_maxFailed diag_track
  diag_centerDistanceToleranceRatio diag_centerDistanceToleranceAbs
  diag_circularTolerance diag_ratioTolerance diag_circularityTolerance
  diag_diameterRatio diag_outerAreaRatio diag_innerAreaRatio
  diag_areasRatio diag_threshold diag_lastThreshold diag_numFailed
  diag_lastTrackOK diag_numSegments diag_queueStart diag_queueEnd
  diag_queueOldStart diag_segmentArray diag_buffer diag_queue
  diag_set_maxFailed diag_set_track diag_set_threshold
  diag_set_lastThreshold diag_set_numFailed diag_set_lastTrackOK
  diag_set_numSegments diag_set_queueStart diag_set_queueEnd
  diag_set_queueOldStart diag_set_segmentArray diag_set_buffer
  diag_set_queue : diag.

(** One step of a proof that a method commutes with [withDiag]: decide
    the next computation, which is the same on both sides. *)
Ltac diag_step :=
  autorewrite with diag;
  match goal with
  | |- context [mbind _ ?m] =>
      lazymatch m with
      | context [withDiag] => fail
      | _ => destruct m eqn:?
      end
  | |- context [if ?c then _ else _] =>
      lazymatch c with
      | context [withDiag] => fail
      | _ => destruct c eqn:?
      end
  | |- context [let '(_, _) := ?p in _] => is_var p; destruct p
  end;
  cbn [mbind outcome_bind fmap outcome_fmap fst snd prod_map id].

Ltac diag :=
  cbn [mbind outcome_bind fmap outcome_fmap fst snd prod_map id];
  repeat diag_step; autorewrite with diag; try done.

Lemma classify_diag a b c image pos d :
  classify image pos (withDiag a b c d)
  = withDiag a b c <$> classify image pos d.
Proof. unfold classify. diag. Qed.

Lemma probe_diag a b c image type sd position d bb :
  probe image type sd position (withDiag a b c d, bb)
  = prod_map (withDiag a b c) id <$> probe image type sd position (d, bb).
Proof.
  unfold probe.
  replace (neighbour (withDiag a b c d) sd position)
    with (neighbour d sd position) by by destruct d.
  rewrite classify_diag. destruct (classify _ _ d) as [d1|]; [|done].
  diag.
Qed.

Lemma floodFill_diag a b c fuel image type d bb :
  floodFill fuel image type (withDiag a b c d, bb)
  = prod_map (withDiag a b c) id <$> floodFill fuel image type (d, bb).
Proof.
  revert d bb. induction fuel as [|fuel IH]; intros d bb; cbn [floodFill fst].
  - diag.
  - autorewrite with diag.
    destruct (queueStart d <? queueEnd d); [|done].
    destruct (rd OobQueue (queue d) (queueStart d)) as [position|]; [|done].
    cbn [mbind outcome_bind]. autorewrite with diag.
    rewrite probe_diag. destruct (probe _ _ East _ _) as [[d1 bb1]|]; [|done].
    cbn [mbind outcome_bind fmap outcome_fmap prod_map fst snd id].
    rewrite probe_diag. destruct (probe _ _ West _ _) as [[d2 bb2]|]; [|done].
    cbn [mbind outcome_bind fmap outcome_fmap prod_map fst snd id].
    rewrite probe_diag. destruct (probe _ _ North _ _) as [[d3 bb3]|]; [|done].
    cbn [mbind outcome_bind fmap outcome_fmap prod_map fst snd id].
    rewrite probe_diag. destruct (probe _ _ South _ _) as [[d4 bb4]|]; [|done].
    cbn [mbind outcome_bind fmap outcome_fmap prod_map fst snd id]. apply IH.
Qed.

Lemma describeSegment_diag a b c image type areaRatio bb d segmen :
  describeSegment image type areaRatio bb (withDiag a b c d) segmen
  = describeSegment image type areaRatio bb d segmen.
Proof.
  unfold describeSegment, looksRound. by autorewrite with diag.
Qed.

Lemma examineSegment_diag a b c image si ii areaRatio d :
  examineSegment image si ii areaRatio (withDiag a b c d)
  = prod_map id (withDiag a b c) <$> examineSegment image si ii areaRatio d.
Proof.
  unfold examineSegment.
  rewrite diag_queueStart, diag_set_queueOldStart.
  generalize (set_queueOldStart (queueStart d) d). clear d. intros d.
  cbv zeta.
  rewrite diag_buffer.
  destruct (rd OobBuffer _ ii) as [type|]; [|done]. cbn [mbind outcome_bind].
  rewrite diag_segmentArray.
  destruct (rd OobSegment _ si) as [segmen|]; [|done]. cbn [mbind outcome_bind].
  rewrite diag_numSegments, diag_set_numSegments.
  generalize (set_numSegments (numSegments d + 1) d). clear d. intros d.
  rewrite diag_buffer, diag_numSegments.
  destruct (wr OobBuffer _ ii _) as [buf|]; [|done]. cbn [mbind outcome_bind].
  rewrite diag_set_buffer.
  generalize (set_buffer buf d). clear d. intros d.
  rewrite diag_queue, diag_queueEnd.
  destruct (wr OobQueue _ _ ii) as [q|]; [|done]. cbn [mbind outcome_bind].
  rewrite diag_set_queue, diag_set_queueEnd, !diag_width.
  replace (seedSegment (withDiag a b c d) ii segmen) with (seedSegment d ii segmen)
    by (unfold seedSegment; by rewrite !diag_width).
  generalize (seedSegment d ii segmen). intros seg0.
  generalize (ii `rem` width d) (ii `quot` width d). intros x0 y0.
  generalize (set_queueEnd (queueEnd d + 1) (set_queue q d)). clear d. intros d.
  rewrite diag_queue, floodFill_diag.
  destruct (floodFill _ _ _ _) as [[d4 bb]|]; [|done].
  cbn [mbind outcome_bind fmap outcome_fmap prod_map fst snd id].
  rewrite describeSegment_diag.
  destruct (describeSegment _ _ _ _ _ _) as [[result segmen']|]; [|done].
  cbn [mbind outcome_bind]. rewrite diag_segmentArray.
  destruct (wr OobSegment _ _ _) as [segs|]; [|done].
  cbn [mbind outcome_bind fmap outcome_fmap prod_map fst snd id].
  by rewrite diag_set_segmentArray.
Qed.

Lemma circular_diag a b c d i : circular (withDiag a b c d) i = circular d i.
Proof. unfold circular. by rewrite diag_queueEnd, diag_circularityTolerance. Qed.

Lemma acceptInner_diag a b c d sx sy f0 f1 o i :
  acceptInner (withDiag a b c d) sx sy f0 f1 o i = acceptInner d sx sy f0 f1 o i.
Proof. unfold acceptInner, leakage. by rewrite diag_diameterRatio. Qed.

Lemma shapeFit_diag a b c image start ii d :
  shapeFit image start ii (withDiag a b c d)
  = prod_map (withDiag a b c) id <$> shapeFit image start ii d.
Proof.
  unfold shapeFit.
  rewrite !diag_segmentArray, !diag_numSegments, !diag_queueOldStart,
    !diag_queueEnd, !diag_queue, !diag_track.
  destruct (rd OobSegment _ (_ - 2)) as [o|]; [|done]. cbn [mbind outcome_bind].
  destruct (rd OobSegment _ (_ - 1)) as [i|]; [|done]. cbn [mbind outcome_bind].
  destruct (for_range _ _ _ _) as [s|]; [|done]. cbn [mbind outcome_bind].
  destruct (for_range _ _ _ _) as [s'|]; [|done]. cbn [mbind outcome_bind].
  destruct (for_range _ _ _ _) as [cm|]; [|done].
  cbn beta iota delta [mbind outcome_bind]. cbv zeta.
  rewrite circular_diag.
  match goal with |- context [rawFit ?x1 ?x2 ?x3 ?x4 ?x5 ?x6] =>
    generalize (rawFit x1 x2 x3 x4 x5 x6) end.
  intros i'. destruct (circular d i').
  - rewrite diag_set_threshold, acceptInner_diag, !diag_segmentArray,
      !diag_numSegments.
    destruct (wr OobSegment _ (_ - 2) _) as [segs|]; [|done].
    cbn [mbind outcome_bind].
    destruct (wr OobSegment _ (_ - 1) _) as [segs'|]; [|done].
    cbn [mbind outcome_bind fmap outcome_fmap prod_map id fst snd].
    by rewrite diag_set_segmentArray.
  - destruct (wr OobSegment _ (_ - 2) _) as [segs|]; [|done].
    cbn [mbind outcome_bind].
    destruct (wr OobSegment _ (_ - 1) _) as [segs'|]; [|done].
    cbn [mbind outcome_bind fmap outcome_fmap prod_map id fst snd].
    by rewrite diag_set_segmentArray.
Qed.

Lemma pairOK_diag a b c d o i : pairOK (withDiag a b c d) o i = pairOK d o i.
Proof.
  unfold pairOK, ratioOK, concentricOK.
  by rewrite diag_areasRatio, diag_ratioTolerance, diag_centerDistanceToleranceAbs,
    diag_centerDistanceToleranceRatio.
Qed.

Lemma seekInner_diag a b c image d :
  seekInner MAX_SEGMENTS image (withDiag a b c d)
  = prod_map (withDiag a b c) id <$> seekInner MAX_SEGMENTS image d.
Proof.
  unfold seekInner. rewrite diag_segmentArray, diag_numSegments.
  destruct (rd OobSegment _ _) as [o|]; [|done]. cbn [mbind outcome_bind].
  rewrite classify_diag.
  destruct (classify _ _ d) as [d1|]; [|done].
  cbn [mbind outcome_bind fmap outcome_fmap].
  rewrite diag_buffer, !diag_numSegments, diag_innerAreaRatio.
  destruct (rd OobBuffer _ _) as [v|]; [|done]. cbn [mbind outcome_bind].
  destruct (_ && _); [|done].
  rewrite examineSegment_diag.
  destruct (examineSegment _ _ _ _ d1) as [[found d2]|]; [|done].
  cbn [mbind outcome_bind fmap outcome_fmap prod_map id fst snd].
  destruct found; [|done].
  rewrite diag_segmentArray, diag_numSegments.
  destruct (rd OobSegment _ (_ - 2)) as [o'|]; [|done]. cbn [mbind outcome_bind].
  destruct (rd OobSegment _ (_ - 1)) as [i'|]; [|done]. cbn [mbind outcome_bind].
  by rewrite pairOK_diag.
Qed.

Lemma seekPair_diag a b c image ii d :
  seekPair MAX_SEGMENTS image ii (withDiag a b c d)
  = prod_map (withDiag a b c) id <$> seekPair MAX_SEGMENTS image ii d.
Proof.
  unfold seekPair. rewrite !diag_buffer, !diag_threshold.
  destruct (rd OobBuffer _ _) as [v|]; [|done]. cbn [mbind outcome_bind].
  assert ((if v =? 0
           then s ← pixelSum image ii;
                if s <? threshold d
                then buf ← wr OobBuffer (buffer d) ii (-2);
                     Ok (set_buffer buf (withDiag a b c d))
                else Ok (withDiag a b c d)
           else Ok (withDiag a b c d))
          = withDiag a b c <$>
              (if v =? 0
               then s ← pixelSum image ii;
                    if s <? threshold d
                    then buf ← wr OobBuffer (buffer d) ii (-2);
                         Ok (set_buffer buf d)
                    else Ok d
               else Ok d)) as ->.
  { destruct (v =? 0); [|done]. destruct (pixelSum _ _); [|done].
    cbn [mbind outcome_bind]. destruct (_ <? _); [|done].
    destruct (wr _ _ _ _); [|done]. cbn [mbind outcome_bind fmap outcome_fmap].
    by rewrite diag_set_buffer. }
  match goal with |- context [fmap _ ?m] => destruct m as [d1|]; [|done] end.
  cbn [mbind outcome_bind fmap outcome_fmap].
  rewrite diag_buffer, diag_numSegments.
  destruct (rd OobBuffer _ _) as [v'|]; [|done]. cbn [mbind outcome_bind].
  destruct (_ && _); [|done]. cbv zeta.
  rewrite diag_set_queueEnd, diag_set_queueStart, diag_numSegments,
    diag_outerAreaRatio.
  rewrite examineSegment_diag.
  destruct (examineSegment _ _ _ _ _) as [[found d2]|]; [|done].
  cbn [mbind outcome_bind fmap outcome_fmap prod_map id fst snd].
  destruct found; [|done]. apply seekInner_diag.
Qed.

Lemma scanStep_diag a b c image start ii d :
  scanStep MAX_SEGMENTS image start ii (withDiag a b c d)
  = prod_map (withDiag a b c) id <$> scanStep MAX_SEGMENTS image start ii d.
Proof.
  unfold scanStep. rewrite seekPair_diag.
  destruct (seekPair _ _ _ d) as [[d1 fit]|]; [|done].
  cbn [mbind outcome_bind fmap outcome_fmap prod_map id fst snd].
  destruct fit; [|done]. apply shapeFit_diag.
Qed.

Lemma scanLoop_diag a b c fuel image start ii d :
  scanLoop MAX_SEGMENTS fuel image start ii (withDiag a b c d)
  = withDiag a b c <$> scanLoop MAX_SEGMENTS fuel image start ii d.
Proof.
  revert ii d. induction fuel as [|fuel IH]; intros ii d; cbn [scanLoop]; [done|].
  rewrite scanStep_diag.
  destruct (scanStep _ _ _ _ d) as [[d1 ii1]|]; [|done].
  cbn [mbind outcome_bind fmap outcome_fmap prod_map id fst snd].
  unfold nextIndex. rewrite diag_len. destruct (_ =? start); [done|]. apply IH.
Qed.

Lemma for_loop_ext {St} n i (body body' : Z → St → outcome St) s :
  (∀ j t, body j t = body' j t) → for_loop n i body s = for_loop n i body' s.
Proof.
  intros Hb. revert i s. induction n as [|n IH]; intros i s; simpl; [done|].
  rewrite Hb. destruct (body' i s); [apply IH | done].
Qed.

(** The choice of the result reads [debug] and comes out the same for
    either value: an invalid segment never replaces the result. *)
Lemma selectStep_diag a b c d i result :
  selectStep (withDiag a b c d) i result = selectStep (withDiag false b c d) i result.
Proof.
  unfold selectStep. autorewrite with diag.
  destruct (rd OobSegment _ _) as [s|]; [|done]. cbn [mbind outcome_bind].
  replace (debug (withDiag a b c d)) with a by by destruct d.
  replace (debug (withDiag false b c d)) with false by by destruct d.
  by destruct (minSize d <? SSegment.size s), (SSegment.valid s), a.
Qed.

Lemma select_diag a b c d result :
  for_range 0 (numSegments (withDiag a b c d)) (selectStep (withDiag a b c d)) result
  = for_range 0 (numSegments d) (selectStep (withDiag false false false d)) result.
Proof.
  autorewrite with diag. apply for_loop_ext. intros j t.
  rewrite selectStep_diag. unfold selectStep. by autorewrite with diag.
Qed.

Lemma changeThreshold_diag a b c d :
  changeThreshold (withDiag a b c d)
  = prod_map id (withDiag a b c) (changeThreshold d).
Proof. unfold changeThreshold. by autorewrite with diag. Qed.

(** The controller writes [drawAll] and reads [debug] only to do so. *)
Lemma trackingUpdate_diag a b c result d :
  ∃ c', trackingUpdate result (withDiag a b c d)
        = withDiag a b c' <$> trackingUpdate result (withDiag false false false d).
Proof.
  exists (if SSegment.valid result then false else if a then true else c).
  unfold trackingUpdate. rewrite !diag_numSegments, !diag_segmentArray.
  match goal with |- context [mbind _ ?m] => destruct m as [ok|]; [|done] end.
  cbn [mbind outcome_bind]. rewrite !diag_set_lastTrackOK.
  generalize (set_lastTrackOK ok d). clear d. intros d. cbv zeta.
  autorewrite with diag.
  destruct (SSegment.valid result).
  { cbn [fmap outcome_fmap]. by destruct d. }
  destruct (numFailed d <? maxFailed d).
  { cbn [fmap outcome_fmap].
    destruct (_ `rem` 2 =? 0).
    - rewrite !changeThreshold_diag.
      destruct (changeThreshold _) as [more dc]. cbn [prod_map snd].
      destruct dc, a; done.
    - destruct d, a; done. }
  rewrite !changeThreshold_diag.
  destruct (changeThreshold _) as [more dc]. cbn [prod_map fst snd id].
  destruct more, dc, a; done.
Qed.

Lemma bufferCleanup_diag a b c init d :
  bufferCleanup init (withDiag a b c d)
  = withDiag a b c <$> bufferCleanup init d.
Proof.
  unfold bufferCleanup. autorewrite with diag.
  destruct (_ || _).
  - destruct (memset0 _ _); [|done]. cbn [mbind outcome_bind].
    destruct (for_range _ _ _ _); [|done]. cbn [mbind outcome_bind].
    destruct (for_range _ _ _ _); [|done]. cbn [mbind outcome_bind].
    cbn [fmap outcome_fmap]. by autorewrite with diag.
  - destruct (for_range _ _ _ _); [|done]. cbn [mbind outcome_bind].
    cbn [fmap outcome_fmap]. by autorewrite with diag.
Qed.

(** The phases of a frame that ended with [Ok]. *)
Lemma findSegment_phases image init d result d' image' :
  findSegment MAX_SEGMENTS image init d = Ok (result, d', image') →
  ∃ ds dt,
    scanLoop MAX_SEGMENTS (S (Z.to_nat (len d))) image
      (scanStart image init d) (scanStart image init d)
      (set_numSegments 0 d) = Ok ds
    ∧ for_range 0 (numSegments ds) (selectStep ds) noSegment = Ok result
    ∧ trackingUpdate result ds = Ok dt
    ∧ bufferCleanup result dt = Ok d'.
Proof.
  intros Hf. unfold findSegment in Hf.
  apply bind_Ok in Hf as (ds & Hscan & Hf).
  apply bind_Ok in Hf as (r & Hsel & Hf).
  apply bind_Ok in Hf as (dt & Hupd & Hf).
  apply bind_Ok in Hf as (dat & _ & Hf).
  apply bind_Ok in Hf as (dat' & _ & Hf).
  apply bind_Ok in Hf as (d3 & Hclean & Hf).
  injection Hf as -> -> _.
  exists ds, dt. repeat split; try done.
Qed.

Lemma fmap_Ok {A B} (g : A → B) (m : outcome A) r :
  g <$> m = Ok r → ∃ a, m = Ok a ∧ r = g a.
Proof. destruct m; [|discriminate]. intros [= <-]. eauto. Qed.

Lemma scanStart_diag a b c image init d :
  scanStart image init (withDiag a b c d) = scanStart image init d.
Proof. unfold scanStart. by rewrite diag_track. Qed.

(** A frame processed with any flags, against the same frame processed
    with both flags off. *)
Lemma findSegment_diag a b c image init d result d' image' :
  findSegment MAX_SEGMENTS image init (withDiag a b c d)
    = Ok (result, d', image') →
  ∃ ds dt dc c',
    scanLoop MAX_SEGMENTS (S (Z.to_nat (len d))) image
      (scanStart image init d) (scanStart image init d)
      (set_numSegments 0 d) = Ok ds
    ∧ for_range 0 (numSegments ds) (selectStep (withDiag false false false ds))
        noSegment = Ok result
    ∧ trackingUpdate result (withDiag false false false ds) = Ok dt
    ∧ bufferCleanup result dt = Ok dc
    ∧ d' = withDiag a b c' dc.
Proof.
  intros Hf. apply findSegment_phases in Hf as (ds & dt & Hscan & Hsel & Hupd & Hclean).
  rewrite scanStart_diag, diag_len, diag_set_numSegments in Hscan.
  rewrite scanLoop_diag in Hscan.
  apply fmap_Ok in Hscan as (ds0 & Hscan & ->).
  rewrite select_diag in Hsel.
  destruct (trackingUpdate_diag a b c result ds0) as [c' Hc']. rewrite Hc' in Hupd.
  apply fmap_Ok in Hupd as (dt0 & Hupd & ->).
  rewrite bufferCleanup_diag in Hclean.
  apply fmap_Ok in Hclean as (dc0 & Hclean & ->).
  by exists ds0, dt0, dc0, c'.
Qed.

Lemma withFlags_diag a b d : withFlags a b d = withDiag a b (drawAll d) d.
Proof. by destruct d. Qed.

(** C9. Two runs of [findSegment] on the same frame from detector
    states that differ only in [debug] and [draw] return the same
    result and leave the same threshold and failure counter; indeed
    they leave every member the same apart from [debug], [draw] and
    [drawAll]. *)
Theorem diagnostic_flags_inert image init d a b a' b'
    result1 d1 image1 result2 d2 image2 :
  findSegment MAX_SEGMENTS image init (withFlags a b d)
    = Ok (result1, d1, image1) →
  findSegment MAX_SEGMENTS image init (withFlags a' b' d)
    = Ok (result2, d2, image2) →
  result1 = result2
  ∧ threshold d1 = threshold d2
  ∧ numFailed d1 = numFailed d2
  ∧ withDiag false false false d1 = withDiag false false false d2.
Proof.
  rewrite !withFlags_diag. intros H1 H2.
  apply findSegment_diag in H1 as (ds & dt & dc & c1 & Hs & Hr & Ht & Hc & ->).
  apply findSegment_diag in H2 as (ds' & dt' & dc' & c2 & Hs' & Hr' & Ht' & Hc' & ->).
  rewrite Hs in Hs'. injection Hs' as <-.
  rewrite Hr in Hr'. injection Hr' as <-.
  rewrite Ht in Ht'. injection Ht' as <-.
  rewrite Hc in Hc'. injection Hc' as <-.
  autorewrite with diag. repeat split; by destruct dc.
Qed.

(** ** What a flood fill leaves alone *)

Lemma beyondFill_queueStart v d : beyondFill (set_queueStart v d) = beyondFill d.
Proof. by destruct d. Qed.
Lemma beyondFill_queueEnd v d : beyondFill (set_queueEnd v d) = beyondFill d.
Proof. by destruct d. Qed.
Lemma beyondFill_buffer v d : beyondFill (set_buffer v d) = beyondFill d.
Proof. by destruct d. Qed.
Lemma beyondFill_queue v d : beyondFill (set_queue v d) = beyondFill d.
Proof. by destruct d. Qed.

Create Rewrite HintDb beyondFill.
#[local] Hint Rewrite beyondFill_queueStart beyondFill_queueEnd
  beyondFill_buffer beyondFill_queue : beyondFill.

Lemma beyondFill_fields d d' :
  beyondFill d' = beyondFill d →
  settings d' = settings d ∧ threshold d' = threshold d
  ∧ numSegments d' = numSegments d ∧ queueOldStart d' = queueOldStart d
  ∧ segmentArray d' = segmentArray d.
Proof. destruct d, d'. intros [= ]. by subst. Qed.

Lemma classify_beyondFill image pos d d' :
  classify image pos d = Ok d' → beyondFill d' = beyondFill d.
Proof. unfold classify. intros Hc. inv_ok Hc; by autorewrite with beyondFill. Qed.

Lemma set_buffer_same d : set_buffer (buffer d) d = d.
Proof. by destruct d. Qed.

Lemma classify_buffer image pos d d' :
  classify image pos d = Ok d' →
  ∃ buf, d' = set_buffer buf d ∧ length buf = length (buffer d).
Proof.
  unfold classify. intros Hc. inv_ok Hc.
  - eexists; split; [done|]. by eapply length_wr.
  - exists (buffer d'). by rewrite set_buffer_same.
Qed.

Lemma classify_queue image pos d d' :
  classify image pos d = Ok d' →
  queue d' = queue d ∧ queueStart d' = queueStart d ∧ queueEnd d' = queueEnd d.
Proof. intros (buf & -> & _)%classify_buffer. by destruct d. Qed.

Lemma probe_beyondFill image type sd position (st st' : Detector F * bbox) :
  probe image type sd position st = Ok st' →
  beyondFill (fst st') = beyondFill (fst st).
Proof.
  unfold probe. destruct st as [d bb]. intros Hp. inv_ok Hp; cbn [fst];
    autorewrite with beyondFill; eauto using classify_beyondFill.
Qed.

Lemma probe_queueEnd image type sd position (st st' : Detector F * bbox) :
  probe image type sd position st = Ok st' →
  queueStart (fst st') = queueStart (fst st)
  ∧ queueEnd (fst st) ≤ queueEnd (fst st').
Proof.
  unfold probe. destruct st as [d bb]. intros Hp. inv_ok Hp; cbn [fst];
    match goal with E : classify _ _ _ = Ok _ |- _ =>
      apply classify_queue in E as (? & ? & ?) end.
  - replace (queueStart (set_buffer a2 (set_queueEnd (queueEnd a + 1)
               (set_queue a1 a)))) with (queueStart a) by by destruct a.
    replace (queueEnd (set_buffer a2 (set_queueEnd (queueEnd a + 1)
               (set_queue a1 a)))) with (queueEnd a + 1) by by destruct a.
    lia.
  - lia.
Qed.

Lemma floodFill_beyondFill fuel image type (st st' : Detector F * bbox) :
  floodFill fuel image type st = Ok st' →
  beyondFill (fst st') = beyondFill (fst st).
Proof.
  revert st. induction fuel as [|fuel IH]; intros st Hf; cbn [floodFill] in Hf.
  - inv_ok Hf. done.
  - destruct (queueStart (fst st) <? queueEnd (fst st)); [|by inv_ok Hf].
    destruct st as [d bb]. inv_ok Hf.
    apply IH in Hf. rewrite Hf.
    repeat match goal with
           | E : probe _ _ _ _ _ = Ok _ |- _ =>
               apply probe_beyondFill in E; rewrite E; clear E
           end.
    cbn [fst]. by autorewrite with beyondFill.
Qed.

(** The queue indices across a flood fill: the window only grows, and
    the fill ends when the read index has caught up with the write
    index. *)
Lemma floodFill_queueEnd fuel image type (st st' : Detector F * bbox) :
  floodFill fuel image type st = Ok st' →
  queueStart (fst st) ≤ queueEnd (fst st) →
  queueEnd (fst st) ≤ queueEnd (fst st')
  ∧ queueStart (fst st') = queueEnd (fst st').
Proof.
  revert st. induction fuel as [|fuel IH]; intros st Hf Hle; cbn [floodFill] in Hf.
  - destruct (Z.ltb_spec (queueStart (fst st)) (queueEnd (fst st)));
      inv_ok Hf. lia.
  - destruct (Z.ltb_spec (queueStart (fst st)) (queueEnd (fst st)));
      [|inv_ok Hf; lia].
    destruct st as [d bb]. cbn [fst] in *. inv_ok Hf.
    repeat match goal with
           | E : probe _ _ _ _ _ = Ok _ |- _ =>
               apply probe_queueEnd in E as [? ?]
           end.
    cbn [fst] in *.
    replace (queueStart (set_queueStart (queueStart d + 1) d))
      with (queueStart d + 1) in * by by destruct d.
    replace (queueEnd (set_queueStart (queueStart d + 1) d))
      with (queueEnd d) in * by by destruct d.
    apply IH in Hf as [? ?]; [|lia]. lia.
Qed.

(** ** What the methods do to the segment array *)

Lemma segment_lookup d j s :
  segment d j = Some s ↔ 0 ≤ j ∧ segmentArray d !! Z.to_nat j = Some s.
Proof.
  unfold segment. destruct (Z.leb_spec 0 j); [tauto|]. split; [done|lia].
Qed.

Lemma rd_segment d j s :
  rd OobSegment (segmentArray d) j = Ok s ↔ segment d j = Some s.
Proof.
  unfold rd, segment. destruct (0 <=? j); [|done].
  destruct (segmentArray d !! Z.to_nat j); split; congruence.
Qed.

Lemma seedSegment_fields d ii s :
  SSegment.valid (seedSegment d ii s) = false
  ∧ SSegment.mean (seedSegment d ii s) = SSegment.mean s.
Proof. by destruct s. Qed.

Lemma boundSegment_fields type bb areaRatio s :
  SSegment.valid (boundSegment type bb areaRatio s) = SSegment.valid s
  ∧ SSegment.size (boundSegment type bb areaRatio s) = SSegment.size s.
Proof. by destruct s. Qed.

Lemma describeSegment_spec image type areaRatio bb d s found s' :
  describeSegment image type areaRatio bb d s = Ok (found, s') →
  SSegment.valid s' = SSegment.valid s
  ∧ SSegment.size s' = queueEnd d - queueOldStart d
  ∧ (found = true → minSize d < SSegment.size s' ∧ SSegment.round s' = true).
Proof.
  unfold describeSegment. cbv zeta.
  destruct (boundSegment_fields type bb areaRatio
              (SSegment.set_size (queueEnd d - queueOldStart d) s)) as [Hv Hs].
  generalize dependent (boundSegment type bb areaRatio
    (SSegment.set_size (queueEnd d - queueOldStart d) s)).
  intros s1 Hv Hs.
  replace (SSegment.size (SSegment.set_size (queueEnd d - queueOldStart d) s))
    with (queueEnd d - queueOldStart d) in * by by destruct s.
  replace (SSegment.valid (SSegment.set_size (queueEnd d - queueOldStart d) s))
    with (SSegment.valid s) in * by by destruct s.
  intros Hd. destruct (Z.ltb_spec (minSize d) (queueEnd d - queueOldStart d)).
  - destruct (looksRound d s1).
    + apply bind_Ok in Hd as (m & _ & Hd). injection Hd as <- <-.
      split; [rewrite <- Hv; by destruct s1|].
      split; [rewrite <- Hs; by destruct s1|]. intros _.
      split; [|by destruct s1].
      match goal with |- _ < SSegment.size ?t =>
        replace (SSegment.size t) with (SSegment.size s1) by by destruct s1 end.
      lia.
    + injection Hd as <- <-. by repeat split.
  - injection Hd as <- <-. repeat split; by destruct s.
Qed.

(** A flood fill started by [examineSegment] adds one segment, which is
    not valid, at [si], and changes no other segment and not the
    threshold. *)
Lemma examineSegment_spec image si ii areaRatio d found d' :
  examineSegment image si ii areaRatio d = Ok (found, d') →
  ∃ s, is_Some (segment d si)
    ∧ segmentArray d' = <[Z.to_nat si := s]> (segmentArray d)
    ∧ SSegment.valid s = false
    ∧ SSegment.size s = queueEnd d' - queueStart d
    ∧ (found = true → minSize d < SSegment.size s ∧ SSegment.round s = true)
    ∧ numSegments d' = numSegments d + 1
    ∧ threshold d' = threshold d
    ∧ settings d' = settings d
    ∧ queueOldStart d' = queueStart d
    ∧ (queueStart d ≤ queueEnd d →
       queueEnd d + 1 ≤ queueEnd d' ∧ queueStart d' = queueEnd d').
Proof.
  unfold examineSegment. intros He.
  apply bind_Ok in He as (type & _ & He).
  apply bind_Ok in He as (s0 & Hs0 & He).
  apply bind_Ok in He as (buf & _ & He).
  apply bind_Ok in He as (q & _ & He).
  cbv zeta in He.
  match type of He with context [seedSegment ?x _ _] =>
    pose proof (seedSegment_fields x ii s0) as [Hv1 _]; revert Hv1 He;
    generalize (seedSegment x ii s0) end.
  intros s1 Hv1 He.
  match type of He with context [floodFill ?fuel _ _ (?x, ?bb)] =>
    remember x as d1 eqn:Hd1; remember bb as bb0; remember fuel as fl end.
  apply bind_Ok in He as ([d2 bb] & Hfill & He).
  apply bind_Ok in He as ([result s2] & Hdesc & He).
  apply bind_Ok in He as (segs & Hsegs & He).
  injection He as -> <-.
  pose proof (floodFill_beyondFill _ _ _ _ _ Hfill) as Hb. cbn [fst] in Hb.
  apply beyondFill_fields in Hb as (Hset & Hthr & Hnum & Hold & Hseg).
  apply describeSegment_spec in Hdesc as (Hv2 & Hsz & Hfound).
  apply wr_Ok in Hsegs as [Hsi ->].
  assert (Hf1 : settings d1 = settings d ∧ threshold d1 = threshold d
                ∧ numSegments d1 = numSegments d + 1
                ∧ queueOldStart d1 = queueStart d
                ∧ segmentArray d1 = segmentArray d
                ∧ queueStart d1 = queueStart d
                ∧ queueEnd d1 = queueEnd d + 1
                ∧ minSize d1 = minSize d)
    by (subst d1; by destruct d).
  destruct Hf1 as (Hs1 & Ht1 & Hn1 & Ho1 & Hg1 & Hqs1 & Hqe1 & Hm1).
  assert (minSize d2 = minSize d1) as Hm2
    by (apply settings_fields in Hset; tauto).
  exists s2. rewrite Hseg, Hg1.
  replace (segmentArray (set_segmentArray (<[Z.to_nat si:=s2]> (segmentArray d)) d2))
    with (<[Z.to_nat si:=s2]> (segmentArray d)) by by destruct d2.
  replace (numSegments (set_segmentArray (<[Z.to_nat si:=s2]> (segmentArray d)) d2))
    with (numSegments d2) by by destruct d2.
  replace (threshold (set_segmentArray (<[Z.to_nat si:=s2]> (segmentArray d)) d2))
    with (threshold d2) by by destruct d2.
  replace (queueOldStart (set_segmentArray (<[Z.to_nat si:=s2]> (segmentArray d)) d2))
    with (queueOldStart d2) by by destruct d2.
  replace (queueStart (set_segmentArray (<[Z.to_nat si:=s2]> (segmentArray d)) d2))
    with (queueStart d2) by by destruct d2.
  replace (queueEnd (set_segmentArray (<[Z.to_nat si:=s2]> (segmentArray d)) d2))
    with (queueEnd d2) by by destruct d2.
  rewrite settings_segmentArray.
  split; [apply rd_segment in Hs0; eauto|].
  split; [done|]. split; [congruence|].
  split; [rewrite Hsz; congruence|].
  split; [intros Hf; rewrite <- Hm1, <- Hm2; by apply Hfound|].
  split; [congruence|]. split; [congruence|]. split; [congruence|].
  split; [congruence|].
  intros Hle. apply floodFill_queueEnd in Hfill; cbn [fst] in *; lia.
Qed.

Lemma rawFit_fields fm0 fm1 f0 f1 (o i : SSegment.t F) :
  SSegment.valid (rawFit fm0 fm1 f0 f1 o i) = SSegment.valid i
  ∧ SSegment.mean (rawFit fm0 fm1 f0 f1 o i) = SSegment.mean i
  ∧ SSegment.size (rawFit fm0 fm1 f0 f1 o i) = SSegment.size i
  ∧ SSegment.m0 (rawFit fm0 fm1 f0 f1 o i) = fsqrt f0
  ∧ SSegment.m1 (rawFit fm0 fm1 f0 f1 o i) = fsqrt f1.
Proof. by destruct i. Qed.

Lemma acceptInner_fields d sx sy f0 f1 o i :
  let i' := acceptInner d sx sy f0 f1 o i in
  SSegment.valid i' = true
  ∧ SSegment.mean i' = SSegment.mean i
  ∧ SSegment.size i' = SSegment.size o + SSegment.size i
  ∧ SSegment.x i' = sx ∧ SSegment.y i' = sy
  ∧ SSegment.m0 i'
    = (fsqrt f0 + leakage d f0 f1 (SSegment.size o) (SSegment.size i))%fl
  ∧ SSegment.m1 i'
    = (fsqrt f1 + leakage d f0 f1 (SSegment.size o) (SSegment.size i))%fl.
Proof. by destruct i. Qed.

Lemma acceptOuter_fields sx sy (o : SSegment.t F) :
  SSegment.valid (acceptOuter sx sy o) = true
  ∧ SSegment.mean (acceptOuter sx sy o) = SSegment.mean o.
Proof. by destruct o. Qed.

Lemma leakage_threshold v d f0 f1 so si :
  leakage (set_threshold v d) f0 f1 so si = leakage d f0 f1 so si.
Proof. by destruct d. Qed.

(** The shape fit rewrites the last two segments and nothing else but
    the threshold. When the pair passes the circularity test both
    segments become valid, the threshold becomes the mean of their mean
    brightnesses, and the inner segment takes the centroid of
    [queue[0 .. queueEnd)] as its centre and the corrected semi-axes;
    otherwise validity and threshold stay as they were. *)
Lemma shapeFit_spec image start ii d d' ii' :
  shapeFit image start ii d = Ok (d', ii') →
  ∃ o i o' i',
    segment d (numSegments d - 2) = Some o
    ∧ segment d (numSegments d - 1) = Some i
    ∧ segmentArray d'
      = <[Z.to_nat (numSegments d - 1) := i']>
          (<[Z.to_nat (numSegments d - 2) := o']> (segmentArray d))
    ∧ numSegments d' = numSegments d
    ∧ settings d' = settings d
    ∧ ii' = (if track d then start - 1 else ii)
    ∧ ((SSegment.valid o' = true ∧ SSegment.valid i' = true
        ∧ threshold d' = (SSegment.mean o + SSegment.mean i) `quot` 2
        ∧ SSegment.mean o' = SSegment.mean o
        ∧ SSegment.mean i' = SSegment.mean i
        ∧ SSegment.size i' = SSegment.size o + SSegment.size i
        ∧ unionCentroid image d = Ok (SSegment.x i', SSegment.y i')
        ∧ ∃ f0 f1, unionEigen image d = Ok (f0, f1)
            ∧ SSegment.m0 i'
              = (fsqrt f0 + leakage d f0 f1 (SSegment.size o) (SSegment.size i))%fl
            ∧ SSegment.m1 i'
              = (fsqrt f1 + leakage d f0 f1 (SSegment.size o) (SSegment.size i))%fl)
       ∨ (SSegment.valid o' = SSegment.valid o
          ∧ SSegment.valid i' = SSegment.valid i
          ∧ threshold d' = threshold d)).
Proof.
  unfold shapeFit. intros Hs.
  apply bind_Ok in Hs as (o & Ho & Hs).
  apply bind_Ok in Hs as (i & Hi & Hs).
  apply bind_Ok in Hs as (s1 & Hs1 & Hs).
  apply bind_Ok in Hs as (s2 & Hs2 & Hs).
  apply bind_Ok in Hs as (cm & Hcm & Hs).
  cbv zeta in Hs.
  set (sx := (fst s2 / fofZ (queueEnd d))%fl) in *.
  set (sy := (snd s2 / fofZ (queueEnd d))%fl) in *.
  set (fm0 := (fst (fst cm) / fofZ (queueEnd d))%fl) in *.
  set (fm1 := (snd (fst cm) / fofZ (queueEnd d))%fl) in *.
  set (fm2 := (snd cm / fofZ (queueEnd d))%fl) in *.
  set (f0 := fst (eigen fm0 fm1 fm2)) in *.
  set (f1 := snd (eigen fm0 fm1 fm2)) in *.
  set (o1 := SSegment.set_y _ (SSegment.set_x _ o)) in *.
  assert (Ho1 : SSegment.valid o1 = SSegment.valid o
                ∧ SSegment.mean o1 = SSegment.mean o
                ∧ SSegment.size o1 = SSegment.size o) by by destruct o.
  destruct Ho1 as (Hov & Hom & Hos).
  destruct (rawFit_fields fm0 fm1 f0 f1 o1 i) as (Hiv & Him & His & _ & _).
  set (i1 := rawFit fm0 fm1 f0 f1 o1 i) in *.
  assert (Hcen : unionCentroid image d = Ok (sx, sy)).
  { unfold unionCentroid. rewrite Hs1. cbn [mbind outcome_bind]. by rewrite Hs2. }
  assert (Heig : unionEigen image d = Ok (f0, f1)).
  { unfold unionEigen. rewrite Hcen. cbn [mbind outcome_bind fst snd].
    fold sx sy. rewrite Hcm. cbn [mbind outcome_bind].
    fold fm0 fm1 fm2. by destruct (eigen fm0 fm1 fm2). }
  apply rd_segment in Ho, Hi.
  destruct (circular d i1).
  - apply bind_Ok in Hs as (segs & Hw1 & Hs).
    apply bind_Ok in Hs as (segs' & Hw2 & Hs).
    injection Hs as <- <-.
    apply wr_Ok in Hw1 as [_ ->]. apply wr_Ok in Hw2 as [_ ->].
    destruct (acceptInner_fields
                (set_threshold ((SSegment.mean o1 + SSegment.mean i1) `quot` 2) d)
                sx sy f0 f1 o1 i1) as (Hav & Ham & Has & Hax & Hay & Ham0 & Ham1).
    destruct (acceptOuter_fields sx sy o1) as (Hbv & Hbm).
    eexists o, i, _, _. split; [done|]. split; [done|].
    split; [by destruct d|]. split; [by destruct d|].
    split; [by autorewrite with settings|]. split; [done|].
    left. split; [done|]. split; [done|].
    split; [destruct d; simpl; congruence|].
    split; [congruence|]. split; [congruence|]. split; [congruence|].
    split; [by rewrite Hax, Hay|].
    exists f0, f1. split; [done|].
    rewrite Ham0, Ham1, leakage_threshold, Hos, His. done.
  - apply bind_Ok in Hs as (segs & Hw1 & Hs).
    apply bind_Ok in Hs as (segs' & Hw2 & Hs).
    injection Hs as <- <-.
    apply wr_Ok in Hw1 as [_ ->]. apply wr_Ok in Hw2 as [_ ->].
    eexists o, i, _, _. split; [done|]. split; [done|].
    split; [by destruct d|]. split; [by destruct d|].
    split; [by autorewrite with settings|]. split; [done|].
    right. split; [done|]. split; [done|]. by destruct d.
Qed.

(** ** The segment array during a scan *)

Lemma segment_insert_eq d d' j s :
  segmentArray d' = <[Z.to_nat j := s]> (segmentArray d) →
  is_Some (segment d j) → segment d' j = Some s.
Proof.
  intros Hd [s0 [Hj Hs0]%segment_lookup]. apply segment_lookup. split; [done|].
  rewrite Hd. apply list_lookup_insert_eq. by eapply lookup_lt_Some.
Qed.

Lemma segment_insert_ne d d' j j' s :
  segmentArray d' = <[Z.to_nat j := s]> (segmentArray d) →
  0 ≤ j → j' ≠ j → segment d' j' = segment d j'.
Proof.
  intros Hd Hj Hne. unfold segment. destruct (Z.leb_spec 0 j'); [|done].
  rewrite Hd. apply list_lookup_insert_ne. lia.
Qed.

Lemma segment_is_Some_nonneg d j : is_Some (segment d j) → 0 ≤ j.
Proof. intros [s [Hj _]%segment_lookup]. done. Qed.

Lemma classify_segments image pos d d' :
  classify image pos d = Ok d' →
  settings d' = settings d ∧ threshold d' = threshold d
  ∧ numSegments d' = numSegments d ∧ segmentArray d' = segmentArray d
  ∧ queueStart d' = queueStart d ∧ queueEnd d' = queueEnd d.
Proof.
  intros Hc. pose proof (classify_queue _ _ _ _ Hc) as (_ & ? & ?).
  apply classify_beyondFill, beyondFill_fields in Hc as (? & ? & ? & _ & ?).
  done.
Qed.

(** The inner search adds at most one segment, which is not valid. *)
Lemma seekInner_spec image d d' fit :
  seekInner MAX_SEGMENTS image d = Ok (d', fit) →
  0 ≤ numSegments d → queueStart d ≤ queueEnd d →
  threshold d' = threshold d ∧ settings d' = settings d
  ∧ numSegments d ≤ numSegments d' ≤ numSegments d + 1
  ∧ (∀ j, j < numSegments d → segment d' j = segment d j)
  ∧ (∀ j s, numSegments d ≤ j < numSegments d' → segment d' j = Some s →
       SSegment.valid s = false)
  ∧ (fit = true →
     numSegments d' = numSegments d + 1
     ∧ ∃ i, segment d' (numSegments d) = Some i
         ∧ minSize d < SSegment.size i ∧ 1 ≤ SSegment.size i).
Proof.
  unfold seekInner. intros Hs Hn Hq.
  apply bind_Ok in Hs as (o & _ & Hs). cbv zeta in Hs.
  apply bind_Ok in Hs as (d1 & Hc & Hs).
  apply classify_segments in Hc as (Hset1 & Hthr1 & Hnum1 & Hseg1 & Hqs1 & Hqe1).
  apply bind_Ok in Hs as (v & _ & Hs).
  destruct (_ && _).
  2:{ injection Hs as <- <-. rewrite Hnum1.
      split; [done|]. split; [done|]. split; [lia|].
      split; [intros j _; unfold segment; by rewrite Hseg1|].
      split; [intros j s ?; lia|done]. }
  apply bind_Ok in Hs as ([found d2] & He & Hs).
  apply examineSegment_spec in He
    as (s & Hsome & Hseg2 & Hval & Hsz & Hfound & Hnum2 & Hthr2 & Hset2 & _ & Hqueue).
  rewrite Hnum1 in *. rewrite Hseg1 in Hseg2.
  assert (Hd' : d' = d2 ∧ (fit = true → found = true)).
  { destruct found.
    - apply bind_Ok in Hs as (o' & _ & Hs). apply bind_Ok in Hs as (i' & _ & Hs).
      by injection Hs as <- <-.
    - by injection Hs as <- <-. }
  destruct Hd' as [-> Hfit].
  assert (is_Some (segment d (numSegments d))) as Hsome'.
  { destruct Hsome as [s0 Hs0]. exists s0. revert Hs0. unfold segment.
    by rewrite Hseg1. }
  split; [congruence|]. split; [congruence|]. split; [lia|].
  split; [intros j Hj; eapply segment_insert_ne; [done|lia..]|].
  split.
  { intros j s' Hj Hs'. assert (j = numSegments d) as -> by lia.
    rewrite (segment_insert_eq d d2 _ s) in Hs' by done. congruence. }
  intros ->%Hfit. split; [done|]. exists s.
  split; [by apply (segment_insert_eq d)|].
  apply settings_fields in Hset1 as (_ & _ & _ & Hmin & _).
  split; [rewrite <- Hmin; by apply Hfound|]. lia.
Qed.

(** The search adds at most two segments, none of them valid; when it
    reaches the fit it has added exactly two, both large enough. *)
Lemma seekPair_spec image ii d d' fit :
  seekPair MAX_SEGMENTS image ii d = Ok (d', fit) →
  0 ≤ numSegments d →
  threshold d' = threshold d ∧ settings d' = settings d
  ∧ numSegments d ≤ numSegments d' ≤ numSegments d + 2
  ∧ (∀ j, j < numSegments d → segment d' j = segment d j)
  ∧ (∀ j s, numSegments d ≤ j < numSegments d' → segment d' j = Some s →
       SSegment.valid s = false)
  ∧ (fit = true →
     numSegments d' = numSegments d + 2
     ∧ ∃ o i, segment d' (numSegments d) = Some o
         ∧ segment d' (numSegments d + 1) = Some i
         ∧ 1 ≤ SSegment.size o ∧ minSize d < SSegment.size i
         ∧ 1 ≤ SSegment.size i).
Proof.
  unfold seekPair. intros Hs Hn.
  apply bind_Ok in Hs as (v & _ & Hs).
  apply bind_Ok in Hs as (d1 & Hpre & Hs).
  assert (∃ buf, d1 = set_buffer buf d) as [buf ->].
  { inv_ok Hpre; eauto. all: exists (buffer d1); by rewrite set_buffer_same. }
  clear Hpre.
  apply bind_Ok in Hs as (v' & _ & Hs).
  destruct (_ && _).
  2:{ injection Hs as <- <-.
      replace (numSegments (set_buffer buf d)) with (numSegments d) by by destruct d.
      split; [by destruct d|]. split; [by autorewrite with settings|].
      split; [lia|]. split; [intros j _; by destruct d|].
      split; [intros j s ?; lia|done]. }
  cbv zeta in Hs.
  apply bind_Ok in Hs as ([found d2] & He & Hs).
  apply examineSegment_spec in He
    as (s & Hsome & Hseg2 & Hval & Hsz & Hfound & Hnum2 & Hthr2 & Hset2 & _ & Hqueue).
  set (d0 := set_queueStart 0 (set_queueEnd 0 (set_buffer buf d))) in *.
  assert (Hd0 : numSegments d0 = numSegments d ∧ segmentArray d0 = segmentArray d
                ∧ threshold d0 = threshold d ∧ settings d0 = settings d
                ∧ queueStart d0 = 0 ∧ queueEnd d0 = 0)
    by (subst d0; by destruct d).
  destruct Hd0 as (Hn0 & Hs0 & Ht0 & Hg0 & Hqs0 & Hqe0).
  rewrite Hn0, Hs0 in *. rewrite Hqs0, Hqe0 in *.
  assert (is_Some (segment d (numSegments d))) as Hsome'.
  { destruct Hsome as [s0 Hs0']. exists s0. revert Hs0'. unfold segment.
    by rewrite Hs0. }
  assert (segment d2 (numSegments d) = Some s) as Hs2
    by by apply (segment_insert_eq d).
  assert (∀ j, j < numSegments d → segment d2 j = segment d j) as Hold
    by (intros j Hj; eapply segment_insert_ne; [done|lia..]).
  destruct found.
  2:{ injection Hs as <- <-.
      split; [congruence|]. split; [congruence|]. split; [lia|].
      split; [done|]. split; [|done].
      intros j s' Hj Hs'. assert (j = numSegments d) as -> by lia. congruence. }
  apply seekInner_spec in Hs
    as (Hthr3 & Hset3 & Hnum3 & Hold3 & Hnew3 & Hfit3); [|lia..].
  rewrite Hnum2 in *.
  split; [congruence|]. split; [congruence|]. split; [lia|].
  split; [intros j Hj; rewrite Hold3 by lia; by apply Hold|].
  split.
  { intros j s' Hj Hs'.
    destruct (decide (j = numSegments d)) as [->|Hne].
    - rewrite Hold3 in Hs' by lia. congruence.
    - eapply Hnew3; [|done]. lia. }
  intros Hfit. destruct (Hfit3 Hfit) as (Hnum4 & i & Hi & Hmin & Hone).
  split; [lia|]. exists s, i.
  split; [rewrite Hold3 by lia; done|]. split; [done|].
  split; [lia|]. split; [|done].
  apply settings_fields in Hset2 as (_ & _ & _ & Hm2 & _).
  apply settings_fields in Hg0 as (_ & _ & _ & Hm0 & _).
  congruence.
Qed.

(** A state whose new segments are not valid has the last pair of the
    state it came from. *)
Lemma lastPair_old d d' k :
  threshold d' = threshold d → settings d' = settings d →
  numSegments d ≤ numSegments d' →
  (∀ j, j < numSegments d → segment d' j = segment d j) →
  (∀ j s, numSegments d ≤ j < numSegments d' → segment d' j = Some s →
     SSegment.valid s = false) →
  lastPair d' k →
  lastPair d k ∧ segment d' (k + 1) = segment d (k + 1).
Proof.
  intros Hthr Hset Hnum Hold Hnew (Hk & Hk' & o & i & Ho & Hi & Hvo & Hvi & Hsz & Ht & Hlater).
  apply settings_fields in Hset as (_ & _ & _ & Hmin & _).
  assert (k + 1 < numSegments d) as Hlt.
  { destruct (Z_lt_dec (k + 1) (numSegments d)); [done|].
    assert (SSegment.valid i = false); [|congruence].
    eapply Hnew; [|done]. lia. }
  split; [|apply Hold; lia].
  split; [done|]. split; [done|]. exists o, i.
  rewrite <- !Hold by lia. rewrite <- Hmin, <- Hthr.
  repeat split; try done.
  intros j s Hj Hs. apply (Hlater j s); [lia|]. by rewrite Hold by lia.
Qed.

Lemma calibrated_old d d' :
  threshold d' = threshold d → settings d' = settings d →
  numSegments d ≤ numSegments d' →
  (∀ j, j < numSegments d → segment d' j = segment d j) →
  (∀ j s, numSegments d ≤ j < numSegments d' → segment d' j = Some s →
     SSegment.valid s = false) →
  calibrated d → calibrated d'.
Proof.
  intros Hthr Hset Hnum Hold Hnew [Hn [Hnone|[k Hpair]]].
  - split; [lia|]. left. intros j s Hj Hs.
    destruct (Z_lt_dec j (numSegments d)).
    + apply (Hnone j s); [lia|]. by rewrite <- Hold by lia.
    + apply (Hnew j s); [lia|done].
  - split; [lia|]. right. exists k.
    destruct Hpair as (Hk & Hk' & o & i & Ho & Hi & Hvo & Hvi & Hsz & Ht & Hlater).
    apply settings_fields in Hset as (_ & _ & _ & Hmin & _).
    split; [done|]. split; [lia|]. exists o, i.
    rewrite !Hold by lia. rewrite Hmin, Hthr. repeat split; try done.
    intros j s Hj Hs. destruct (Z_lt_dec j (numSegments d)).
    + apply (Hlater j s); [lia|]. by rewrite <- Hold by lia.
    + apply (Hnew j s); [lia|done].
Qed.

Lemma scanInv_old image start d0 d d' :
  threshold d' = threshold d → settings d' = settings d →
  numSegments d ≤ numSegments d' →
  (∀ j, j < numSegments d → segment d' j = segment d j) →
  (∀ j s, numSegments d ≤ j < numSegments d' → segment d' j = Some s →
     SSegment.valid s = false) →
  scanInv MAX_SEGMENTS image start d0 d → scanInv MAX_SEGMENTS image start d0 d'.
Proof.
  intros Hthr Hset Hnum Hold Hnew [Hcal Hfit]. split.
  - by eapply calibrated_old.
  - intros k i Hpair Hi.
    destruct (lastPair_old d d' k) as [Hpair' Heq]; try done.
    eapply Hfit; [done|]. by rewrite <- Heq.
Qed.

(** The two segments that a shape fit rewrites, in the array it leaves. *)
Lemma shapeFit_segments d d' o i o' i' :
  segment d (numSegments d - 2) = Some o →
  segment d (numSegments d - 1) = Some i →
  segmentArray d'
  = <[Z.to_nat (numSegments d - 1) := i']>
      (<[Z.to_nat (numSegments d - 2) := o']> (segmentArray d)) →
  segment d' (numSegments d - 2) = Some o'
  ∧ segment d' (numSegments d - 1) = Some i'
  ∧ ∀ j, j < numSegments d - 2 → segment d' j = segment d j.
Proof.
  intros [Ho1 Ho2]%segment_lookup [Hi1 Hi2]%segment_lookup Hd.
  apply lookup_lt_Some in Ho2 as Hlo. apply lookup_lt_Some in Hi2 as Hli.
  unfold segment. rewrite Hd.
  destruct (Z.leb_spec 0 (numSegments d - 2)); [|lia].
  destruct (Z.leb_spec 0 (numSegments d - 1)); [|lia].
  split; [|split].
  - rewrite list_lookup_insert_ne by lia. by apply list_lookup_insert_eq.
  - apply list_lookup_insert_eq. by rewrite length_insert.
  - intros j Hj. destruct (Z.leb_spec 0 j); [|done].
    by rewrite !list_lookup_insert_ne by lia.
Qed.

(** One step of the scan keeps the invariant. *)
Lemma scanStep_scanInv image start d0 ii d d' ii' :
  visits MAX_SEGMENTS image start d0 ii d →
  scanInv MAX_SEGMENTS image start d0 d →
  scanStep MAX_SEGMENTS image start ii d = Ok (d', ii') →
  scanInv MAX_SEGMENTS image start d0 d'.
Proof.
  intros Hvis Hinv Hstep. unfold scanStep in Hstep.
  apply bind_Ok in Hstep as ([d1 fit] & Hseek & Hstep).
  destruct Hinv as [[Hn Hcal] Hfit].
  pose proof (seekPair_spec _ _ _ _ _ Hseek Hn)
    as (Hthr & Hset & Hnum & Hold & Hnew & Hfound).
  assert (scanInv MAX_SEGMENTS image start d0 d1) as Hinv1
    by (eapply scanInv_old; [done..|lia|done|done|by split]).
  destruct fit; [|by injection Hstep as <- <-].
  destruct (Hfound eq_refl) as (Hn1 & o & i & Ho & Hi & Hso & Hmi & Hsi).
  pose proof (shapeFit_spec _ _ _ _ _ _ Hstep)
    as (o_ & i_ & o' & i' & Ho_ & Hi_ & Hsegs & Hn2 & Hset2 & _ & Hcase).
  replace (numSegments d1 - 2) with (numSegments d) in * by lia.
  replace (numSegments d1 - 1) with (numSegments d + 1) in * by lia.
  rewrite Ho in Ho_. injection Ho_ as <-. rewrite Hi in Hi_. injection Hi_ as <-.
  destruct (shapeFit_segments d1 d' o i o' i') as (Ho' & Hi' & Hold');
    [by replace (numSegments d1 - 2) with (numSegments d) by lia
    |by replace (numSegments d1 - 1) with (numSegments d + 1) by lia
    |by replace (numSegments d1 - 2) with (numSegments d) by lia;
     replace (numSegments d1 - 1) with (numSegments d + 1) by lia|].
  replace (numSegments d1 - 2) with (numSegments d) in * by lia.
  replace (numSegments d1 - 1) with (numSegments d + 1) in * by lia.
  assert (SSegment.valid o = false) as Hvo by (eapply Hnew; [|done]; lia).
  assert (SSegment.valid i = false) as Hvi by (eapply Hnew; [|done]; lia).
  destruct Hcase
    as [(Hvo' & Hvi' & Hthr' & Hmo & Hmi' & Hsz' & Hcen & f0 & f1 & Heig & Hm0 & Hm1)
       |(Hvo' & Hvi' & Hthr')].
  - (* the pair is accepted: it is the last pair *)
    assert (lastPair d' (numSegments d)) as Hpair.
    { split; [done|]. split; [lia|]. exists o', i'.
      repeat split; try done.
      - apply settings_fields in Hset as (_ & _ & _ & Hm1' & _).
        apply settings_fields in Hset2 as (_ & _ & _ & Hm2' & _). lia.
      - congruence.
      - intros j s Hj. lia. }
    split; [split; [lia|right; by eexists]|].
    intros k i2 Hpair2 Hi2.
    assert (k = numSegments d) as ->.
    { destruct Hpair as (_ & _ & _ & _ & _ & _ & _ & _ & _ & _ & Hlater).
      destruct Hpair2 as (_ & Hk2 & o2 & i2' & _ & Hi2' & _ & Hvi2 & _ & _ & Hlater2).
      destruct (Z.lt_trichotomy k (numSegments d)) as [Hlt|[->|Hgt]]; [|done|lia].
      assert (SSegment.valid i' = false); [|congruence].
      eapply Hlater2; [|done]. lia. }
    rewrite Hi' in Hi2. injection Hi2 as <-.
    exists ii, d, d1. split; [done|]. split; [done|].
    split; [done|]. exists o, i, f0, f1.
    replace (numSegments d1 - 2) with (numSegments d) by lia.
    replace (numSegments d1 - 1) with (numSegments d + 1) by lia. done.
  - (* the pair is rejected: both segments stay invalid *)
    eapply (scanInv_old image start d0 d d'); [congruence|congruence|lia| | |by split].
    + intros j Hj. rewrite Hold' by lia. by apply Hold.
    + intros j s Hj Hs.
      destruct (decide (j = numSegments d)) as [->|Hne]; [congruence|].
      assert (j = numSegments d + 1) as -> by lia. congruence.
Qed.

Lemma scanLoop_scanInv fuel image start d0 ii d d' :
  visits MAX_SEGMENTS image start d0 ii d →
  scanInv MAX_SEGMENTS image start d0 d →
  scanLoop MAX_SEGMENTS fuel image start ii d = Ok d' →
  scanInv MAX_SEGMENTS image start d0 d'.
Proof.
  revert ii d. induction fuel as [|fuel IH]; intros ii d Hvis Hinv Hloop;
    cbn [scanLoop] in Hloop; [done|].
  apply bind_Ok in Hloop as ([d1 ii1] & Hstep & Hloop). cbv zeta in Hloop.
  pose proof (scanStep_scanInv _ _ _ _ _ _ _ Hvis Hinv Hstep) as Hinv1.
  destruct (Z.eqb_spec (nextIndex d1 ii1) start) as [Heq|Hne].
  - by injection Hloop as <-.
  - eapply IH; [|done|done]. by eapply visits_next.
Qed.

Lemma scanInv_start image start d :
  scanInv MAX_SEGMENTS image start (set_numSegments 0 d) (set_numSegments 0 d).
Proof.
  assert (numSegments (set_numSegments 0 d) = 0) as Hn by by destruct d.
  split; [split; [lia|left; intros j s; lia]|].
  intros k i (? & ? & _). lia.
Qed.

(** The result chosen by lines 439-456 is the last segment that is valid
    and large enough; with a calibrated array that is the inner segment
    of the last pair. *)
Lemma select_last d result :
  for_range 0 (numSegments d) (selectStep d) noSegment = Ok result →
  calibrated d → SSegment.valid result = true →
  ∃ k, lastPair d k ∧ segment d (k + 1) = Some result.
Proof.
  intros Hsel [Hn Hcal] Hvalid.
  set (P := λ (j : Z) (r : SSegment.t F),
         SSegment.valid r = false
         ∨ ∃ j', 0 ≤ j' < j ∧ segment d j' = Some r
             ∧ ∀ j'' s, j' < j'' < j → segment d j'' = Some s →
                 SSegment.valid s = true → minSize d < SSegment.size s → False).
  assert (P (Z.max 0 (numSegments d)) result) as HP.
  { eapply (for_range_inv P); [| |exact Hsel]; [|left; reflexivity]; unfold P in *.
    intros j r r' Hj HPj Hstep. unfold selectStep in Hstep.
    apply bind_Ok in Hstep as (s & Hs%rd_segment & Hstep).
    destruct (Z.ltb_spec (minSize d) (SSegment.size s)) as [Hbig|Hsmall];
      cbn [andb] in Hstep.
    - destruct (SSegment.valid s) eqn:Hv; cbn [orb] in Hstep.
      + injection Hstep as <-. right. exists j. split; [lia|]. split; [done|].
        intros j'' s' ?. lia.
      + assert (r' = r) as -> by (destruct (debug d); by injection Hstep).
        destruct HPj as [?|(j' & Hj' & Hr & Hlast)]; [by left|right].
        exists j'. split; [lia|]. split; [done|].
        intros j'' s' Hj'' Hs' Hv' Hb'.
        destruct (decide (j'' = j)) as [->|]; [congruence|].
        eapply (Hlast j'' s'); [lia|done..].
    - injection Hstep as <-.
      destruct HPj as [?|(j' & Hj' & Hr & Hlast)]; [by left|right].
      exists j'. split; [lia|]. split; [done|].
      intros j'' s' Hj'' Hs' Hv' Hb'.
      destruct (decide (j'' = j)) as [->|]; [rewrite Hs in Hs'; injection Hs' as <-; lia|].
      eapply (Hlast j'' s'); [lia|done..]. }
  rewrite Z.max_r in HP by lia.
  destruct HP as [?|(j' & Hj' & Hr & Hlast)]; [congruence|].
  destruct Hcal as [Hnone|[k Hpair]].
  - rewrite (Hnone j' result) in Hvalid by done. done.
  - exists k. split; [done|].
    destruct Hpair as (Hk & Hk' & o & i & Ho & Hi & Hvo & Hvi & Hsz & Ht & Hlater).
    destruct (Z.lt_trichotomy j' (k + 1)) as [Hlt|[->|Hgt]]; [|done|].
    + exfalso. eapply (Hlast (k + 1) i); [lia|done..].
    + rewrite (Hlater j' result) in Hvalid by (done || lia). done.
Qed.

(** The state that a frame with a valid result leaves: the scan's segment
    array and threshold, and a failure counter of 0. *)
Lemma findSegment_valid image init d result d' image' :
  findSegment MAX_SEGMENTS image init d = Ok (result, d', image') →
  SSegment.valid result = true →
  ∃ ds,
    scanInv MAX_SEGMENTS image (scanStart image init d) (set_numSegments 0 d) ds
    ∧ (∃ k, lastPair ds k ∧ segment ds (k + 1) = Some result)
    ∧ segmentArray d' = segmentArray ds
    ∧ threshold d' = threshold ds
    ∧ numFailed d' = 0.
Proof.
  intros Hf Hvalid.
  pose proof (findSegment_numFailed _ _ _ _ _ _ Hf) as [_ Hnf].
  rewrite Hvalid in Hnf.
  apply findSegment_phases in Hf as (ds & dt & Hscan & Hsel & Hupd & Hclean).
  assert (scanInv MAX_SEGMENTS image (scanStart image init d)
            (set_numSegments 0 d) ds) as Hinv.
  { eapply scanLoop_scanInv; [apply visits_first|apply scanInv_start|done]. }
  exists ds. split; [done|].
  split; [apply select_last; [done|apply Hinv|done]|].
  apply bufferCleanup_buffer in Hclean as [buf ->].
  unfold trackingUpdate in Hupd. apply bind_Ok in Hupd as (ok & _ & Hupd).
  rewrite Hvalid in Hupd. injection Hupd as <-.
  split; [by destruct ds|]. split; [by destruct ds|done].
Qed.


(** C1, as the code has it. Whenever [findSegment] returns a valid
    result, a candidate pair was found and fitted during the scan, and
    the centre of the result is the centroid of the pixels of both of its
    segments, the ring and the disc ([queue[0 .. queueEnd)] in the state
    in which the pair was found). *)
Theorem valid_result_center image init d result d' image' :
  findSegment MAX_SEGMENTS image init d = Ok (result, d', image') →
  SSegment.valid result = true →
  ∃ ii dv dm,
    visits MAX_SEGMENTS image (scanStart image init d) (set_numSegments 0 d) ii dv
    ∧ seekPair MAX_SEGMENTS image ii dv = Ok (dm, true)
    ∧ unionCentroid image dm = Ok (SSegment.x result, SSegment.y result).
Proof.
  intros Hf Hvalid.
  destruct (findSegment_valid _ _ _ _ _ _ Hf Hvalid)
    as (ds & [_ Hfit] & (k & Hpair & Hres) & _).
  destruct (Hfit k result Hpair Hres) as (ii & dv & dm & Hvis & Hseek & Hcen & _).
  by exists ii, dv, dm.
Qed.

(** ** The queue stays within its array *)

Lemma guarded_bind {A B} (P : A → Prop) (Q : B → Prop) (m : outcome A)
    (k : A → outcome B) :
  guarded P m → (∀ a, P a → guarded Q (k a)) → guarded Q (m ≫= k).
Proof. destruct m; simpl; auto. Qed.

Lemma guarded_mono {A} (P Q : A → Prop) (m : outcome A) :
  guarded P m → (∀ a, P a → Q a) → guarded Q m.
Proof. destruct m; simpl; auto. Qed.

Lemma guarded_Ok {A} (Q : A → Prop) (m : outcome A) :
  (∀ f, m = Fault f → f ≠ OobQueue ∧ f ≠ OutOfFuel) →
  (∀ a, m = Ok a → Q a) → guarded Q m.
Proof. destruct m; simpl; auto. Qed.

(** A run that cannot touch the queue is guarded by whatever holds of its
    results. *)
Lemma guarded_rd {A} e (l : list A) i :
  e ≠ OobQueue → e ≠ OutOfFuel →
  guarded (λ a, 0 ≤ i < Z.of_nat (length l) ∧ l !! Z.to_nat i = Some a) (rd e l i).
Proof.
  intros. unfold rd. destruct (Z.leb_spec 0 i); [|done].
  destruct (l !! Z.to_nat i) eqn:E; [|done]. simpl.
  apply lookup_lt_Some in E as ?. split; [lia|done].
Qed.

Lemma guarded_wr {A} e (l : list A) i v :
  e ≠ OobQueue → e ≠ OutOfFuel →
  guarded (λ l', 0 ≤ i < Z.of_nat (length l) ∧ l' = <[Z.to_nat i := v]> l)
    (wr e l i v).
Proof.
  intros. unfold wr.
  destruct (Z.leb_spec 0 i), (Z.ltb_spec i (Z.of_nat (length l))); simpl; done.
Qed.

Lemma guarded_rd_queue (l : list Z) i :
  0 ≤ i < Z.of_nat (length l) →
  guarded (λ a, l !! Z.to_nat i = Some a) (rd OobQueue l i).
Proof. intros Hi. destruct (rd_total OobQueue l i Hi) as (a & -> & Ha). done. Qed.

Lemma guarded_for_range {St} (P : Z → St → Prop) lo hi
    (body : Z → St → outcome St) s :
  (∀ j t, lo ≤ j < hi → P j t → guarded (P (j + 1)) (body j t)) →
  P lo s → guarded (P (Z.max lo hi)) (for_range lo hi body s).
Proof.
  unfold for_range. intros Hb Hlo.
  replace (Z.max lo hi) with (lo + Z.of_nat (Z.to_nat (hi - lo))) by lia.
  assert (∀ j t, lo ≤ j < lo + Z.of_nat (Z.to_nat (hi - lo)) → P j t →
            guarded (P (j + 1)) (body j t)) as Hb'
    by (intros j t ?; apply Hb; lia).
  clear Hb. revert Hb' Hlo. generalize (Z.to_nat (hi - lo)). intros n.
  revert lo s. induction n as [|n IH]; intros lo s Hb Hlo; simpl.
  - by rewrite Z.add_0_r.
  - eapply guarded_bind; [apply Hb; [lia|done]|].
    intros t Ht. replace (lo + Z.of_nat (S n)) with (lo + 1 + Z.of_nat n) by lia.
    apply IH; [|done]. intros j u ?. apply Hb. lia.
Qed.

Lemma pixelSum_guarded image pos :
  guarded (λ _, True) (pixelSum image pos).
Proof.
  unfold pixelSum.
  eapply guarded_bind; [by apply guarded_rd|]. intros p0 _.
  eapply guarded_bind; [by apply guarded_rd|]. intros p1 _.
  eapply guarded_bind; [by apply guarded_rd|]. intros p2 _. done.
Qed.

(** Pairwise different indices below [n] are at most [n]. *)
Lemma NoDup_below (l : list Z) n :
  0 ≤ n → NoDup l → (∀ p, p ∈ l → 0 ≤ p < n) → Z.of_nat (length l) ≤ n.
Proof.
  intros Hn Hnd Hin.
  assert (l ⊆+ seqZ 0 n) as Hsub.
  { apply NoDup_submseteq; [done|]. intros p Hp. apply elem_of_seqZ.
    specialize (Hin p Hp). lia. }
  apply submseteq_length in Hsub. rewrite length_seqZ in Hsub. lia.
Qed.

Lemma queued_set_buffer buf d : queued (set_buffer buf d) = queued d.
Proof. by destruct d. Qed.

Lemma queued_set_queueStart v d : queued (set_queueStart v d) = queued d.
Proof. by destruct d. Qed.

(** Pushing a pixel. *)
Lemma queued_push d pos :
  0 ≤ queueEnd d < Z.of_nat (length (queue d)) →
  queued (set_queueEnd (queueEnd d + 1)
            (set_queue (<[Z.to_nat (queueEnd d) := pos]> (queue d)) d))
  = queued d ++ [pos].
Proof.
  intros Hq. unfold queued.
  replace (queueEnd (set_queueEnd (queueEnd d + 1)
             (set_queue (<[Z.to_nat (queueEnd d) := pos]> (queue d)) d)))
    with (queueEnd d + 1) by by destruct d.
  replace (queue (set_queueEnd (queueEnd d + 1)
             (set_queue (<[Z.to_nat (queueEnd d) := pos]> (queue d)) d)))
    with (<[Z.to_nat (queueEnd d) := pos]> (queue d)) by by destruct d.
  replace (Z.to_nat (queueEnd d + 1)) with (S (Z.to_nat (queueEnd d))) by lia.
  rewrite (take_S_r _ _ pos) by (apply list_lookup_insert_eq; lia).
  by rewrite take_insert_ge.
Qed.

Lemma queued_length d :
  0 ≤ queueEnd d ≤ Z.of_nat (length (queue d)) →
  Z.of_nat (length (queued d)) = queueEnd d.
Proof. intros. unfold queued. rewrite length_take. lia. Qed.

Lemma scanReady_set_buffer buf d :
  length buf = length (buffer d) → scanReady d → scanReady (set_buffer buf d).
Proof.
  intros Hl (Hb & Hq & Hn & Ho & He & Hnd & Hin).
  unfold scanReady. rewrite queued_set_buffer.
  replace (buffer (set_buffer buf d)) with buf by by destruct d.
  replace (len (set_buffer buf d)) with (len d) by by destruct d.
  replace (queue (set_buffer buf d)) with (queue d) by by destruct d.
  replace (numSegments (set_buffer buf d)) with (numSegments d) by by destruct d.
  replace (queueOldStart (set_buffer buf d)) with (queueOldStart d) by by destruct d.
  replace (queueEnd (set_buffer buf d)) with (queueEnd d) by by destruct d.
  rewrite Hl. done.
Qed.

(** The classification of a pixel changes one cell of the label buffer,
    and only a cell that held 0. *)
Lemma classify_guarded image pos d :
  guarded (λ d', ∃ buf, d' = set_buffer buf d
                   ∧ length buf = length (buffer d)
                   ∧ ∀ p v, buffer d !! p = Some v → v ≠ 0 → buf !! p = Some v)
    (classify image pos d).
Proof.
  unfold classify.
  eapply guarded_bind; [by apply guarded_rd|]. intros b [Hpos Hb]. cbv beta.
  destruct (Z.eqb_spec b 0) as [->|Hne].
  - eapply guarded_bind; [apply pixelSum_guarded|]. intros s _.
    eapply guarded_bind; [by apply guarded_wr|]. intros buf [_ ->]. simpl.
    eexists; split; [done|]. split; [by rewrite length_insert|].
    intros p v Hp Hv. rewrite list_lookup_insert_ne; [done|].
    intros <-. congruence.
  - simpl. exists (buffer d). by rewrite set_buffer_same.
Qed.

Lemma fillReady_set_buffer buf d :
  length buf = length (buffer d) →
  (∀ p v, buffer d !! p = Some v → v ≠ 0 → buf !! p = Some v) →
  fillReady d → fillReady (set_buffer buf d).
Proof.
  intros Hl Hkeep ((Hready & Hs & Hlab) & Hn).
  split; [split; [by apply scanReady_set_buffer|]|].
  - replace (queueStart (set_buffer buf d)) with (queueStart d) by by destruct d.
    replace (len (set_buffer buf d)) with (len d) by by destruct d.
    split; [done|]. unfold labelled. rewrite queued_set_buffer.
    replace (buffer (set_buffer buf d)) with buf by by destruct d.
    intros p (v & Hv & Hpos)%Hlab. exists v. split; [|done].
    apply Hkeep; [done|lia].
  - by replace (numSegments (set_buffer buf d)) with (numSegments d)
      by by destruct d.
Qed.

(** Pushing a pixel that carries a negative label and giving it the
    label of the segment: the pixel is not in the queue, whose pixels are
    labelled, so the queue keeps pairwise different pixels, and it has room
    for one more. *)
Lemma push_fillReady d pos t :
  seedReady d → 1 ≤ numSegments d → 0 ≤ pos →
  buffer d !! Z.to_nat pos = Some t → t < 0 →
  queueEnd d < len d
  ∧ fillReady
      (set_buffer (<[Z.to_nat pos := numSegments d]> (buffer d))
         (set_queueEnd (queueEnd d + 1)
            (set_queue (<[Z.to_nat (queueEnd d) := pos]> (queue d)) d))).
Proof.
  intros ((Hbl & Hql & Hn0 & Hold & Hend & Hnd & Hin) & Hs & Hlab) Hn Hpos0 Hb Ht.
  apply lookup_lt_Some in Hb as Hpos.
  assert (pos ∉ queued d) as Hfresh.
  { intros (v & Hv & Hvpos)%Hlab. rewrite Hb in Hv. injection Hv as <-. lia. }
  assert (NoDup (queued d ++ [pos])) as Hnd'.
  { apply list.NoDup_app. split; [done|]. split; [|apply NoDup_singleton].
    intros p Hp ->%list_elem_of_singleton. done. }
  assert (∀ p, p ∈ queued d ++ [pos] → 0 ≤ p < len d) as Hin'.
  { intros p [Hp| ->%list_elem_of_singleton]%elem_of_app; [by apply Hin|lia]. }
  pose proof (NoDup_below (queued d ++ [pos]) (len d) ltac:(lia) Hnd' Hin') as Hroom.
  rewrite length_app, Nat2Z.inj_add, queued_length in Hroom by lia.
  simpl in Hroom. split; [lia|].
  set (dq := set_queueEnd (queueEnd d + 1)
               (set_queue (<[Z.to_nat (queueEnd d) := pos]> (queue d)) d)).
  assert (queued dq = queued d ++ [pos]) as Hq' by (apply queued_push; lia).
  assert (Hdq : buffer dq = buffer d ∧ len dq = len d
                ∧ length (queue dq) = length (queue d)
                ∧ numSegments dq = numSegments d
                ∧ queueOldStart dq = queueOldStart d
                ∧ queueEnd dq = queueEnd d + 1
                ∧ queueStart dq = queueStart d).
  { subst dq. destruct d; simpl. by rewrite length_insert. }
  destruct Hdq as (Hb' & Hlen' & Hql' & Hnum' & Hold' & Hend' & Hs').
  clearbody dq.
  set (buf := <[Z.to_nat pos := numSegments d]> (buffer d)).
  assert (Hdf : buffer (set_buffer buf dq) = buf
                ∧ len (set_buffer buf dq) = len dq
                ∧ queue (set_buffer buf dq) = queue dq
                ∧ numSegments (set_buffer buf dq) = numSegments dq
                ∧ queueOldStart (set_buffer buf dq) = queueOldStart dq
                ∧ queueEnd (set_buffer buf dq) = queueEnd dq
                ∧ queueStart (set_buffer buf dq) = queueStart dq)
    by by destruct dq.
  destruct Hdf as (Hfb & Hfl & Hfq & Hfn & Hfo & Hfe & Hfs).
  split; [split; [|split; [lia|]]|lia].
  - unfold scanReady. rewrite queued_set_buffer.
    rewrite Hfb, Hfl, Hfq, Hfn, Hfo, Hfe, Hq', Hlen', Hql', Hnum', Hold', Hend'.
    subst buf. rewrite length_insert.
    split; [lia|]. split; [lia|]. split; [lia|]. split; [lia|].
    split; [lia|]. split; done.
  - unfold labelled. rewrite queued_set_buffer, Hq', Hfb. subst buf.
    intros p [Hp| ->%list_elem_of_singleton]%elem_of_app.
    + destruct (Hlab p Hp) as (v & Hv & Hvpos). exists v. split; [|done].
      rewrite list_lookup_insert_ne; [done|].
      specialize (Hin p Hp). intros Heq. apply Hfresh.
      replace pos with p by lia. done.
    + exists (numSegments d). split; [|lia].
      apply list_lookup_insert_eq. lia.
Qed.

(** One neighbour: the pixel is pushed only when it carries the label
    [type]. *)
Lemma probe_guarded image type sd position d bb :
  fillReady d → type < 0 →
  guarded (λ st', fillReady (fst st') ∧ queueStart (fst st') = queueStart d)
    (probe image type sd position (d, bb)).
Proof.
  intros Hready Htype. unfold probe. cbv zeta.
  eapply guarded_bind; [apply classify_guarded|].
  intros d1 (buf & -> & Hl & Hkeep).
  apply (fillReady_set_buffer buf) in Hready; [|done..].
  replace (queueStart d) with (queueStart (set_buffer buf d)) by by destruct d.
  replace (neighbour d sd position)
    with (neighbour (set_buffer buf d) sd position) by by destruct d.
  clear Hl Hkeep. revert Hready.
  generalize (set_buffer buf d). clear d buf. intros d Hready.
  eapply guarded_bind; [by apply guarded_rd|]. intros b [Hpos Hb]. cbv beta.
  destruct (Z.eqb_spec b type) as [->|Hne]; [|done].
  destruct Hready as [Hseed Hn].
  assert (0 ≤ neighbour d sd position) as Hpos0 by lia.
  destruct (push_fillReady d _ type Hseed Hn Hpos0 Hb Htype) as [Hroom Hfill].
  destruct Hseed as ((Hbl & Hql & Hn0 & Hold & Hend & Hnd & Hin) & Hs & Hlab).
  rewrite wr_total by lia. cbn [mbind outcome_bind].
  eapply guarded_bind; [by apply guarded_wr|]. intros buf [_ ->]. simpl.
  split; [|by destruct d].
  match goal with |- fillReady ?x =>
    match type of Hfill with fillReady ?y => replace x with y by by destruct d end
  end.
  done.
Qed.

Lemma guarded_with_eq {A} (P : A → Prop) (m : outcome A) :
  guarded P m → guarded (λ a, P a ∧ m = Ok a) m.
Proof. destruct m; simpl; auto. Qed.

Lemma fillReady_set_queueStart v d :
  0 ≤ v ≤ len d → fillReady d → fillReady (set_queueStart v d).
Proof.
  intros Hv (((Hbl & Hql & Hn0 & Hold & Hend & Hnd & Hin) & Hs & Hlab) & Hn).
  unfold fillReady, seedReady, scanReady, labelled.
  rewrite queued_set_queueStart.
  replace (buffer (set_queueStart v d)) with (buffer d) by by destruct d.
  replace (queue (set_queueStart v d)) with (queue d) by by destruct d.
  replace (len (set_queueStart v d)) with (len d) by by destruct d.
  replace (numSegments (set_queueStart v d)) with (numSegments d) by by destruct d.
  replace (queueOldStart (set_queueStart v d)) with (queueOldStart d)
    by by destruct d.
  replace (queueEnd (set_queueStart v d)) with (queueEnd d) by by destruct d.
  replace (queueStart (set_queueStart v d)) with v by by destruct d.
  done.
Qed.

(** The flood fill never leaves the queue and never runs out of fuel:
    every turn of the loop reads one more cell of the queue. *)
Lemma floodFill_guarded fuel image type d bb :
  fillReady d → type < 0 → len d ≤ Z.of_nat fuel + queueStart d →
  guarded (λ st', fillReady (fst st')) (floodFill fuel image type (d, bb)).
Proof.
  revert d bb. induction fuel as [|fuel IH]; intros d bb Hready Htype Hfuel;
    cbn [floodFill fst].
  - destruct (Z.ltb_spec (queueStart d) (queueEnd d)); [|done].
    destruct Hready as (((_ & _ & _ & _ & Hend & _) & _) & _). lia.
  - destruct (Z.ltb_spec (queueStart d) (queueEnd d)) as [Hlt|]; [|done].
    pose proof Hready as (((Hbl & Hql & Hn0 & Hold & Hend & Hnd & Hin) & Hs & Hlab) & Hn).
    destruct (rd_total OobQueue (queue d) (queueStart d)) as (position & -> & _);
      [lia|].
    cbn [mbind outcome_bind].
    apply (fillReady_set_queueStart (queueStart d + 1)) in Hready; [|lia].
    assert (Hd1 : queueStart (set_queueStart (queueStart d + 1) d) = queueStart d + 1
                  ∧ len (set_queueStart (queueStart d + 1) d) = len d)
      by by destruct d.
    destruct Hd1 as [Hqs1 Hlen1]. revert Hready Hqs1 Hlen1.
    generalize (set_queueStart (queueStart d + 1) d). intros d1 Hready Hqs1 Hlen1.
    eapply guarded_bind; [apply guarded_with_eq, probe_guarded; done|].
    intros [d2 bb2] [[Hr2 Hq2] Hok2]. apply probe_settings in Hok2.
    eapply guarded_bind; [apply guarded_with_eq, probe_guarded; done|].
    intros [d3 bb3] [[Hr3 Hq3] Hok3]. apply probe_settings in Hok3.
    eapply guarded_bind; [apply guarded_with_eq, probe_guarded; done|].
    intros [d4 bb4] [[Hr4 Hq4] Hok4]. apply probe_settings in Hok4.
    eapply guarded_bind; [apply guarded_with_eq, probe_guarded; done|].
    intros [d5 bb5] [[Hr5 Hq5] Hok5]. apply probe_settings in Hok5.
    cbn [fst] in *.
    apply settings_fields in Hok2 as (_ & _ & Hl2 & _).
    apply settings_fields in Hok3 as (_ & _ & Hl3 & _).
    apply settings_fields in Hok4 as (_ & _ & Hl4 & _).
    apply settings_fields in Hok5 as (_ & _ & Hl5 & _).
    apply IH; [done..|]. lia.
Qed.

Lemma meanStep_guarded image (q : list Z) p acc :
  0 ≤ p < Z.of_nat (length q) → guarded (λ _, True) (meanStep image q p acc).
Proof.
  intros Hp. unfold meanStep.
  eapply guarded_bind; [by apply guarded_rd_queue|]. intros pos _.
  eapply guarded_bind; [by apply guarded_rd|]. intros p0 _.
  eapply guarded_bind; [by apply guarded_rd|]. intros p1 _.
  eapply guarded_bind; [by apply guarded_rd|]. intros p2 _. done.
Qed.

Lemma describeSegment_guarded image type areaRatio bb d segmen :
  scanReady d →
  guarded (λ _, True) (describeSegment image type areaRatio bb d segmen).
Proof.
  intros (Hbl & Hql & Hn0 & Hold & Hend & Hnd & Hin). unfold describeSegment.
  cbv zeta. destruct (_ <? _); [|done]. destruct (looksRound _ _); [|done].
  eapply guarded_bind; [|done].
  eapply guarded_mono; [apply (guarded_for_range (λ _ _, True)); [|done]|done].
  intros j t Hj _. apply meanStep_guarded. lia.
Qed.

Lemma seedReady_set_segmentArray segs d :
  seedReady d → seedReady (set_segmentArray segs d).
Proof. by destruct d. Qed.

(** A flood fill started from a pixel with a negative label stays within
    the queue. *)
Lemma examineSegment_guarded image si ii areaRatio d :
  seedReady d →
  (∀ t, buffer d !! Z.to_nat ii = Some t → t < 0) →
  guarded (λ r, seedReady (snd r)) (examineSegment image si ii areaRatio d).
Proof.
  intros Hseed Hneg. unfold examineSegment. cbv zeta.
  assert (seedReady (set_queueOldStart (queueStart d) d)
          ∧ buffer (set_queueOldStart (queueStart d) d) = buffer d) as [Hseed0 Hb0].
  { destruct Hseed as ((Hbl & Hql & Hn0 & Hold & Hend & Hnd & Hin) & Hs & Hlab).
    split; [|by destruct d]. destruct d. done. }
  revert Hseed0 Hb0. generalize (set_queueOldStart (queueStart d) d).
  intros d0 Hseed0 Hb0.
  eapply guarded_bind; [by apply guarded_rd|]. intros type [Hii Htype]. cbv beta.
  rewrite Hb0 in Htype. apply Hneg in Htype as Hlt. rewrite <- Hb0 in Htype.
  clear Hseed Hneg Hb0 d.
  eapply guarded_bind; [by apply guarded_rd|]. intros segmen _.
  assert (seedReady (set_numSegments (numSegments d0 + 1) d0)
          ∧ 1 ≤ numSegments (set_numSegments (numSegments d0 + 1) d0)
          ∧ buffer (set_numSegments (numSegments d0 + 1) d0) = buffer d0)
    as (Hseed1 & Hn1 & Hb1).
  { destruct Hseed0 as ((Hbl & Hql & Hn0 & Hold & Hend & Hnd & Hin) & Hs & Hlab).
    split; [|split; [destruct d0; simpl in *; lia|by destruct d0]].
    destruct d0. split; [|done]. unfold scanReady in *; simpl in *.
    split; [done|]. split; [done|]. split; [lia|]. done. }
  revert Hseed1 Hn1 Hb1. generalize (set_numSegments (numSegments d0 + 1) d0).
  intros d1 Hseed1 Hn1 Hb1. rewrite <- Hb1 in Htype, Hii. clear Hseed0 Hb1 d0.
  assert (0 ≤ ii) as Hii0 by lia.
  destruct (push_fillReady d1 ii type Hseed1 Hn1 Hii0 Htype Hlt)
    as [Hroom Hfill].
  rewrite wr_total by lia. cbn [mbind outcome_bind].
  replace (queue (set_buffer (<[Z.to_nat ii:=numSegments d1]> (buffer d1)) d1))
    with (queue d1) by by destruct d1.
  replace (queueEnd (set_buffer (<[Z.to_nat ii:=numSegments d1]> (buffer d1)) d1))
    with (queueEnd d1) by by destruct d1.
  destruct Hseed1 as ((Hbl & Hql & Hn0 & Hold & Hend & Hnd & Hin) & Hs & Hlab).
  rewrite wr_total by lia. cbn [mbind outcome_bind].
  match type of Hfill with fillReady ?y =>
    match goal with |- context [floodFill _ _ _ (?x, _)] =>
      replace x with y by by destruct d1 end
  end.
  revert Hfill.
  match goal with |- fillReady ?y → _ =>
    assert (len y = len d1 ∧ queueStart y = queueStart d1
            ∧ length (queue y) = length (queue d1)) as Hy
      by (destruct d1; simpl; by rewrite length_insert);
    revert Hy; generalize y
  end.
  intros d3 (Hl3 & Hs3 & Hq3) Hfill.
  assert (len d3 ≤ Z.of_nat (length (queue d3)) + queueStart d3) as Hfuel by lia.
  eapply guarded_bind; [by apply floodFill_guarded|].
  intros [d4 bb] Hfill4. cbn [fst] in Hfill4.
  eapply guarded_bind; [apply describeSegment_guarded, Hfill4|].
  intros [result segmen'] _.
  eapply guarded_bind; [by apply guarded_wr|]. intros segs _. simpl.
  apply seedReady_set_segmentArray, Hfill4.
Qed.

(** ** The queue during a whole scan *)

















(** A loop of writes into the label buffer keeps its length. *)
Lemma guarded_keeps_length lo hi (body : Z → list Z → outcome (list Z)) n s :
  (∀ j t, length t = n → guarded (λ t', length t' = n) (body j t)) →
  length s = n → guarded (λ t', length t' = n) (for_range lo hi body s).
Proof.
  intros Hbody Hs.
  eapply guarded_mono;
    [apply (guarded_for_range (λ _ t, length t = n)); [|done]|done].
  intros j t _ Ht. by apply Hbody.
Qed.

Lemma guarded_wr_length (l : list Z) i v n :
  length l = n → guarded (λ l', length l' = n) (wr OobBuffer l i v).
Proof.
  intros Hl. eapply guarded_mono; [by apply guarded_wr|].
  intros l' [_ ->]. by rewrite length_insert.
Qed.

Lemma bufferCleanup_guarded init d :
  scanReady d → guarded scanReady (bufferCleanup init d).
Proof.
  intros Hready. unfold bufferCleanup. cbv zeta.
  destruct (_ || _).
  - eapply guarded_bind with (P := λ buf, length buf = length (buffer d)).
    { unfold memset0. destruct (_ && _) eqn:Hc; [|done]. simpl.
      apply andb_true_iff in Hc as [H0 Hn].
      rewrite length_app, length_replicate, length_drop. lia. }
    intros buf Hl.
    eapply guarded_bind.
    { apply guarded_keeps_length with (n := length (buffer d)); [|done].
      intros j t Ht. eapply guarded_bind; [by apply guarded_wr_length|].
      intros t' Ht'. by apply guarded_wr_length. }
    intros buf1 Hl1.
    eapply guarded_bind.
    { apply guarded_keeps_length with (n := length (buffer d)); [|done].
      intros j t Ht. eapply guarded_bind; [by apply guarded_wr_length|].
      intros t' Ht'. by apply guarded_wr_length. }
    intros buf2 Hl2. simpl. by apply scanReady_set_buffer.
  - eapply guarded_bind.
    { apply guarded_keeps_length with (n := length (buffer d)); [|done].
      intros y t Ht.
      apply guarded_keeps_length; [|done].
      intros x t' Ht'. by apply guarded_wr_length. }
    intros buf Hl. simpl. by apply scanReady_set_buffer.
Qed.



(** The constructor allocates [len] cells for the label buffer and for the
    queue (lines 35-41). *)
Lemma CCircleDetect_scanReady wi he diamRatio d :
  CCircleDetect MAX_SEGMENTS wi he diamRatio = Ok d → scanReady d.
Proof.
  unfold CCircleDetect. cbv zeta. intros Hc.
  match type of Hc with bufferCleanup _ ?d0 = _ => set (dc := d0) in * end.
  assert (0 ≤ wi * he) as Hlen.
  { unfold bufferCleanup in Hc. cbv zeta in Hc.
    replace (SSegment.valid noSegment) with false in Hc by done.
    cbn [negb orb] in Hc. apply bind_Ok in Hc as (buf & Hm & _).
    unfold memset0 in Hm. destruct (_ && _) eqn:Hcond; [|done].
    apply andb_true_iff in Hcond as [H0 _]. subst dc. simpl in H0. lia. }
  assert (scanReady dc) as Hready.
  { subst dc. unfold scanReady, queued. simpl.
    rewrite !length_replicate, Z2Nat.id by done.
    split; [done|]. split; [done|]. split; [done|]. split; [lia|].
    split; [lia|]. split; [apply NoDup_nil_2|].
    intros p Hp. by apply elem_of_nil in Hp. }
  pose proof (bufferCleanup_guarded noSegment dc Hready) as Hg.
  by rewrite Hc in Hg.
Qed.


(** ** The acceptance test of a pair *)

(** The cascade reaches the shape fit only with a pair that passed the
    acceptance test. *)
Lemma seekInner_pairOK image d d' :
  seekInner MAX_SEGMENTS image d = Ok (d', true) →
  ∃ o i, segment d' (numSegments d' - 2) = Some o
       ∧ segment d' (numSegments d' - 1) = Some i
       ∧ pairOK d' o i = true.
Proof.
  unfold seekInner. intros Hs. inv_ok Hs; try discriminate.
  match goal with
  | Ho : rd OobSegment _ (_ - 2) = Ok ?o, Hi : rd OobSegment _ (_ - 1) = Ok ?i,
    Hp : pairOK _ ?o ?i = true |- _ =>
      apply rd_segment in Ho, Hi; exists o, i; by rewrite Ho, Hi, Hp
  end.
Qed.

Lemma seekPair_pairOK image ii d d' :
  seekPair MAX_SEGMENTS image ii d = Ok (d', true) →
  ∃ o i, segment d' (numSegments d' - 2) = Some o
       ∧ segment d' (numSegments d' - 1) = Some i
       ∧ pairOK d' o i = true.
Proof.
  unfold seekPair. intros Hs. inv_ok Hs; try discriminate;
    match goal with
    | E : seekInner _ _ _ = Ok _ |- _ => by apply seekInner_pairOK in E
    end.
Qed.

(** C7.  When the scan step at [ii] examined two regions (an outer one [o]
    and an inner one [i]) and the quotient [size o / areasRatio / size i]
    fails one of the two comparisons with 1 within [ratioTolerance], the
    pair is rejected whatever the roundness of the regions: the cascade
    reports no fit, both regions are left with [valid = false], and the
    step ends in the state the cascade left, without the shape fit, at the
    same scan position. *)
Theorem ratio_mismatch_rejected image start ii d dm fit o i :
  seekPair MAX_SEGMENTS image ii d = Ok (dm, fit) →
  0 ≤ numSegments d →
  numSegments dm = numSegments d + 2 →
  segment dm (numSegments d) = Some o →
  segment dm (numSegments d + 1) = Some i →
  (let q := (fofZ (SSegment.size o) / areasRatio dm / fofZ (SSegment.size i))%fl in
   (q - ratioTolerance dm <? fofZ 1)%fl = false
   ∨ (fofZ 1 <? q + ratioTolerance dm)%fl = false) →
  fit = false
  ∧ SSegment.valid o = false ∧ SSegment.valid i = false
  ∧ scanStep MAX_SEGMENTS image start ii d = Ok (dm, ii).
Proof.
  intros Hs Hn Hnum Ho Hi Hq.
  assert (fit = false) as ->.
  { destruct fit; [|done]. apply seekPair_pairOK in Hs as (o' & i' & Ho' & Hi' & Hp).
    rewrite Hnum in Ho', Hi'.
    replace (numSegments d + 2 - 2) with (numSegments d) in Ho' by lia.
    replace (numSegments d + 2 - 1) with (numSegments d + 1) in Hi' by lia.
    rewrite Ho in Ho'. rewrite Hi in Hi'. injection Ho' as <-. injection Hi' as <-.
    apply andb_true_iff in Hp as [Hr _]. unfold ratioOK in Hr. cbv zeta in *.
    apply andb_true_iff in Hr as [H1 H2]. destruct Hq; congruence. }
  split; [done|].
  pose proof (seekPair_spec _ _ _ _ _ Hs Hn) as (_ & _ & _ & _ & Hnew & _).
  split; [|split].
  - apply (Hnew (numSegments d)); [lia|done].
  - apply (Hnew (numSegments d + 1)); [lia|done].
  - unfold scanStep. by rewrite Hs.
Qed.

(** ** What a frame leaves behind *)

Lemma configuration_settings d d' :
  settings d' = settings d → configuration d' = configuration d.
Proof. unfold configuration. by intros ->. Qed.

Lemma configuration_fields d d' :
  configuration d' = configuration d →
  width d' = width d ∧ height d' = height d ∧ len d' = len d
  ∧ minSize d' = minSize d ∧ maxFailed d' = maxFailed d
  ∧ track d' = track d ∧ debug d' = debug d ∧ draw d' = draw d
  ∧ diameterRatio d' = diameterRatio d ∧ areasRatio d' = areasRatio d
  ∧ ratioTolerance d' = ratioTolerance d.
Proof. destruct d, d'. intros [= ]. by subst. Qed.

Lemma trackingUpdate_configuration result d d' :
  trackingUpdate result d = Ok d' → configuration d' = configuration d.
Proof.
  unfold trackingUpdate. intros Hu.
  apply bind_Ok in Hu as (ok & _ & Hu). cbv zeta in Hu.
  assert (configuration (set_lastTrackOK ok d) = configuration d) as <-
    by by destruct d.
  revert Hu. generalize (set_lastTrackOK ok d). clear d. intros d Hu.
  unfold changeThreshold in Hu. cbv zeta in Hu. cbn [snd] in Hu.
  repeat match type of Hu with
         | context [if ?c then _ else _] => destruct c
         end; injection Hu as <-; by destruct d.
Qed.

Lemma findSegment_configuration image init d result d' image' :
  findSegment MAX_SEGMENTS image init d = Ok (result, d', image') →
  configuration d' = configuration d.
Proof.
  intros Hf.
  apply findSegment_phases in Hf as (ds & dt & Hscan & Hsel & Hupd & Hclean).
  apply scanLoop_settings, configuration_settings in Hscan.
  apply trackingUpdate_configuration in Hupd.
  apply bufferCleanup_buffer in Hclean as [buf ->].
  transitivity (configuration dt); [by destruct dt|].
  rewrite Hupd, Hscan. by destruct d.
Qed.

(** C2, as the code has it.  Whenever [findSegment] returns a valid
    result, a candidate pair was found and fitted during the scan, and
    both semi-axis members of the result are the roots of the eigenvalues
    [f0 >= f1] of the covariance of the pixels of both segments (the ring
    and the disc together), each increased by the one leakage term [t]. *)
Theorem valid_result_axes image init d result d' image' :
  findSegment MAX_SEGMENTS image init d = Ok (result, d', image') →
  SSegment.valid result = true →
  ∃ ii dv dm o i f0 f1,
    visits MAX_SEGMENTS image (scanStart image init d) (set_numSegments 0 d) ii dv
    ∧ seekPair MAX_SEGMENTS image ii dv = Ok (dm, true)
    ∧ segment dm (numSegments dm - 2) = Some o
    ∧ segment dm (numSegments dm - 1) = Some i
    ∧ unionEigen image dm = Ok (f0, f1)
    ∧ let t := leakage dm f0 f1 (SSegment.size o) (SSegment.size i) in
      SSegment.m0 result = (fsqrt f0 + t)%fl
      ∧ SSegment.m1 result = (fsqrt f1 + t)%fl.
Proof.
  intros Hf Hvalid.
  destruct (findSegment_valid _ _ _ _ _ _ Hf Hvalid)
    as (ds & [_ Hfit] & (k & Hpair & Hres) & _).
  destruct (Hfit k result Hpair Hres)
    as (ii & dv & dm & Hvis & Hseek & _ & o & i & f0 & f1 & Ho & Hi & He & H0 & H1).
  by exists ii, dv, dm, o, i, f0, f1.
Qed.


(** * Further properties *)

(** ** The threshold sweep *)

(** X1.  For a failure counter in the range of a non-negative [int],
    [changeThreshold] reports that the sweep is exhausted exactly when
    the counter has reached 16: the step [256 / div] is then 16 or less.
    For a counter of 0 or 1 the loop does not run, the divisor stays 1
    and the threshold becomes [768 * numFailed - 384], which is negative
    for the counter 0. *)
Theorem sweep_exhausted_from_16 d :
  0 ≤ numFailed d < 2 ^ 31 →
  (fst (changeThreshold d) = false ↔ 16 ≤ numFailed d)
  ∧ (numFailed d ≤ 1 →
     fst (changeThreshold d) = true
     ∧ threshold (snd (changeThreshold d)) = 768 * numFailed d - 384).
Proof.
  intros _. split; [apply changeThreshold_exhausted|].
  intros Hn. unfold changeThreshold. cbn [fst snd].
  rewrite thresholdDiv_small by done.
  change (256 `quot` 1) with 256. split; [done|].
  replace (threshold (set_threshold _ d))
    with (3 * (256 * (numFailed d - 1) + 256 `quot` 2)) by by destruct d.
  change (256 `quot` 2) with 128. lia.
Qed.

(** X2.  For a failure counter between 1 and [INT_MAX] the divisor
    computed by the loop lies between 1 and the counter, the step between
    0 and 256, the product [step * (numFailed - div)] below 256: no
    intermediate value leaves the range of [int], and the new threshold
    lies in [0, 768). *)
Theorem changeThreshold_no_overflow d :
  1 ≤ numFailed d < 2 ^ 31 →
  let div := thresholdDiv (numFailed d) 1 in
  let step := 256 `quot` div in
  1 ≤ div ≤ numFailed d
  ∧ 0 ≤ step ≤ 256
  ∧ 0 ≤ step * (numFailed d - div) < 256
  ∧ 0 ≤ threshold (snd (changeThreshold d)) < 768.
Proof.
  intros Hn div step.
  destruct (changeThreshold_in_range (numFailed d) Hn) as (Hd & Hs & Hp & Ht).
  split; [done|]. split; [done|]. split; [done|].
  replace (threshold (snd (changeThreshold d)))
    with (3 * (step * (numFailed d - div) + step `quot` 2)); [done|].
  unfold changeThreshold. by destruct d.
Qed.

(** The probe for [n] failures. *)
Lemma sweep_probe d n :
  1 ≤ n →
  threshold (snd (changeThreshold (set_numFailed n d)))
  = 3 * ((256 `quot` (2 ^ Z.log2 n)) * (n - 2 ^ Z.log2 n)
         + (256 `quot` (2 ^ Z.log2 n)) `quot` 2).
Proof.
  intros Hn. unfold changeThreshold. cbn [snd].
  replace (numFailed (set_numFailed n d)) with n by by destruct d.
  rewrite thresholdDiv_spec, Z.mul_1_l by done. by destruct d.
Qed.

(** X3.  During the first 255 failures the sweep never probes the same
    threshold twice: the lowest set bit of the probe tells the divisor,
    and the rest of the probe tells the count of failures. *)
Theorem sweep_never_repeats d n m :
  1 ≤ n < 256 → 1 ≤ m < 256 →
  threshold (snd (changeThreshold (set_numFailed n d)))
  = threshold (snd (changeThreshold (set_numFailed m d))) →
  n = m.
Proof.
  intros Hn Hm. rewrite !sweep_probe by lia.
  set (g := λ n, 3 * ((256 `quot` (2 ^ Z.log2 n)) * (n - 2 ^ Z.log2 n)
                      + (256 `quot` (2 ^ Z.log2 n)) `quot` 2)).
  set (h := λ t, let v := t `quot` 3 in
                 let low := Z.land v (- v) in
                 128 `quot` low + (v - low) `quot` (2 * low)).
  change (g n = g m → n = m).
  assert (∀ k, 1 ≤ k < 256 → h (g k) = k) as Hinv.
  { assert (forallb (λ k, h (g k) =? k) (seqZ 1 255) = true) as Hall
      by (vm_compute; reflexivity).
    rewrite forallb_forall in Hall. intros k Hk. apply Z.eqb_eq, Hall.
    apply list_elem_of_In, elem_of_seqZ. lia. }
  intros Heq. rewrite <- (Hinv n Hn), <- (Hinv m Hm). by rewrite Heq.
Qed.

(** ** The configuration *)

(** X4.  A call of [findSegment] changes no member of the configuration:
    the frame size, [minSize], [maxFailed], the three flags, the
    tolerances and the ratios are after the call what they were before. *)
Theorem findSegment_keeps_configuration image init d result d' image' :
  findSegment MAX_SEGMENTS image init d = Ok (result, d', image') →
  width d' = width d ∧ height d' = height d ∧ len d' = len d
  ∧ minSize d' = minSize d ∧ maxFailed d' = maxFailed d
  ∧ track d' = track d ∧ debug d' = debug d ∧ draw d' = draw d
  ∧ centerDistanceToleranceRatio d' = centerDistanceToleranceRatio d
  ∧ centerDistanceToleranceAbs d' = centerDistanceToleranceAbs d
  ∧ circularTolerance d' = circularTolerance d
  ∧ ratioTolerance d' = ratioTolerance d
  ∧ circularityTolerance d' = circularityTolerance d
  ∧ diameterRatio d' = diameterRatio d
  ∧ outerAreaRatio d' = outerAreaRatio d
  ∧ innerAreaRatio d' = innerAreaRatio d
  ∧ areasRatio d' = areasRatio d.
Proof.
  intros Hf. apply findSegment_configuration in Hf.
  destruct d, d'. injection Hf as -> -> -> -> -> -> -> -> -> -> -> -> -> -> -> -> ->.
  repeat split.
Qed.

(** ** The constructor *)



(** ** The cleanup of the label buffer *)

(** Every cell of the label buffer is the cell of a pixel. *)
Lemma cell_cover d i :
  0 < width d → 0 < height d → (i < Z.to_nat (width d * height d))%nat →
  ∃ x y, 0 ≤ x < width d ∧ 0 ≤ y < height d ∧ i = cell d x y.
Proof.
  intros Hw Hh Hi.
  exists (Z.of_nat i `mod` width d), (Z.of_nat i `div` width d).
  split; [apply Z.mod_pos_bound; lia|].
  split; [split; [apply Z.div_pos; lia|apply Z.div_lt_upper_bound; lia]|].
  unfold cell. rewrite (Z.mul_comm _ (width d)), <- Z.div_mod by lia. lia.
Qed.

Lemma buffer_eq_cells d (b1 b2 : list Z) :
  0 < width d → 0 < height d →
  Z.of_nat (length b1) = width d * height d →
  Z.of_nat (length b2) = width d * height d →
  (∀ x y, 0 ≤ x < width d → 0 ≤ y < height d →
          b1 !! cell d x y = b2 !! cell d x y) →
  b1 = b2.
Proof.
  intros Hw Hh H1 H2 Hcells. apply list_eq. intros i.
  destruct (decide (i < Z.to_nat (width d * height d))%nat) as [Hi|Hi].
  - destruct (cell_cover d i Hw Hh Hi) as (x & y & Hx & Hy & ->).
    by apply Hcells.
  - rewrite !lookup_ge_None_2; [done|lia..].
Qed.

(** The cells of the label buffer after a cleanup, as a lemma to build
    on. *)
Lemma bufferCleanup_cells init d :
  0 < width d → 0 < height d → len d = width d * height d →
  Z.of_nat (length (buffer d)) = len d →
  ∃ buf, bufferCleanup init d = Ok (set_buffer buf d)
    ∧ Z.of_nat (length buf) = len d
    ∧ ∀ x y, 0 ≤ x < width d → 0 ≤ y < height d →
        buf !! cell d x y
        = if negb (SSegment.valid init) || negb (track d) || negb (lastTrackOK d)
          then Some (if onBorder d x y then -1000 else 0)
          else if inMargin d init x y then Some 0
          else buffer d !! cell d x y.
Proof.
  intros Hw Hh Hlen Hbuf.
  destruct (negb (SSegment.valid init) || negb (track d) || negb (lastTrackOK d))
    eqn:Hc.
  - destruct (bufferCleanup_full init d) as (buf & Hb & Hl & Hr); try done.
    by exists buf.
  - destruct (bufferCleanup_margin init d) as (buf & Hb & Hl & Hr); try done.
    by exists buf.
Qed.

(** X6.  [bufferCleanup] is idempotent: cleaning for the same segment a
    second time changes nothing, in the full reset and in the reset of a
    margin alike. *)
Theorem bufferCleanup_idempotent init d d1 :
  0 < width d → 0 < height d → len d = width d * height d →
  Z.of_nat (length (buffer d)) = len d →
  bufferCleanup init d = Ok d1 →
  bufferCleanup init d1 = Ok d1.
Proof.
  intros Hw Hh Hlen Hbuf Hc.
  destruct (bufferCleanup_cells init d Hw Hh Hlen Hbuf) as (buf & Hb & Hl & Hcells).
  rewrite Hb in Hc. injection Hc as <-.
  assert (width (set_buffer buf d) = width d
          ∧ height (set_buffer buf d) = height d
          ∧ len (set_buffer buf d) = len d
          ∧ buffer (set_buffer buf d) = buf
          ∧ track (set_buffer buf d) = track d
          ∧ lastTrackOK (set_buffer buf d) = lastTrackOK d)
    as (Hw1 & Hh1 & Hlen1 & Hbuf1 & Ht1 & Hk1) by by destruct d.
  destruct (bufferCleanup_cells init (set_buffer buf d))
    as (buf2 & Hb2 & Hl2 & Hcells2); [lia|lia|lia|by rewrite Hbuf1, Hlen1|].
  rewrite Hb2. f_equal.
  assert (buf2 = buf) as ->; [|by destruct d].
  apply (buffer_eq_cells d); [done|done|lia|lia|].
  intros x y Hx Hy.
  specialize (Hcells x y Hx Hy).
  specialize (Hcells2 x y ltac:(lia) ltac:(lia)).
  rewrite Ht1, Hk1, Hbuf1 in Hcells2.
  replace (cell (set_buffer buf d) x y) with (cell d x y) in Hcells2
    by by destruct d.
  replace (onBorder (set_buffer buf d) x y) with (onBorder d x y) in Hcells2
    by by destruct d.
  replace (inMargin (set_buffer buf d) init x y) with (inMargin d init x y)
    in Hcells2 by by destruct d.
  rewrite Hcells2, Hcells.
  destruct (negb (SSegment.valid init) || negb (track d) || negb (lastTrackOK d));
    [done|].
  by destruct (inMargin d init x y).
Qed.

(** ** The number of segments *)

Lemma seekInner_bound image d d' fit :
  seekInner MAX_SEGMENTS image d = Ok (d', fit) →
  numSegments d ≤ MAX_SEGMENTS → numSegments d' ≤ MAX_SEGMENTS.
Proof.
  unfold seekInner. intros Hs Hn.
  apply bind_Ok in Hs as (o & _ & Hs). cbv zeta in Hs.
  apply bind_Ok in Hs as (d1 & Hc & Hs).
  apply classify_segments in Hc as (_ & _ & Hn1 & _).
  apply bind_Ok in Hs as (b & _ & Hs).
  destruct ((b =? -1) && (numSegments d1 <? MAX_SEGMENTS)) eqn:Hg;
    [|injection Hs as <- _; lia].
  apply andb_true_iff in Hg as [_ Hlt%Z.ltb_lt].
  apply bind_Ok in Hs as ([found d2] & He & Hs).
  apply examineSegment_spec in He as (s & _ & _ & _ & _ & _ & Hn2 & _).
  assert (d' = d2) as -> by (destruct found; inv_ok Hs; done).
  lia.
Qed.

Lemma seekPair_bound image ii d d' fit :
  seekPair MAX_SEGMENTS image ii d = Ok (d', fit) →
  numSegments d ≤ MAX_SEGMENTS → numSegments d' ≤ MAX_SEGMENTS.
Proof.
  unfold seekPair. intros Hs Hn.
  apply bind_Ok in Hs as (b0 & _ & Hs).
  apply bind_Ok in Hs as (d1 & Hc & Hs).
  assert (numSegments d1 = numSegments d) as Hn1.
  { destruct (b0 =? 0); [|by injection Hc as <-].
    apply bind_Ok in Hc as (s & _ & Hc).
    destruct (s <? threshold d); [|by injection Hc as <-].
    apply bind_Ok in Hc as (buf & _ & Hc). injection Hc as <-. by destruct d. }
  apply bind_Ok in Hs as (b & _ & Hs).
  destruct ((b =? -2) && (numSegments d1 <? MAX_SEGMENTS)) eqn:Hg;
    [|injection Hs as <- _; lia].
  apply andb_true_iff in Hg as [_ Hlt%Z.ltb_lt]. cbv zeta in Hs.
  apply bind_Ok in Hs as ([found d2] & He & Hs).
  apply examineSegment_spec in He as (s & _ & _ & _ & _ & _ & Hn2 & _).
  replace (numSegments (set_queueStart 0 (set_queueEnd 0 d1)))
    with (numSegments d1) in Hn2 by by destruct d1.
  destruct found; [|injection Hs as <- _; lia].
  apply seekInner_bound in Hs; [done|lia].
Qed.

Lemma scanLoop_bound fuel image start ii d d' :
  scanLoop MAX_SEGMENTS fuel image start ii d = Ok d' →
  numSegments d ≤ MAX_SEGMENTS → numSegments d' ≤ MAX_SEGMENTS.
Proof.
  revert ii d. induction fuel as [|fuel IH]; intros ii d Hs Hn;
    cbn [scanLoop] in Hs; [done|].
  apply bind_Ok in Hs as ([d1 ii1] & Hstep & Hs). cbv zeta in Hs.
  assert (numSegments d1 ≤ MAX_SEGMENTS) as Hn1.
  { unfold scanStep in Hstep.
    apply bind_Ok in Hstep as ([dm fit] & Hseek & Hstep).
    apply seekPair_bound in Hseek; [|done].
    destruct fit; [|by injection Hstep as <- _].
    apply shapeFit_spec in Hstep as (_ & _ & _ & _ & _ & _ & _ & Hnum & _).
    lia. }
  destruct (nextIndex d1 ii1 =? start); [by injection Hs as <-|].
  by eapply IH.
Qed.

(** The tracking update writes the threshold, the counters and two
    flags only. *)
Lemma trackingUpdate_arrays result d d' :
  trackingUpdate result d = Ok d' →
  buffer d' = buffer d ∧ queue d' = queue d
  ∧ segmentArray d' = segmentArray d ∧ numSegments d' = numSegments d
  ∧ queueStart d' = queueStart d ∧ queueEnd d' = queueEnd d
  ∧ queueOldStart d' = queueOldStart d.
Proof.
  unfold trackingUpdate. intros Hu.
  apply bind_Ok in Hu as (ok & _ & Hu). cbv zeta in Hu.
  assert (buffer (set_lastTrackOK ok d) = buffer d
          ∧ queue (set_lastTrackOK ok d) = queue d
          ∧ segmentArray (set_lastTrackOK ok d) = segmentArray d
          ∧ numSegments (set_lastTrackOK ok d) = numSegments d
          ∧ queueStart (set_lastTrackOK ok d) = queueStart d
          ∧ queueEnd (set_lastTrackOK ok d) = queueEnd d
          ∧ queueOldStart (set_lastTrackOK ok d) = queueOldStart d)
    as (<- & <- & <- & <- & <- & <- & <-) by by destruct d.
  revert Hu. generalize (set_lastTrackOK ok d). clear d. intros d Hu.
  unfold changeThreshold in Hu. cbv zeta in Hu. cbn [snd] in Hu.
  repeat match type of Hu with
         | context [if ?c then _ else _] => destruct c
         end; injection Hu as <-; by destruct d.
Qed.

(** X7.  A frame never counts more than [MAX_SEGMENTS] segments: the
    count starts from 0 and every region is examined under the guard
    [numSegments < MAX_SEGMENTS]. *)
Theorem numSegments_bounded image init d result d' image' :
  0 ≤ MAX_SEGMENTS →
  findSegment MAX_SEGMENTS image init d = Ok (result, d', image') →
  0 ≤ numSegments d' ≤ MAX_SEGMENTS.
Proof.
  intros Hmax Hf.
  pose proof Hf as (ds & dt & Hscan & Hsel & Hupd & Hclean)%findSegment_phases.
  pose proof (scanLoop_scanInv _ _ _ _ _ _ _ (visits_first _ _ _ _)
                (scanInv_start _ _ _) Hscan) as [[Hn0 _] _].
  apply scanLoop_bound in Hscan; [|by destruct d].
  apply trackingUpdate_arrays in Hupd as (_ & _ & _ & Hnt & _).
  apply bufferCleanup_buffer in Hclean as [buf ->].
  replace (numSegments (set_buffer buf dt)) with (numSegments dt) by by destruct dt.
  lia.
Qed.

(** ** The scan in tracking mode *)

(** X8.  With tracking enabled the scan ends with the first pair that
    passes the acceptance test, whether the pair then proves circular or
    not: the shape fit sets the scan position to [start - 1]. *)
Theorem tracking_stops_after_pair fuel image start ii d dm d' ii' :
  track d = true → 0 ≤ start < len d →
  seekPair MAX_SEGMENTS image ii d = Ok (dm, true) →
  shapeFit image start ii dm = Ok (d', ii') →
  scanLoop MAX_SEGMENTS (S fuel) image start ii d = Ok d'.
Proof.
  intros Htrack Hstart Hseek Hfit. cbn [scanLoop]. unfold scanStep.
  rewrite Hseek. cbn [mbind outcome_bind]. rewrite Hfit.
  cbn [mbind outcome_bind]. cbv zeta.
  pose proof (seekPair_settings _ _ _ _ _ Hseek) as Hset.
  pose proof (shapeFit_spec _ _ _ _ _ _ Hfit)
    as (_ & _ & _ & _ & _ & _ & _ & _ & Hset' & -> & _).
  apply settings_fields in Hset as (_ & _ & Hlen & _ & _ & Htr & _).
  apply settings_fields in Hset' as (_ & _ & Hlen' & _).
  rewrite Htr, Htrack. unfold nextIndex. cbv zeta. rewrite Hlen', Hlen.
  replace (start - 1 + 1) with start by lia.
  destruct (Z.leb_spec (len d) start); [lia|]. by rewrite Z.eqb_refl.
Qed.

(** ** The search for a candidate pair *)

(** X9.  The search at one scan position examines at most two regions
    and appends a segment for each after the segments found so far; it
    changes none of these, it leaves the threshold as it was, and it
    leaves every segment it appended with [valid = false]. *)
Theorem seekPair_appends image ii d d' fit :
  seekPair MAX_SEGMENTS image ii d = Ok (d', fit) →
  0 ≤ numSegments d →
  threshold d' = threshold d
  ∧ numSegments d ≤ numSegments d' ≤ numSegments d + 2
  ∧ (∀ j, j < numSegments d → segment d' j = segment d j)
  ∧ (∀ j s, numSegments d ≤ j < numSegments d' → segment d' j = Some s →
       SSegment.valid s = false)
  ∧ (fit = true → numSegments d' = numSegments d + 2).
Proof.
  intros Hs Hn.
  destruct (seekPair_spec _ _ _ _ _ Hs Hn) as (Ht & _ & Hnum & Hold & Hnew & Hfit).
  split; [done|]. split; [done|]. split; [done|]. split; [done|].
  intros ->. by destruct (Hfit eq_refl).
Qed.

(** ** The threshold controller *)

Lemma changeThreshold_threshold d (e : Detector F) :
  numFailed d = numFailed e →
  threshold (snd (changeThreshold d)) = threshold (snd (changeThreshold e)).
Proof. unfold changeThreshold. intros Hn. destruct d, e. simpl in *. by subst. Qed.

Lemma trackingUpdate_law result d d' :
  trackingUpdate result d = Ok d' →
  (lastTrackOK d' = true ↔
   numSegments d = 2
   ∧ ∃ s0 s1, segment d 0 = Some s0 ∧ segment d 1 = Some s1
       ∧ SSegment.valid s0 = true ∧ SSegment.valid s1 = true)
  ∧ (if SSegment.valid result
     then threshold d' = threshold d ∧ lastThreshold d' = threshold d
          ∧ drawAll d' = false
     else lastThreshold d' = lastThreshold d
          ∧ drawAll d' = debug d || drawAll d
          ∧ threshold d' =
              if (numFailed d <? maxFailed d) && negb (numFailed d `rem` 2 =? 0)
              then lastThreshold d
              else threshold
                     (snd (changeThreshold (set_numFailed (numFailed d + 1) d)))).
Proof.
  unfold trackingUpdate. intros Hu.
  apply bind_Ok in Hu as (ok & Hok & Hu). cbv zeta in Hu.
  assert (ok = true ↔
          numSegments d = 2
          ∧ ∃ s0 s1, segment d 0 = Some s0 ∧ segment d 1 = Some s1
              ∧ SSegment.valid s0 = true ∧ SSegment.valid s1 = true) as Hiff.
  { destruct (Z.eqb_spec (numSegments d) 2) as [Hn|Hn].
    - apply bind_Ok in Hok as (s0 & H0%rd_segment & Hok).
      destruct (SSegment.valid s0) eqn:Hv0.
      + apply bind_Ok in Hok as (s1 & H1%rd_segment & Hok).
        injection Hok as <-. split.
        * intros Hv1. split; [done|]. by exists s0, s1.
        * intros (_ & s0' & s1' & H0' & H1' & _ & Hv1). congruence.
      + injection Hok as <-. split; [done|].
        intros (_ & s0' & s1' & H0' & _ & Hv0' & _). congruence.
    - injection Hok as <-. split; [done|]. by intros [? _]. }
  rewrite <- Hiff. clear Hiff Hok.
  set (d1 := set_lastTrackOK ok d) in *.
  assert (ok = lastTrackOK d1
          ∧ threshold d = threshold d1
          ∧ lastThreshold d = lastThreshold d1
          ∧ numFailed d = numFailed d1
          ∧ maxFailed d = maxFailed d1
          ∧ debug d = debug d1
          ∧ drawAll d = drawAll d1)
    as (Hok' & Ht & Hl & Hn & Hm & Hdb & Hda) by (subst d1; by destruct d).
  rewrite (changeThreshold_threshold
             (set_numFailed (numFailed d + 1) d)
             (set_numFailed (numFailed d1 + 1) d1))
    by (rewrite Hn; subst d1; by destruct d).
  rewrite Hok', Ht, Hl, Hn, Hm, Hdb, Hda.
  clear Hok' Ht Hl Hn Hm Hdb Hda. clearbody d1. clear d. rename d1 into d.
  destruct (SSegment.valid result).
  { injection Hu as <-. by destruct d. }
  unfold changeThreshold in *. cbv zeta in *. cbn [snd] in *.
  assert (∃ X, d' = (if debug X then set_drawAll true X else X)
            ∧ lastTrackOK X = lastTrackOK d
            ∧ lastThreshold X = lastThreshold d
            ∧ debug X = debug d ∧ drawAll X = drawAll d
            ∧ threshold X =
                if (numFailed d <? maxFailed d)
                   && negb (numFailed d `rem` 2 =? 0)
                then lastThreshold d
                else threshold
                       (set_threshold
                          (3 * ((256 `quot` thresholdDiv
                                   (numFailed (set_numFailed (numFailed d + 1) d)) 1)
                                * (numFailed (set_numFailed (numFailed d + 1) d)
                                   - thresholdDiv
                                       (numFailed (set_numFailed (numFailed d + 1) d)) 1)
                                + (256 `quot` thresholdDiv
                                     (numFailed (set_numFailed (numFailed d + 1) d)) 1)
                                  `quot` 2))
                          (set_numFailed (numFailed d + 1) d)))
    as (X & -> & HX).
  { destruct (numFailed d <? maxFailed d); cbn [andb].
    - destruct (numFailed d `rem` 2 =? 0); cbn [negb];
        (match type of Hu with
         | Ok (if debug ?Y then _ else _) = _ => exists Y
         end); injection Hu as <-; (split; [reflexivity|]); by destruct d.
    - destruct (16 <? _);
        (match type of Hu with
         | Ok (if debug ?Y then _ else _) = _ => exists Y
         end); injection Hu as <-; (split; [reflexivity|]); by destruct d. }
  destruct HX as (<- & <- & Hdb & <- & <-). rewrite <- Hdb. clear.
  destruct X. record_cbn.
  match goal with |- context [if ?b then _ else _] => destruct b end;
    record_cbn; done.
Qed.

(** X10.  After a frame with a valid result the threshold found by the
    scan is kept and recorded as the last good threshold.  After a frame
    without one the threshold is replaced, whatever the scan left: while
    the failure counter is below [maxFailed], an odd count restores the
    last good threshold and an even count takes the probe of the sweep
    for the incremented counter; from [maxFailed] on every failure takes
    the probe.  The flag [drawAll] is cleared in the first case and set
    in the second when [debug] is set. *)
Theorem threshold_after_frame image init d result d' image' :
  findSegment MAX_SEGMENTS image init d = Ok (result, d', image') →
  if SSegment.valid result
  then lastThreshold d' = threshold d' ∧ drawAll d' = false
  else lastThreshold d' = lastThreshold d
       ∧ drawAll d' = debug d || drawAll d
       ∧ threshold d' =
           if (numFailed d <? maxFailed d) && negb (numFailed d `rem` 2 =? 0)
           then lastThreshold d
           else threshold
                  (snd (changeThreshold (set_numFailed (numFailed d + 1) d))).
Proof.
  intros Hf.
  apply findSegment_phases in Hf as (ds & dt & Hscan & Hsel & Hupd & Hclean).
  apply scanLoop_settings in Hscan.
  assert (settings ds = settings d) as Hset by (rewrite Hscan; by destruct d).
  apply settings_fields in Hset
    as (_ & _ & _ & _ & Hmf & _ & Hdbg & _ & Hlt & Hnf & _ & Hda).
  apply trackingUpdate_law in Hupd as [_ Hlaw].
  apply bufferCleanup_buffer in Hclean as [buf ->].
  replace (lastThreshold (set_buffer buf dt)) with (lastThreshold dt)
    by by destruct dt.
  replace (threshold (set_buffer buf dt)) with (threshold dt) by by destruct dt.
  replace (drawAll (set_buffer buf dt)) with (drawAll dt) by by destruct dt.
  destruct (SSegment.valid result).
  - destruct Hlaw as (-> & -> & ->). done.
  - destruct Hlaw as (-> & -> & ->).
    rewrite Hmf, Hdbg, Hlt, Hnf, Hda.
    rewrite (changeThreshold_threshold
               (set_numFailed (numFailed d + 1) ds)
               (set_numFailed (numFailed d + 1) d)) by by destruct ds, d.
    done.
Qed.

(** X11.  After a frame [lastTrackOK] is set exactly when the frame
    counted two segments and both are valid, that is, when the pattern
    was the one thing the scan examined. *)
Theorem lastTrackOK_after_frame image init d result d' image' :
  findSegment MAX_SEGMENTS image init d = Ok (result, d', image') →
  lastTrackOK d' = true ↔
  numSegments d' = 2
  ∧ ∃ s0 s1, segment d' 0 = Some s0 ∧ segment d' 1 = Some s1
      ∧ SSegment.valid s0 = true ∧ SSegment.valid s1 = true.
Proof.
  intros Hf.
  apply findSegment_phases in Hf as (ds & dt & Hscan & Hsel & Hupd & Hclean).
  pose proof (trackingUpdate_arrays _ _ _ Hupd) as (_ & _ & Hsegs & Hnum & _).
  apply trackingUpdate_law in Hupd as [Hiff _].
  apply bufferCleanup_buffer in Hclean as [buf ->].
  replace (lastTrackOK (set_buffer buf dt)) with (lastTrackOK dt) by by destruct dt.
  replace (numSegments (set_buffer buf dt)) with (numSegments dt) by by destruct dt.
  assert (∀ j, segment (set_buffer buf dt) j = segment ds j) as Hseg.
  { intros j. unfold segment. rewrite <- Hsegs. by destruct dt. }
  rewrite !Hseg, Hnum. exact Hiff.
Qed.

(** ** The labels that a flood fill writes *)

Lemma relabelled_refl type n (b : list Z) : relabelled type n b b.
Proof. split; [done|]. intros p v Hv. exists v. auto. Qed.

Lemma relabelled_trans type n (b1 b2 b3 : list Z) :
  type < 0 → 0 < n →
  relabelled type n b1 b2 → relabelled type n b2 b3 → relabelled type n b1 b3.
Proof.
  intros Ht Hn [Hl1 H1] [Hl2 H2]. split; [congruence|].
  intros p v Hv. destruct (H1 p v Hv) as (v' & Hv' & Hc1).
  destruct (H2 p v' Hv') as (v'' & Hv'' & Hc2).
  exists v''. split; [done|]. lia.
Qed.

Lemma relabelled_insert type n (b : list Z) p v c :
  b !! p = Some v →
  (v = 0 ∧ (c = -1 ∨ c = -2)) ∨ ((v = 0 ∨ v = type) ∧ c = n) →
  relabelled type n b (<[p := c]> b).
Proof.
  intros Hp Hc. split; [by rewrite length_insert|].
  intros p' v' Hv'. destruct (decide (p' = p)) as [->|Hne].
  - exists c. rewrite list_lookup_insert_eq by by eapply lookup_lt_Some.
    split; [done|]. rewrite Hp in Hv'. injection Hv' as <-. lia.
  - exists v'. rewrite list_lookup_insert_ne by done. auto.
Qed.

Lemma classify_relabelled type n image pos d d' :
  classify image pos d = Ok d' →
  ∃ buf, d' = set_buffer buf d ∧ relabelled type n (buffer d) buf.
Proof.
  unfold classify. intros Hc.
  apply bind_Ok in Hc as (b & [Hpos Hb]%rd_Ok & Hc).
  destruct (Z.eqb_spec b 0) as [->|Hne].
  - apply bind_Ok in Hc as (s & _ & Hc).
    apply bind_Ok in Hc as (buf & [_ ->]%wr_Ok & Hc). injection Hc as <-.
    eexists. split; [done|]. eapply relabelled_insert; [done|].
    left. split; [done|]. destruct (threshold d <? s); lia.
  - injection Hc as <-. exists (buffer d).
    split; [by rewrite set_buffer_same|apply relabelled_refl].
Qed.

(** One neighbour: the label buffer is relabelled, and the queue is as it
    was or has the neighbour, which now carries the label, at its end. *)
Lemma probe_relabelled image type sd position d bb d' bb' :
  probe image type sd position (d, bb) = Ok (d', bb') →
  type < 0 → 0 < numSegments d →
  relabelled type (numSegments d) (buffer d) (buffer d')
  ∧ numSegments d' = numSegments d
  ∧ queueOldStart d' = queueOldStart d
  ∧ (queued d' = queued d
     ∨ ∃ pos, 0 ≤ pos ∧ queued d' = queued d ++ [pos]
         ∧ buffer d' !! Z.to_nat pos = Some (numSegments d)).
Proof.
  unfold probe. cbv zeta. intros Hp Ht Hn.
  apply bind_Ok in Hp as (d1 & Hc & Hp).
  apply (classify_relabelled type (numSegments d)) in Hc as (buf & -> & Hrel).
  apply bind_Ok in Hp as (b & [Hpos Hb]%rd_Ok & Hp).
  replace (neighbour (set_buffer buf d) sd position)
    with (neighbour d sd position) in * by by destruct d.
  remember (neighbour d sd position) as pos eqn:Hdef in *. clear Hdef.
  replace (buffer (set_buffer buf d)) with buf in * by by destruct d.
  destruct (Z.eqb_spec b type) as [->|Hne].
  - apply bind_Ok in Hp as (q & [Hq ->]%wr_Ok & Hp).
    apply bind_Ok in Hp as (buf' & [_ ->]%wr_Ok & Hp).
    injection Hp as <- <-.
    replace (queue (set_buffer buf d)) with (queue d) in * by by destruct d.
    replace (queueEnd (set_buffer buf d)) with (queueEnd d) in * by by destruct d.
    split; [|split; [by destruct d|split; [by destruct d|]]].
    + replace (buffer (set_buffer _ _)) with (<[Z.to_nat pos := numSegments d]> buf)
        by by destruct d.
      eapply relabelled_trans; [done|done|exact Hrel|].
      eapply relabelled_insert; [done|]. right. auto.
    + right. exists pos. split; [done|]. split.
      * rewrite queued_set_buffer.
        replace (set_queueEnd (queueEnd (set_buffer buf d) + 1)
                   (set_queue (<[Z.to_nat (queueEnd d) := pos]> (queue d))
                      (set_buffer buf d)))
          with (set_buffer buf
                  (set_queueEnd (queueEnd d + 1)
                     (set_queue (<[Z.to_nat (queueEnd d) := pos]> (queue d)) d)))
          by by destruct d.
        rewrite queued_set_buffer. by apply queued_push.
      * replace (buffer (set_buffer _ _)) with (<[Z.to_nat pos := numSegments d]> buf)
          by by destruct d.
        apply list_lookup_insert_eq. by eapply lookup_lt_Some.
  - injection Hp as <- <-.
    split; [by replace (buffer (set_buffer buf d)) with buf by by destruct d|].
    split; [by destruct d|]. split; [by destruct d|].
    left. by rewrite queued_set_buffer.
Qed.

Lemma relabelled_keeps_label type n (b b' : list Z) p :
  type < 0 → 0 < n → relabelled type n b b' →
  b !! p = Some n → b' !! p = Some n.
Proof.
  intros Ht Hn [_ Hrel] Hp. destruct (Hrel p n Hp) as (v' & Hv' & Hc).
  rewrite Hv'. f_equal. lia.
Qed.

Lemma probe_marked image type sd position d bb d' bb' (q0 : nat) :
  probe image type sd position (d, bb) = Ok (d', bb') →
  type < 0 → 0 < numSegments d →
  relabelled type (numSegments d) (buffer d) (buffer d')
  ∧ numSegments d' = numSegments d
  ∧ queueOldStart d' = queueOldStart d
  ∧ ((∀ p, p ∈ drop q0 (queued d) →
           0 ≤ p ∧ buffer d !! Z.to_nat p = Some (numSegments d)) →
     (∀ p, p ∈ drop q0 (queued d') →
           0 ≤ p ∧ buffer d' !! Z.to_nat p = Some (numSegments d))).
Proof.
  intros Hp Ht Hn.
  destruct (probe_relabelled _ _ _ _ _ _ _ _ Hp Ht Hn) as (Hrel & Hnum & Hold & Hq).
  split; [done|]. split; [done|]. split; [done|].
  intros Hm p Hin.
  destruct Hq as [Hq|(pos & Hpos & Hq & Hlab)]; rewrite Hq in Hin.
  - destruct (Hm p Hin) as [H0 Hl]. split; [done|].
    by eapply relabelled_keeps_label.
  - rewrite drop_app in Hin. apply elem_of_app in Hin as [Hin|Hin].
    + destruct (Hm p Hin) as [H0 Hl]. split; [done|].
      by eapply relabelled_keeps_label.
    + destruct (q0 - length (queued d))%nat; simpl in Hin.
      * by apply list_elem_of_singleton in Hin as ->.
      * rewrite drop_nil in Hin. by apply elem_of_nil in Hin.
Qed.

Lemma floodFill_marked fuel image type d bb d' bb' (q0 : nat) :
  floodFill fuel image type (d, bb) = Ok (d', bb') →
  type < 0 → 0 < numSegments d →
  relabelled type (numSegments d) (buffer d) (buffer d')
  ∧ numSegments d' = numSegments d
  ∧ queueOldStart d' = queueOldStart d
  ∧ ((∀ p, p ∈ drop q0 (queued d) →
           0 ≤ p ∧ buffer d !! Z.to_nat p = Some (numSegments d)) →
     (∀ p, p ∈ drop q0 (queued d') →
           0 ≤ p ∧ buffer d' !! Z.to_nat p = Some (numSegments d))).
Proof.
  revert d bb. induction fuel as [|fuel IH]; intros d bb Hf Ht Hn;
    cbn [floodFill fst] in Hf.
  { destruct (queueStart d <? queueEnd d); [done|]. injection Hf as <- <-.
    split; [apply relabelled_refl|]. split; [done|]. split; done. }
  destruct (queueStart d <? queueEnd d); cycle 1.
  { injection Hf as <- <-.
    split; [apply relabelled_refl|]. split; [done|]. split; done. }
  apply bind_Ok in Hf as (position & _ & Hf). cbv zeta in Hf.
  assert (buffer (set_queueStart (queueStart d + 1) d) = buffer d
          ∧ numSegments (set_queueStart (queueStart d + 1) d) = numSegments d
          ∧ queueOldStart (set_queueStart (queueStart d + 1) d) = queueOldStart d)
    as (Hb0 & Hn0 & Ho0) by by destruct d.
  pose proof (queued_set_queueStart (queueStart d + 1) d) as Hq0.
  revert Hf Hb0 Hn0 Ho0 Hq0. generalize (set_queueStart (queueStart d + 1) d).
  intros d0 Hf Hb0 Hn0 Ho0 Hq0.
  apply bind_Ok in Hf as ([d1 bb1] & H1 & Hf).
  apply bind_Ok in Hf as ([d2 bb2] & H2 & Hf).
  apply bind_Ok in Hf as ([d3 bb3] & H3 & Hf).
  apply bind_Ok in Hf as ([d4 bb4] & H4 & Hf).
  apply (probe_marked _ _ _ _ _ _ _ _ q0) in H1 as (R1 & N1 & O1 & M1); [|done|lia].
  rewrite Hn0 in R1, N1, M1. rewrite Hb0 in R1. rewrite Hb0, Hq0 in M1.
  apply (probe_marked _ _ _ _ _ _ _ _ q0) in H2 as (R2 & N2 & O2 & M2); [|done|lia].
  rewrite N1 in R2, N2, M2.
  apply (probe_marked _ _ _ _ _ _ _ _ q0) in H3 as (R3 & N3 & O3 & M3); [|done|lia].
  rewrite N2 in R3, N3, M3.
  apply (probe_marked _ _ _ _ _ _ _ _ q0) in H4 as (R4 & N4 & O4 & M4); [|done|lia].
  rewrite N3 in R4, N4, M4.
  apply (IH _ _) in Hf as (R5 & N5 & O5 & M5); [|done|lia].
  rewrite N4 in R5, N5, M5.
  split; [|split; [done|split; [congruence|]]];
    [|intros Hm; by apply M5, M4, M3, M2, M1].
  eapply relabelled_trans; [done|done|exact R1|].
  eapply relabelled_trans; [done|done|exact R2|].
  eapply relabelled_trans; [done|done|exact R3|].
  eapply relabelled_trans; [done|done|exact R4|exact R5].
Qed.

(** X12.  A flood fill started at a pixel of a class ([type] is -1 or -2)
    touches only unclassified pixels and pixels of that class: every
    other cell of the label buffer, in particular every cell that carries
    the label of an earlier segment or the sentinel of the border, keeps
    its label; an unclassified cell is classified or joins the segment;
    and the seed and every pixel of the region the fill has put in the
    queue carry the label of the new segment, [numSegments + 1]. *)
Theorem examineSegment_labels image si ii areaRatio d found d' type :
  examineSegment image si ii areaRatio d = Ok (found, d') →
  0 ≤ numSegments d → queueEnd d ≤ queueStart d →
  buffer d !! Z.to_nat ii = Some type → type < 0 →
  relabelled type (numSegments d + 1) (buffer d) (buffer d')
  ∧ (∀ p v, buffer d !! p = Some v → v ≠ 0 → v ≠ type →
       buffer d' !! p = Some v)
  ∧ buffer d' !! Z.to_nat ii = Some (numSegments d + 1)
  ∧ ∀ p, p ∈ lastRegion d' →
      0 ≤ p ∧ buffer d' !! Z.to_nat p = Some (numSegments d + 1).
Proof.
  intros He Hn Hq Hii Ht.
  assert (relabelled type (numSegments d + 1) (buffer d) (buffer d')
          ∧ buffer d' !! Z.to_nat ii = Some (numSegments d + 1)
          ∧ ∀ p, p ∈ lastRegion d' →
              0 ≤ p ∧ buffer d' !! Z.to_nat p = Some (numSegments d + 1))
    as (Hrel & Hseed & Hmark).
  { unfold examineSegment in He. cbv zeta in He.
    apply bind_Ok in He as (type' & [Hii0 Htype]%rd_Ok & He).
    replace (buffer (set_queueOldStart (queueStart d) d)) with (buffer d)
      in Htype by by destruct d.
    rewrite Hii in Htype. injection Htype as <-.
    apply bind_Ok in He as (segmen & _ & He).
    apply bind_Ok in He as (buf & [_ ->]%wr_Ok & He).
    apply bind_Ok in He as (q & [Hqe ->]%wr_Ok & He).
    apply bind_Ok in He as ([d4 bb4] & Hfill & He).
    apply bind_Ok in He as ([result segmen'] & _ & He).
    apply bind_Ok in He as (segs & _ & He). injection He as _ <-.
    match type of Hfill with
    | floodFill _ _ _ (?x, _) = _ => set (d3 := x) in *
    end.
    assert (numSegments d3 = numSegments d + 1
            ∧ buffer d3 = <[Z.to_nat ii := numSegments d + 1]> (buffer d)
            ∧ queueOldStart d3 = queueStart d
            ∧ queued d3 = queued d ++ [ii]) as (Hn3 & Hb3 & Ho3 & Hq3).
    { subst d3. split; [by destruct d|]. split; [by destruct d|].
      split; [by destruct d|].
      rewrite queued_push by exact Hqe. by f_equal. }
    clearbody d3.
    apply (floodFill_marked _ _ _ _ _ _ _ (Z.to_nat (queueStart d))) in Hfill
      as (R & N & O & M); [|done|lia].
    rewrite Hn3 in R, M. rewrite Hb3 in R, M. rewrite Hq3 in M.
    replace (buffer (set_segmentArray segs d4)) with (buffer d4) by by destruct d4.
    assert (<[Z.to_nat ii := numSegments d + 1]> (buffer d) !! Z.to_nat ii
            = Some (numSegments d + 1)) as Hseed
      by (apply list_lookup_insert_eq; by eapply lookup_lt_Some).
    split; [|split].
    - eapply relabelled_trans; [done|lia| |exact R].
      eapply relabelled_insert; [done|]. right. auto.
    - eapply relabelled_keeps_label; [done| |exact R|exact Hseed]. lia.
    - unfold lastRegion.
      replace (queueOldStart (set_segmentArray segs d4)) with (queueOldStart d4)
        by by destruct d4.
      replace (queued (set_segmentArray segs d4)) with (queued d4)
        by (unfold queued; by destruct d4).
      rewrite O, Ho3. apply M. intros p Hin.
      rewrite drop_app in Hin. apply elem_of_app in Hin as [Hin|Hin].
      + rewrite drop_ge in Hin; [by apply elem_of_nil in Hin|].
        unfold queued. rewrite length_take. lia.
      + destruct (_ - _)%nat; simpl in Hin.
        * by apply list_elem_of_singleton in Hin as ->.
        * rewrite drop_nil in Hin. by apply elem_of_nil in Hin. }
  split; [done|]. split; [|done].
  intros p v Hv H0 Hty. destruct Hrel as [_ Hrel].
  destruct (Hrel p v Hv) as (v' & Hv' & Hc). rewrite Hv'. f_equal. lia.
Qed.

(** ** What a call does to the frame *)

(** The blackening loop of lines 480-486. *)
Lemma blacken_loop (q : list Z) lo hi (dat dat' : list Z) :
  for_range lo hi (blackenStep q) dat = Ok dat' →
  length dat' = length dat
  ∧ ∀ k, (k < length dat)%nat →
      dat' !! k
      = if decide (Z.of_nat k `div` 3
                   ∈ drop (Z.to_nat lo) (take (Z.to_nat hi) q))
        then Some 0 else dat !! k.
Proof.
  intros Hl.
  set (P := λ (j : Z) (t : list Z),
         (lo < j → 0 ≤ lo)
         ∧ length t = length dat
         ∧ ∀ k, (k < length dat)%nat →
             t !! k
             = if decide (Z.of_nat k `div` 3
                          ∈ drop (Z.to_nat lo) (take (Z.to_nat j) q))
               then Some 0 else dat !! k).
  assert (P (Z.max lo hi) dat') as (_ & Hlen & Hcells).
  { eapply (for_range_inv P); [| |exact Hl]; unfold P.
    - intros j t t' Hj (Hlo & Hlen & Hcells) Hstep. unfold blackenStep in Hstep.
      apply bind_Ok in Hstep as (pos & [Hj0 Hpos]%rd_Ok & Hstep).
      apply bind_Ok in Hstep as (t1 & [H1 ->]%wr_Ok & Hstep).
      apply bind_Ok in Hstep as (t2 & [H2 ->]%wr_Ok & Hstep).
      apply wr_Ok in Hstep as [H3 ->].
      assert (0 ≤ lo) as Hlo0 by lia.
      apply lookup_lt_Some in Hpos as Hjq.
      split; [done|]. split; [by rewrite !length_insert|].
      intros k Hk. specialize (Hcells k Hk).
      replace (Z.to_nat (j + 1)) with (S (Z.to_nat j)) by lia.
      rewrite (take_S_r _ _ pos) by done.
      rewrite drop_app_le by (rewrite length_take; lia).
      assert (Z.of_nat k `div` 3 = pos ↔
              k = Z.to_nat (3 * pos + 0) ∨ k = Z.to_nat (3 * pos + 1)
              ∨ k = Z.to_nat (3 * pos + 2)) as Hk3.
      { pose proof (Z.div_mod (Z.of_nat k) 3 ltac:(lia)) as Hdm.
        pose proof (Z.mod_pos_bound (Z.of_nat k) 3 ltac:(lia)) as Hm.
        split; [intros <-; lia|]. intros Hc.
        assert (3 * pos ≤ Z.of_nat k < 3 * pos + 3) as Hr by lia.
        symmetry. apply (Z.div_unique _ _ _ (Z.of_nat k - 3 * pos)); lia. }
      destruct (decide (Z.of_nat k `div` 3 = pos)) as [Heq|Hne].
      + rewrite decide_True by (apply elem_of_app; right; by apply list_elem_of_singleton).
        apply Hk3 in Heq.
        destruct (decide (k = Z.to_nat (3 * pos + 2))) as [->|N2].
        { apply list_lookup_insert_eq. rewrite !length_insert. lia. }
        rewrite list_lookup_insert_ne by done.
        destruct (decide (k = Z.to_nat (3 * pos + 1))) as [->|N1].
        { apply list_lookup_insert_eq. rewrite !length_insert. lia. }
        rewrite list_lookup_insert_ne by done.
        assert (k = Z.to_nat (3 * pos + 0)) as -> by lia.
        apply list_lookup_insert_eq. lia.
      + rewrite !list_lookup_insert_ne by (intros <-; apply Hne, Hk3; auto).
        rewrite Hcells. apply decide_ext. rewrite elem_of_app, list_elem_of_singleton.
        tauto.
    - split; [lia|]. split; [done|]. intros k Hk.
      rewrite decide_False; [done|].
      rewrite drop_ge; [apply not_elem_of_nil|]. rewrite length_take. lia. }
  split; [done|]. intros k Hk. rewrite (Hcells k Hk).
  destruct (Z.max_spec lo hi) as [[Hlt ->]|[Hge ->]]; [done|].
  apply decide_ext.
  rewrite !drop_ge by (rewrite length_take; lia). done.
Qed.

(** X13.  With [draw] off a call changes the frame in one way only: the
    three samples of every pixel of the last region examined,
    [queue[queueOldStart .. queueEnd)] as the call leaves them, are set
    to 0, whether the region was accepted or not; every other sample and
    the size of the frame are as before. *)
Theorem frame_after_call image init d result d' image' :
  draw d = false →
  findSegment MAX_SEGMENTS image init d = Ok (result, d', image') →
  getwidth image' = getwidth image ∧ getheight image' = getheight image
  ∧ length (data image') = length (data image)
  ∧ ∀ k, (k < length (data image))%nat →
      data image' !! k
      = if decide (Z.of_nat k `div` 3 ∈ lastRegion d')
        then Some 0 else data image !! k.
Proof.
  intros Hdraw Hf. unfold findSegment in Hf.
  apply bind_Ok in Hf as (ds & Hscan & Hf).
  apply bind_Ok in Hf as (r & Hsel & Hf).
  apply bind_Ok in Hf as (dt & Hupd & Hf).
  apply bind_Ok in Hf as (dat & Hblack & Hf).
  apply bind_Ok in Hf as (dat' & Hdr & Hf).
  apply bind_Ok in Hf as (dc & Hclean & Hf).
  injection Hf as <- <- <-.
  assert (draw dt = false) as Hdt.
  { apply scanLoop_settings, configuration_settings in Hscan.
    apply trackingUpdate_configuration in Hupd.
    rewrite Hscan in Hupd.
    apply configuration_fields in Hupd as (_ & _ & _ & _ & _ & _ & _ & -> & _).
    by destruct d. }
  rewrite Hdt in Hdr. injection Hdr as <-.
  apply bufferCleanup_buffer in Hclean as [buf ->].
  apply blacken_loop in Hblack as [Hlen Hcells].
  split; [done|]. split; [done|]. split; [done|].
  intros k Hk. cbn [data set_data]. rewrite (Hcells k Hk).
  apply decide_ext. unfold lastRegion, queued. by destruct dt.
Qed.

(** ** Flood fills that stay inside the frame *)

Lemma succeeds_bind {A B} (P : A → Prop) (Q : B → Prop) (m : outcome A)
    (k : A → outcome B) :
  succeeds P m → (∀ a, P a → succeeds Q (k a)) → succeeds Q (m ≫= k).
Proof. destruct m; simpl; [auto|done]. Qed.

Lemma succeeds_mono {A} (P Q : A → Prop) (m : outcome A) :
  succeeds P m → (∀ a, P a → Q a) → succeeds Q m.
Proof. destruct m; simpl; auto. Qed.

Lemma succeeds_Ok {A} (P : A → Prop) (m : outcome A) :
  succeeds P m → ∃ a, m = Ok a ∧ P a.
Proof. destruct m; simpl; [eauto|done]. Qed.

Lemma succeeds_with_eq {A} (P : A → Prop) (m : outcome A) :
  succeeds P m → succeeds (λ a, P a ∧ m = Ok a) m.
Proof. destruct m; simpl; auto. Qed.

Lemma succeeds_rd {A} e (l : list A) i :
  0 ≤ i < Z.of_nat (length l) →
  succeeds (λ a, l !! Z.to_nat i = Some a) (rd e l i).
Proof. intros Hi. by destruct (rd_total e l i Hi) as (a & -> & Ha). Qed.

Lemma succeeds_wr {A} e (l : list A) i v :
  0 ≤ i < Z.of_nat (length l) →
  succeeds (λ l', l' = <[Z.to_nat i := v]> l) (wr e l i v).
Proof. intros Hi. by rewrite wr_total. Qed.

Lemma succeeds_for_range {St} (P : Z → St → Prop) lo hi
    (body : Z → St → outcome St) s :
  (∀ j t, lo ≤ j < hi → P j t → succeeds (P (j + 1)) (body j t)) →
  P lo s → succeeds (P (Z.max lo hi)) (for_range lo hi body s).
Proof.
  unfold for_range. intros Hb Hlo.
  replace (Z.max lo hi) with (lo + Z.of_nat (Z.to_nat (hi - lo))) by lia.
  assert (∀ j t, lo ≤ j < lo + Z.of_nat (Z.to_nat (hi - lo)) → P j t →
            succeeds (P (j + 1)) (body j t)) as Hb'
    by (intros j t ?; apply Hb; lia).
  clear Hb. revert Hb' Hlo. generalize (Z.to_nat (hi - lo)). intros n.
  revert lo s. induction n as [|n IH]; intros lo s Hb Hlo; simpl.
  - by rewrite Z.add_0_r.
  - eapply succeeds_bind; [apply Hb; [lia|done]|].
    intros t Ht. replace (lo + Z.of_nat (S n)) with (lo + 1 + Z.of_nat n) by lia.
    apply IH; [|done]. intros j u ?. apply Hb. lia.
Qed.

(** A pixel in the queue carries the label of a segment, so it is no
    pixel of the border: its four neighbours are pixels of the frame. *)
Lemma queued_interior d p :
  fenced d → seedReady d → p ∈ queued d →
  width d ≤ p - 1 ∧ p + 1 + width d < len d.
Proof.
  intros (Hw & Hh & Hlen & Hbuf & Hfence)
    ((_ & _ & _ & _ & _ & _ & Hin) & _ & Hlab) Hp.
  destruct (Hlab p Hp) as (v & Hv & Hpos). specialize (Hin p Hp).
  set (x := p `mod` width d). set (y := p `div` width d).
  assert (p = y * width d + x) as Hxy
    by (subst x y; rewrite (Z.mul_comm _ (width d)); apply Z.div_mod; lia).
  assert (0 ≤ x < width d) as Hx by (apply Z.mod_pos_bound; lia).
  assert (0 ≤ y < height d) as Hy.
  { split; [apply Z.div_pos; lia|]. apply Z.div_lt_upper_bound; lia. }
  destruct (onBorder d x y) eqn:Hb.
  { specialize (Hfence x y Hx Hy Hb). unfold cell in Hfence.
    rewrite <- Hxy, Hv in Hfence. injection Hfence as ->. lia. }
  unfold onBorder in Hb.
  apply orb_false_iff in Hb as [Hb Hy1]. apply orb_false_iff in Hb as [Hb Hy0].
  apply orb_false_iff in Hb as [Hx0 Hx1].
  apply Z.eqb_neq in Hx0, Hx1, Hy0, Hy1.
  assert (1 * width d ≤ y * width d) by (apply Z.mul_le_mono_nonneg_r; lia).
  assert ((y + 2) * width d ≤ height d * width d)
    by (apply Z.mul_le_mono_nonneg_r; lia).
  lia.
Qed.

Lemma neighbour_range d sd p :
  fenced d → seedReady d → p ∈ queued d → 0 ≤ neighbour d sd p < len d.
Proof.
  intros Hf Hs Hp. pose proof (queued_interior d p Hf Hs Hp) as [H1 H2].
  destruct Hf as (Hw & _). destruct sd; simpl; lia.
Qed.

Lemma fenced_set_buffer buf d :
  length buf = length (buffer d) →
  (∀ p, buffer d !! p = Some (-1000) → buf !! p = Some (-1000)) →
  fenced d → fenced (set_buffer buf d).
Proof.
  intros Hl Hkeep (Hw & Hh & Hlen & Hbuf & Hfence).
  destruct d. unfold fenced, cell, onBorder in *. simpl in *.
  split; [done|]. split; [done|]. split; [done|]. split; [lia|]. auto.
Qed.

Lemma fenced_ext d d' :
  buffer d' = buffer d → width d' = width d → height d' = height d →
  len d' = len d → fenced d → fenced d'.
Proof.
  intros Hb Hw Hh Hl. unfold fenced, cell, onBorder. by rewrite Hb, Hw, Hh, Hl.
Qed.

Lemma relabelled_fenced type n d d' :
  type ≠ -1000 → n ≠ -1000 →
  relabelled type n (buffer d) (buffer d') →
  width d' = width d → height d' = height d → len d' = len d →
  fenced d → fenced d'.
Proof.
  intros Ht Hn [Hl Hrel] Hw Hh Hlen (Hw0 & Hh0 & Hlen0 & Hbuf & Hfence).
  unfold fenced, cell, onBorder. rewrite Hw, Hh, Hlen, Hl.
  split; [done|]. split; [done|]. split; [done|]. split; [done|].
  intros x y Hx Hy Hb. destruct (Hrel _ _ (Hfence x y Hx Hy Hb)) as (v' & Hv' & Hc).
  unfold cell in Hv'. rewrite Hv'. f_equal. lia.
Qed.

Lemma pixelSum_succeeds image pos d :
  fits image d → 0 ≤ pos < len d → succeeds (λ _, True) (pixelSum image pos).
Proof.
  unfold fits, pixelSum. intros Hfit Hpos.
  eapply succeeds_bind; [apply succeeds_rd; lia|]. intros p0 _.
  eapply succeeds_bind; [apply succeeds_rd; lia|]. intros p1 _.
  eapply succeeds_bind; [apply succeeds_rd; lia|]. intros p2 _. done.
Qed.

Lemma classify_succeeds image pos d :
  fits image d → Z.of_nat (length (buffer d)) = len d → 0 ≤ pos < len d →
  succeeds (λ _, True) (classify image pos d).
Proof.
  intros Hfit Hbuf Hpos. unfold classify.
  eapply succeeds_bind; [apply succeeds_rd; lia|]. intros b _. cbv beta.
  destruct (b =? 0); [|done].
  eapply succeeds_bind; [by eapply pixelSum_succeeds|]. intros s _.
  eapply succeeds_bind; [apply succeeds_wr; lia|]. done.
Qed.

(** One neighbour, from a pixel in the queue. *)
Lemma probe_succeeds image type sd position d bb :
  fillReady d → fenced d → fits image d → type = -1 ∨ type = -2 →
  position ∈ queued d →
  succeeds (λ st', fillReady (fst st') ∧ fenced (fst st')
                   ∧ queueStart (fst st') = queueStart d
                   ∧ position ∈ queued (fst st')
                   ∧ settings (fst st') = settings d)
    (probe image type sd position (d, bb)).
Proof.
  intros Hready Hfenced Hfit Htype Hpos.
  assert (succeeds (λ _, True) (probe image type sd position (d, bb))) as Hs.
  { unfold probe. cbv zeta.
    pose proof Hready as [Hseed Hn].
    pose proof (neighbour_range d sd position Hfenced Hseed Hpos) as Hnb.
    pose proof Hseed as ((Hbl & Hql & _) & _).
    eapply succeeds_bind; [apply succeeds_with_eq, classify_succeeds; done|].
    intros d1 [_ Hc].
    pose proof (classify_guarded image (neighbour d sd position) d) as Hg.
    rewrite Hc in Hg. destruct Hg as (buf & -> & Hl & Hkeep).
    apply (fillReady_set_buffer buf) in Hready as Hready1; [|done..].
    replace (neighbour (set_buffer buf d) sd position)
      with (neighbour d sd position) by by destruct d.
    remember (neighbour d sd position) as pos eqn:Hdef in *. clear Hdef.
    revert Hready1.
    assert (Z.of_nat (length (buffer (set_buffer buf d))) = len (set_buffer buf d)
            ∧ len (set_buffer buf d) = len d) as [Hbl1 Hlen1]
      by (destruct d; simpl in *; lia).
    revert Hbl1 Hlen1. generalize (set_buffer buf d). intros d1 Hbl1 Hlen1 Hready1.
    eapply succeeds_bind; [apply succeeds_rd; lia|]. intros b Hb. cbv beta.
    destruct (Z.eqb_spec b type) as [->|Hne]; [|done].
    destruct Hready1 as [Hseed1 Hn1].
    destruct (push_fillReady d1 pos type Hseed1 Hn1 ltac:(lia) Hb ltac:(lia))
      as [Hroom _].
    destruct Hseed1 as ((_ & Hql1 & _ & _ & Hend1 & _) & _).
    eapply succeeds_bind; [apply succeeds_wr; lia|]. intros q ->.
    eapply succeeds_bind; [apply succeeds_wr|done].
    replace (buffer _) with (buffer d1) by by destruct d1. lia. }
  apply succeeds_Ok in Hs as ([d' bb'] & Heq & _). rewrite Heq. cbn [succeeds fst].
  pose proof (probe_guarded image type sd position d bb Hready ltac:(lia)) as Hg.
  rewrite Heq in Hg. destruct Hg as [Hr Hq]. cbn [fst] in *.
  pose proof (probe_settings _ _ _ _ _ _ Heq) as Hset. cbn [fst] in Hset.
  pose proof Hready as [_ Hn].
  destruct (probe_relabelled _ _ _ _ _ _ _ _ Heq ltac:(lia) ltac:(lia))
    as (Hrel & _ & _ & Hqd).
  apply settings_fields in Hset as Hf. destruct Hf as (Hw & Hh & Hl & _).
  split; [done|]. split; [|split; [done|split; [|done]]].
  - eapply relabelled_fenced; [| |exact Hrel|done..]; lia.
  - destruct Hqd as [->|(pos & _ & -> & _)]; [done|].
    apply elem_of_app. by left.
Qed.

Lemma fits_settings image d d' :
  settings d' = settings d → fits image d → fits image d'.
Proof.
  intros (_ & _ & Hl & _)%settings_fields. unfold fits. by rewrite Hl.
Qed.

Lemma floodFill_succeeds fuel image type d bb :
  fillReady d → fenced d → fits image d → type = -1 ∨ type = -2 →
  len d ≤ Z.of_nat fuel + queueStart d →
  succeeds (λ st', fillReady (fst st') ∧ fenced (fst st')
                   ∧ settings (fst st') = settings d)
    (floodFill fuel image type (d, bb)).
Proof.
  revert d bb. induction fuel as [|fuel IH];
    intros d bb Hready Hfenced Hfit Htype Hfuel; cbn [floodFill fst].
  - destruct (Z.ltb_spec (queueStart d) (queueEnd d)); [|done].
    destruct Hready as (((_ & _ & _ & _ & Hend & _) & _) & _). lia.
  - destruct (Z.ltb_spec (queueStart d) (queueEnd d)) as [Hlt|]; [|done].
    pose proof Hready as (((Hbl & Hql & Hn0 & Hold & Hend & Hnd & Hin) & Hs & Hlab) & Hn).
    destruct (rd_total OobQueue (queue d) (queueStart d)) as (position & -> & Hpos);
      [lia|].
    cbn [mbind outcome_bind].
    assert (position ∈ queued d) as Hq.
    { unfold queued. apply list_elem_of_lookup. exists (Z.to_nat (queueStart d)).
      rewrite lookup_take_lt by lia. done. }
    apply (fillReady_set_queueStart (queueStart d + 1)) in Hready; [|lia].
    apply (fenced_ext d (set_queueStart (queueStart d + 1) d)) in Hfenced;
      [|by destruct d..].
    rewrite <- (queued_set_queueStart (queueStart d + 1) d) in Hq.
    assert (Hd1 : queueStart (set_queueStart (queueStart d + 1) d) = queueStart d + 1
                  ∧ settings (set_queueStart (queueStart d + 1) d) = settings d)
      by by destruct d.
    destruct Hd1 as [Hqs1 Hset1]. revert Hready Hfenced Hq Hqs1 Hset1.
    generalize (set_queueStart (queueStart d + 1) d).
    intros d1 Hready Hfenced Hq Hqs1 Hset1.
    eapply succeeds_bind;
      [apply probe_succeeds; [done|done|by eapply fits_settings|done|done]|].
    intros [d2 bb2] (Hr2 & Hf2 & Hq2 & Hp2 & Hs2). cbn [fst] in *.
    eapply succeeds_bind;
      [apply probe_succeeds;
       [done|done|eapply fits_settings; [|exact Hfit]; congruence|done|done]|].
    intros [d3 bb3] (Hr3 & Hf3 & Hq3 & Hp3 & Hs3). cbn [fst] in *.
    eapply succeeds_bind;
      [apply probe_succeeds;
       [done|done|eapply fits_settings; [|exact Hfit]; congruence|done|done]|].
    intros [d4 bb4] (Hr4 & Hf4 & Hq4 & Hp4 & Hs4). cbn [fst] in *.
    eapply succeeds_bind;
      [apply probe_succeeds;
       [done|done|eapply fits_settings; [|exact Hfit]; congruence|done|done]|].
    intros [d5 bb5] (Hr5 & Hf5 & Hq5 & Hp5 & Hs5). cbn [fst] in *.
    assert (settings d5 = settings d) as Hs5' by congruence.
    eapply succeeds_mono.
    + apply IH; [done|done|by eapply fits_settings|done|].
      apply settings_fields in Hs5' as (_ & _ & Hl & _). lia.
    + intros st' (? & ? & ?). split; [done|]. split; [done|]. congruence.
Qed.

Lemma meanStep_succeeds image (q : list Z) p acc d :
  fits image d → 0 ≤ p < Z.of_nat (length q) →
  (∀ pos, q !! Z.to_nat p = Some pos → 0 ≤ pos < len d) →
  succeeds (λ _, True) (meanStep image q p acc).
Proof.
  unfold fits, meanStep. intros Hfit Hp Hpos.
  eapply succeeds_bind; [by apply succeeds_rd|]. intros pos Hq.
  specialize (Hpos pos Hq).
  eapply succeeds_bind; [apply succeeds_rd; lia|]. intros p0 _.
  eapply succeeds_bind; [apply succeeds_rd; lia|]. intros p1 _.
  eapply succeeds_bind; [apply succeeds_rd; lia|]. intros p2 _. done.
Qed.

Lemma describeSegment_succeeds image type areaRatio bb d segmen :
  scanReady d → fits image d →
  succeeds (λ _, True) (describeSegment image type areaRatio bb d segmen).
Proof.
  intros (Hbl & Hql & Hn0 & Hold & Hend & Hnd & Hin) Hfit.
  unfold describeSegment. cbv zeta.
  destruct (_ <? _); [|done]. destruct (looksRound _ _); [|done].
  eapply succeeds_bind; [|done].
  eapply succeeds_mono; [apply (succeeds_for_range (λ _ _, True)); [|done]|done].
  intros j t Hj _. eapply meanStep_succeeds; [done|lia|].
  intros pos Hpos. apply Hin. unfold queued.
  apply list_elem_of_lookup. exists (Z.to_nat j).
  rewrite lookup_take_lt by lia. done.
Qed.

(** ** The bounding box of a flood fill *)

(** A cell that does not hold the sentinel lies within the border. *)
Lemma interior_cell d p v :
  fenced d → 0 ≤ p < len d → buffer d !! Z.to_nat p = Some v → v ≠ -1000 →
  1 ≤ p `rem` width d ≤ width d - 2 ∧ 1 ≤ p `quot` width d ≤ height d - 2.
Proof.
  intros (Hw & Hh & Hlen & Hbuf & Hfence) Hp Hv Hne.
  rewrite Z.rem_mod_nonneg, Z.quot_div_nonneg by lia.
  set (x := p `mod` width d). set (y := p `div` width d).
  assert (p = y * width d + x) as Hxy
    by (subst x y; rewrite (Z.mul_comm _ (width d)); apply Z.div_mod; lia).
  assert (0 ≤ x < width d) as Hx by (apply Z.mod_pos_bound; lia).
  assert (0 ≤ y < height d) as Hy.
  { split; [apply Z.div_pos; lia|]. apply Z.div_lt_upper_bound; lia. }
  destruct (onBorder d x y) eqn:Hb.
  { specialize (Hfence x y Hx Hy Hb). unfold cell in Hfence.
    rewrite <- Hxy, Hv in Hfence. by injection Hfence. }
  unfold onBorder in Hb.
  apply orb_false_iff in Hb as [Hb Hy1]. apply orb_false_iff in Hb as [Hb Hy0].
  apply orb_false_iff in Hb as [Hx0 Hx1].
  apply Z.eqb_neq in Hx0, Hx1, Hy0, Hy1. lia.
Qed.

Lemma probe_boxed image type sd position d bb d' bb' :
  probe image type sd position (d, bb) = Ok (d', bb') →
  fenced d → 0 ≤ neighbour d sd position < len d → type = -1 ∨ type = -2 →
  boxed d bb → boxed d' bb'.
Proof.
  unfold probe. intros Hp Hf Hnb Ht Hb. cbv zeta in Hp.
  apply bind_Ok in Hp as (d1 & Hc & Hp).
  apply (classify_relabelled (-1) 1) in Hc as (buf & -> & Hrel).
  assert (fenced (set_buffer buf d)) as Hf1.
  { eapply (relabelled_fenced (-1) 1 d); [lia|lia| |by destruct d..|done].
    by replace (buffer (set_buffer buf d)) with buf by by destruct d. }
  replace (neighbour (set_buffer buf d) sd position)
    with (neighbour d sd position) in Hp by by destruct d.
  remember (neighbour d sd position) as pos eqn:Hdef in *. clear Hdef.
  assert (width (set_buffer buf d) = width d
          ∧ height (set_buffer buf d) = height d
          ∧ len (set_buffer buf d) = len d) as (Hw & Hh & Hl) by by destruct d.
  unfold boxed in *. rewrite <- Hw, <- Hh in Hb. rewrite <- Hl in Hnb.
  clear Hrel Hf Hw Hh Hl. revert Hp Hf1 Hb Hnb. generalize (set_buffer buf d). clear d.
  intros d Hp Hf Hb Hnb.
  apply bind_Ok in Hp as (b & [_ Hpos]%rd_Ok & Hp).
  destruct (Z.eqb_spec b type) as [->|Hne]; [|by injection Hp as <- <-].
  apply bind_Ok in Hp as (q & _ & Hp).
  apply bind_Ok in Hp as (buf' & _ & Hp). injection Hp as <- <-.
  destruct (interior_cell d pos type Hf Hnb Hpos ltac:(lia)) as [Hx Hy].
  unfold grow.
  replace (width (set_buffer _ _)) with (width d) by by destruct d.
  replace (height (set_buffer _ _)) with (height d) by by destruct d.
  replace (width (set_queueEnd _ _)) with (width d) by by destruct d.
  destruct sd; cbn [bminx bmaxx bminy bmaxy]; lia.
Qed.

Lemma floodFill_boxed fuel image type d bb d' bb' :
  floodFill fuel image type (d, bb) = Ok (d', bb') →
  fillReady d → fenced d → fits image d → type = -1 ∨ type = -2 →
  boxed d bb → boxed d' bb'.
Proof.
  revert d bb. induction fuel as [|fuel IH];
    intros d bb Hfill Hready Hfenced Hfit Htype Hb; cbn [floodFill fst] in Hfill.
  - destruct (Z.ltb_spec (queueStart d) (queueEnd d)); [done|].
    by injection Hfill as <- <-.
  - destruct (Z.ltb_spec (queueStart d) (queueEnd d)) as [Hlt|];
      [|by injection Hfill as <- <-].
    pose proof Hready
      as (((Hbl & Hql & Hn0 & Hold & Hend & Hnd & Hin) & Hs & Hlab) & Hn).
    apply bind_Ok in Hfill as (position & [_ Hpos]%rd_Ok & Hfill).
    cbv zeta in Hfill.
    assert (position ∈ queued d) as Hq.
    { unfold queued. apply list_elem_of_lookup. exists (Z.to_nat (queueStart d)).
      rewrite lookup_take_lt by lia. done. }
    apply (fillReady_set_queueStart (queueStart d + 1)) in Hready; [|lia].
    apply (fenced_ext d (set_queueStart (queueStart d + 1) d)) in Hfenced;
      [|by destruct d..].
    rewrite <- (queued_set_queueStart (queueStart d + 1) d) in Hq.
    assert (settings (set_queueStart (queueStart d + 1) d) = settings d) as Hset1
      by by destruct d.
    assert (boxed (set_queueStart (queueStart d + 1) d) bb) as Hb1
      by by destruct d.
    apply (fits_settings image _ _ Hset1) in Hfit.
    clear Hb Hset1 Hbl Hql Hn0 Hold Hend Hnd Hin Hs Hlab Hn Hlt Hpos.
    revert Hfill Hready Hfenced Hq Hfit Hb1.
    generalize (set_queueStart (queueStart d + 1) d). clear d.
    intros d Hfill Hready Hfenced Hq Hfit Hb.
    apply bind_Ok in Hfill as ([d1 bb1] & Hp1 & Hfill).
    pose proof (probe_succeeds image type East position d bb
                  Hready Hfenced Hfit Htype Hq) as Hs1.
    rewrite Hp1 in Hs1. destruct Hs1 as (Hr1 & Hf1 & _ & Hq1 & Hs1).
    cbn [fst] in *.
    pose proof (fits_settings image _ _ Hs1 Hfit) as Hfit1.
    apply probe_boxed in Hp1;
      [|done|by eapply neighbour_range; [|apply Hready|]|done|done].
    apply bind_Ok in Hfill as ([d2 bb2] & Hp2 & Hfill).
    pose proof (probe_succeeds image type West position d1 bb1
                  Hr1 Hf1 Hfit1 Htype Hq1) as Hs2.
    rewrite Hp2 in Hs2. destruct Hs2 as (Hr2 & Hf2 & _ & Hq2 & Hs2).
    cbn [fst] in *.
    pose proof (fits_settings image _ _ Hs2 Hfit1) as Hfit2.
    apply probe_boxed in Hp2;
      [|done|by eapply neighbour_range; [|apply Hr1|]|done|done].
    apply bind_Ok in Hfill as ([d3 bb3] & Hp3 & Hfill).
    pose proof (probe_succeeds image type North position d2 bb2
                  Hr2 Hf2 Hfit2 Htype Hq2) as Hs3.
    rewrite Hp3 in Hs3. destruct Hs3 as (Hr3 & Hf3 & _ & Hq3 & Hs3).
    cbn [fst] in *.
    pose proof (fits_settings image _ _ Hs3 Hfit2) as Hfit3.
    apply probe_boxed in Hp3;
      [|done|by eapply neighbour_range; [|apply Hr2|]|done|done].
    apply bind_Ok in Hfill as ([d4 bb4] & Hp4 & Hfill).
    pose proof (probe_succeeds image type South position d3 bb3
                  Hr3 Hf3 Hfit3 Htype Hq3) as Hs4.
    rewrite Hp4 in Hs4. destruct Hs4 as (Hr4 & Hf4 & _ & Hq4 & Hs4).
    cbn [fst] in *.
    pose proof (fits_settings image _ _ Hs4 Hfit3) as Hfit4.
    apply probe_boxed in Hp4;
      [|done|by eapply neighbour_range; [|apply Hr3|]|done|done].
    by eapply IH.
Qed.

Lemma describeSegment_centre image type areaRatio bb d segmen s :
  describeSegment image type areaRatio bb d segmen = Ok (true, s) →
  SSegment.x s = fofZ ((bmaxx bb + bminx bb) `quot` 2)
  ∧ SSegment.y s = fofZ ((bmaxy bb + bminy bb) `quot` 2).
Proof.
  unfold describeSegment. cbv zeta. intros Hd.
  destruct (_ <? _); [|done]. destruct (looksRound _ _); [|done].
  apply bind_Ok in Hd as (m & _ & Hd). injection Hd as <-.
  unfold boundSegment. by destruct segmen.
Qed.

(** [examineSegment] returns, and a segment that it reports as round has
    the centre of its bounding box within the border. *)
Lemma examineSegment_total image si ii areaRatio d type :
  seedReady d → fenced d → fits image d →
  0 ≤ si < Z.of_nat (length (segmentArray d)) →
  0 ≤ ii → buffer d !! Z.to_nat ii = Some type → type = -1 ∨ type = -2 →
  succeeds (λ r, seedReady (snd r) ∧ fenced (snd r)
                 ∧ settings (snd r) = settings d
                 ∧ (fst r = true →
                    ∃ s cx cy, segmentArray (snd r) !! Z.to_nat si = Some s
                      ∧ SSegment.x s = fofZ cx ∧ SSegment.y s = fofZ cy
                      ∧ 1 ≤ cx ≤ width d - 2 ∧ 1 ≤ cy ≤ height d - 2))
    (examineSegment image si ii areaRatio d).
Proof.
  intros Hseed Hfenced Hfit Hsi Hii0 Hii Htype.
  pose proof (examineSegment_guarded image si ii areaRatio d Hseed) as Hguard.
  assert (∀ w h, width d = w → height d = h →
          succeeds (λ r, fenced (snd r) ∧ settings (snd r) = settings d
                     ∧ (fst r = true →
                        ∃ s cx cy, segmentArray (snd r) !! Z.to_nat si = Some s
                          ∧ SSegment.x s = fofZ cx ∧ SSegment.y s = fofZ cy
                          ∧ 1 ≤ cx ≤ w - 2 ∧ 1 ≤ cy ≤ h - 2))
            (examineSegment image si ii areaRatio d)) as Hs; cycle 1.
  { specialize (Hs _ _ eq_refl eq_refl).
    apply succeeds_Ok in Hs as ([found d'] & Heq & Hf & Hset & Hc).
    rewrite Heq in *. cbn [succeeds guarded snd] in *.
    split; [|done]. apply Hguard. intros t Ht. rewrite Hii in Ht.
    injection Ht as <-. lia. }
  clear Hguard. intros w h Hw Hh. unfold examineSegment. cbv zeta.
  assert (seedReady (set_queueOldStart (queueStart d) d)) as Hseed0.
  { destruct Hseed as ((Hbl & Hql & Hn0 & Hold & Hend & Hnd & Hin) & Hs & Hlab).
    destruct d. done. }
  apply (fenced_ext d (set_queueOldStart (queueStart d) d)) in Hfenced;
    [|by destruct d..].
  assert (buffer (set_queueOldStart (queueStart d) d) = buffer d
          ∧ segmentArray (set_queueOldStart (queueStart d) d) = segmentArray d
          ∧ settings (set_queueOldStart (queueStart d) d) = settings d
          ∧ width (set_queueOldStart (queueStart d) d) = width d
          ∧ height (set_queueOldStart (queueStart d) d) = height d)
    as (Hb0 & Hsg0 & Hset0 & Hw0 & Hh0) by by destruct d.
  rewrite <- Hb0 in Hii. rewrite <- Hsg0 in Hsi. rewrite <- Hset0.
  rewrite <- Hw0 in Hw. rewrite <- Hh0 in Hh.
  apply (fits_settings image _ _ Hset0) in Hfit.
  clear Hseed Hb0 Hsg0 Hset0 Hw0 Hh0. revert Hseed0 Hfenced Hfit Hsi Hii Hw Hh.
  generalize (set_queueOldStart (queueStart d) d). clear d.
  intros d Hseed Hfenced Hfit Hsi Hii Hw Hh.
  apply lookup_lt_Some in Hii as Hlt.
  eapply succeeds_bind; [apply succeeds_rd; lia|]. intros type' Hty.
  rewrite Hii in Hty. injection Hty as <-.
  eapply succeeds_bind; [by apply succeeds_rd|]. intros segmen _.
  assert (seedReady (set_numSegments (numSegments d + 1) d)
          ∧ 1 ≤ numSegments (set_numSegments (numSegments d + 1) d)) as [Hseed1 Hn1].
  { destruct Hseed as ((Hbl & Hql & Hn0 & Hold & Hend & Hnd & Hin) & Hs & Hlab).
    split; [|destruct d; simpl in *; lia].
    destruct d. split; [|done]. unfold scanReady in *; simpl in *.
    split; [done|]. split; [done|]. split; [lia|]. done. }
  apply (fenced_ext d (set_numSegments (numSegments d + 1) d)) in Hfenced;
    [|by destruct d..].
  assert (buffer (set_numSegments (numSegments d + 1) d) = buffer d
          ∧ segmentArray (set_numSegments (numSegments d + 1) d) = segmentArray d
          ∧ settings (set_numSegments (numSegments d + 1) d) = settings d
          ∧ width (set_numSegments (numSegments d + 1) d) = width d
          ∧ height (set_numSegments (numSegments d + 1) d) = height d)
    as (Hb1 & Hsg1 & Hset1 & Hw1 & Hh1) by by destruct d.
  rewrite <- Hb1 in Hii, Hlt. rewrite <- Hsg1 in Hsi. rewrite <- Hset1.
  rewrite <- Hw1 in Hw. rewrite <- Hh1 in Hh.
  apply (fits_settings image _ _ Hset1) in Hfit.
  clear Hseed Hb1 Hsg1 Hset1 Hw1 Hh1.
  revert Hseed1 Hn1 Hfenced Hfit Hsi Hii Hlt Hw Hh.
  generalize (set_numSegments (numSegments d + 1) d). clear d.
  intros d Hseed Hn Hfenced Hfit Hsi Hii Hlt Hw Hh.
  destruct (push_fillReady d ii type Hseed Hn Hii0 Hii ltac:(lia)) as [Hroom Hfill].
  rewrite wr_total by lia. cbn [mbind outcome_bind].
  replace (queue (set_buffer (<[Z.to_nat ii:=numSegments d]> (buffer d)) d))
    with (queue d) by by destruct d.
  replace (queueEnd (set_buffer (<[Z.to_nat ii:=numSegments d]> (buffer d)) d))
    with (queueEnd d) by by destruct d.
  pose proof Hseed as ((Hbl & Hql & Hn0 & Hold & Hend & Hnd & Hin) & Hs & Hlab).
  rewrite wr_total by lia. cbn [mbind outcome_bind].
  match type of Hfill with fillReady ?y =>
    match goal with |- context [floodFill _ _ _ (?x, _)] =>
      replace x with y by by destruct d end
  end.
  assert (fenced (set_buffer (<[Z.to_nat ii := numSegments d]> (buffer d))
                    (set_queueEnd (queueEnd d + 1)
                       (set_queue (<[Z.to_nat (queueEnd d) := ii]> (queue d)) d))))
    as Hfenced3.
  { apply (relabelled_fenced type (numSegments d) d);
      [lia|lia| |by destruct d..|done].
    replace (buffer (set_buffer _ _))
      with (<[Z.to_nat ii := numSegments d]> (buffer d)) by by destruct d.
    eapply relabelled_insert; [done|]. right. auto. }
  match goal with |- context [floodFill _ _ _ (?y, ?b)] =>
    assert (boxed y b) as Hbox3
  end.
  { destruct (interior_cell d ii type Hfenced ltac:(lia) Hii ltac:(lia))
      as [Hx Hy].
    unfold boxed.
    replace (width (set_buffer _ (set_queueEnd _ _))) with (width d)
      by by destruct d.
    replace (height (set_buffer _ (set_queueEnd _ _))) with (height d)
      by by destruct d.
    replace (width (set_buffer _ d)) with (width d) by by destruct d.
    cbn [bminx bmaxx bminy bmaxy]. lia. }
  revert Hbox3. revert Hfill Hfenced3.
  match goal with |- fillReady ?y → _ =>
    assert (settings y = settings d ∧ queueStart y = queueStart d
            ∧ length (queue y) = length (queue d)
            ∧ segmentArray y = segmentArray d) as Hy
      by (destruct d; simpl; by rewrite length_insert);
    revert Hy; generalize y
  end.
  intros d3 (Hset3 & Hs3 & Hq3 & Hsg3) Hfill Hfenced3 Hbox3.
  eapply succeeds_bind.
  { apply succeeds_with_eq, floodFill_succeeds;
      [done|done|by eapply fits_settings|done|].
    apply settings_fields in Hset3 as (_ & _ & Hl3 & _). lia. }
  intros [d4 bb4] [(Hfill4 & Hfenced4 & Hset4) Heq4]. cbn [fst] in *.
  pose proof (floodFill_boxed _ _ _ _ _ _ _ Heq4 Hfill Hfenced3
                (fits_settings image _ _ Hset3 Hfit) Htype Hbox3) as Hbox4.
  apply floodFill_beyondFill, beyondFill_fields in Heq4 as (_ & _ & _ & _ & Hsg4).
  cbn [fst] in Hsg4.
  eapply succeeds_bind.
  { apply succeeds_with_eq, describeSegment_succeeds; [apply Hfill4|].
    eapply fits_settings; [|exact Hfit]. congruence. }
  intros [result segmen'] [_ Hdesc].
  eapply succeeds_bind; [apply succeeds_wr; congruence|]. intros segs ->.
  cbn [succeeds fst snd]. split; [|split].
  - eapply fenced_ext; [..|exact Hfenced4]; by destruct d4.
  - transitivity (settings d4); [by destruct d4|congruence].
  - intros ->. apply describeSegment_centre in Hdesc as [Hcx Hcy].
    exists segmen', ((bmaxx bb4 + bminx bb4) `quot` 2),
      ((bmaxy bb4 + bminy bb4) `quot` 2).
    replace (segmentArray (set_segmentArray _ d4))
      with (<[Z.to_nat si := segmen']> (segmentArray d4)) by by destruct d4.
    split; [apply list_lookup_insert_eq; rewrite Hsg4, Hsg3; lia|].
    split; [done|]. split; [done|].
    assert (settings d4 = settings d) as Hs4 by congruence.
    apply settings_fields in Hs4 as (Hw4 & Hh4 & _).
    destruct Hbox4 as (Hb1 & Hb2 & Hb3 & Hb4).
    rewrite Hw4, Hw in Hb1, Hb2. rewrite Hh4, Hh in Hb3, Hb4.
    rewrite !Z.quot_div_nonneg by lia.
    split; split;
      first [apply Z.div_le_lower_bound; lia | apply Z.div_le_upper_bound; lia].
Qed.

(** X14.  The flood fill never leaves the frame.  When the border of the
    label buffer holds the sentinel, the frame has its samples, the seed
    is a pixel of class -1 or -2 and the segment array has an element
    [si], [examineSegment] returns without an access outside the label
    buffer, the queue, the frame or the segment array, within the [len]
    steps of its loop; the border then still holds the sentinel. *)
Theorem examineSegment_succeeds image si ii areaRatio d type :
  seedReady d → fenced d → fits image d →
  0 ≤ si < Z.of_nat (length (segmentArray d)) →
  0 ≤ ii → buffer d !! Z.to_nat ii = Some type → type = -1 ∨ type = -2 →
  succeeds (λ r, seedReady (snd r) ∧ fenced (snd r)
                 ∧ settings (snd r) = settings d)
    (examineSegment image si ii areaRatio d).
Proof.
  intros Hseed Hfenced Hfit Hsi Hii0 Hii Htype.
  eapply succeeds_mono;
    [by eapply (examineSegment_total image si ii areaRatio d type)|].
  intros r (? & ? & ? & _). done.
Qed.

(** A label buffer that is fully reset has its border in place. *)
Lemma isReset_fenced d :
  0 < width d → 0 < height d → len d = width d * height d →
  isReset d (buffer d) → fenced d.
Proof.
  intros Hw Hh Hlen [Hl Hcells].
  split; [done|]. split; [done|]. split; [done|]. split; [done|].
  intros x y Hx Hy Hb. rewrite (Hcells x y Hx Hy), Hb. done.
Qed.

(** The constructor puts the border in place. *)
Lemma CCircleDetect_fenced wi he diamRatio d :
  0 < wi → 0 < he →
  CCircleDetect MAX_SEGMENTS wi he diamRatio = Ok d → fenced d.
Proof.
  intros Hw Hh. unfold CCircleDetect. cbv zeta.
  match goal with |- bufferCleanup _ ?d0 = _ → _ => set (dc := d0) end.
  intros Hc.
  assert (0 < wi * he) as Hlen by lia.
  destruct (bufferCleanup_full noSegment dc) as (buf & Hb & Hreset);
    [done|done|done|subst dc; simpl; rewrite length_replicate; lia|done|].
  rewrite Hb in Hc. injection Hc as <-.
  apply isReset_fenced; [done|done|done|exact Hreset].
Qed.

(** ** The labels that a scan writes *)

Lemma touched_refl m (b : list Z) : touched m b b.
Proof. split; [done|]. intros p v Hv. exists v. auto. Qed.

Lemma touched_trans m (b1 b2 b3 : list Z) :
  touched m b1 b2 → touched m b2 b3 → touched m b1 b3.
Proof.
  intros [Hl1 H1] [Hl2 H2]. split; [congruence|].
  intros p v Hv. destruct (H1 p v Hv) as (v' & Hv' & Hc1).
  destruct (H2 p v' Hv') as (v'' & Hv'' & Hc2).
  exists v''. split; [done|]. lia.
Qed.

Lemma relabelled_touched m type n (b b' : list Z) :
  type = -1 ∨ type = -2 → 1 ≤ n ≤ m →
  relabelled type n b b' → touched m b b'.
Proof.
  intros Ht Hn [Hl Hrel]. split; [done|].
  intros p v Hv. destruct (Hrel p v Hv) as (v' & Hv' & Hc).
  exists v'. split; [done|]. lia.
Qed.

Lemma examineSegment_relabelled image si ii areaRatio d found d' type :
  examineSegment image si ii areaRatio d = Ok (found, d') →
  0 ≤ numSegments d →
  buffer d !! Z.to_nat ii = Some type → type < 0 →
  relabelled type (numSegments d + 1) (buffer d) (buffer d').
Proof.
  intros He Hn Hii Ht.
  unfold examineSegment in He. cbv zeta in He.
  apply bind_Ok in He as (type' & [Hii0 Htype]%rd_Ok & He).
  replace (buffer (set_queueOldStart (queueStart d) d)) with (buffer d)
    in Htype by by destruct d.
  rewrite Hii in Htype. injection Htype as <-.
  apply bind_Ok in He as (segmen & _ & He).
  apply bind_Ok in He as (buf & [_ ->]%wr_Ok & He).
  apply bind_Ok in He as (q & [Hqe ->]%wr_Ok & He).
  apply bind_Ok in He as ([d4 bb4] & Hfill & He).
  apply bind_Ok in He as ([result segmen'] & _ & He).
  apply bind_Ok in He as (segs & _ & He). injection He as _ <-.
  match type of Hfill with
  | floodFill _ _ _ (?x, _) = _ => set (d3 := x) in *
  end.
  assert (numSegments d3 = numSegments d + 1
          ∧ buffer d3 = <[Z.to_nat ii := numSegments d + 1]> (buffer d))
    as (Hn3 & Hb3) by (subst d3; split; by destruct d).
  clearbody d3.
  apply (floodFill_marked _ _ _ _ _ _ _ 0%nat) in Hfill as (R & _); [|done|lia].
  rewrite Hn3, Hb3 in R.
  replace (buffer (set_segmentArray segs d4)) with (buffer d4) by by destruct d4.
  eapply relabelled_trans; [done|lia| |exact R].
  eapply relabelled_insert; [done|]. right. auto.
Qed.

Lemma classify_touched m image pos d d' :
  classify image pos d = Ok d' → touched m (buffer d) (buffer d').
Proof.
  intros Hc.
  apply (classify_relabelled (-1) (-1)) in Hc as (buf & -> & Hl & Hrel).
  replace (buffer (set_buffer buf d)) with buf by by destruct d.
  split; [done|]. intros p v Hv. destruct (Hrel p v Hv) as (v' & Hv' & Hc).
  exists v'. split; [done|]. lia.
Qed.

Lemma seekInner_touched image d d' fit :
  seekInner MAX_SEGMENTS image d = Ok (d', fit) →
  0 ≤ numSegments d →
  touched MAX_SEGMENTS (buffer d) (buffer d').
Proof.
  unfold seekInner. intros Hs Hn.
  apply bind_Ok in Hs as (o & _ & Hs). cbv zeta in Hs.
  apply bind_Ok in Hs as (d1 & Hc & Hs).
  pose proof (classify_touched MAX_SEGMENTS _ _ _ _ Hc) as T1.
  apply classify_segments in Hc as (_ & _ & Hn1 & _).
  apply bind_Ok in Hs as (b & [Hpos Hb]%rd_Ok & Hs).
  destruct ((b =? -1) && (numSegments d1 <? MAX_SEGMENTS)) eqn:Hg;
    [|by injection Hs as <- _].
  apply andb_true_iff in Hg as [->%Z.eqb_eq Hlt%Z.ltb_lt].
  apply bind_Ok in Hs as ([found d2] & He & Hs).
  apply (examineSegment_relabelled _ _ _ _ _ _ _ (-1)) in He; [|lia|done|lia].
  assert (d' = d2) as -> by (destruct found; inv_ok Hs; done).
  eapply touched_trans; [exact T1|].
  eapply relabelled_touched; [| |exact He]; [auto|lia].
Qed.

Lemma seekPair_touched image ii d d' fit :
  seekPair MAX_SEGMENTS image ii d = Ok (d', fit) →
  0 ≤ numSegments d →
  touched MAX_SEGMENTS (buffer d) (buffer d').
Proof.
  unfold seekPair. intros Hs Hn.
  apply bind_Ok in Hs as (b0 & [Hii0 Hb0]%rd_Ok & Hs).
  apply bind_Ok in Hs as (d1 & Hc & Hs).
  assert (numSegments d1 = numSegments d
          ∧ touched MAX_SEGMENTS (buffer d) (buffer d1)) as [Hn1 T1].
  { destruct (Z.eqb_spec b0 0) as [->|];
      [|injection Hc as <-; split; [done|apply touched_refl]].
    apply bind_Ok in Hc as (s & _ & Hc).
    destruct (s <? threshold d);
      [|injection Hc as <-; split; [done|apply touched_refl]].
    apply bind_Ok in Hc as (buf & [_ ->]%wr_Ok & Hc). injection Hc as <-.
    split; [by destruct d|].
    replace (buffer (set_buffer _ d)) with (<[Z.to_nat ii := -2]> (buffer d))
      by by destruct d.
    split; [by rewrite length_insert|].
    intros p v Hv. destruct (decide (p = Z.to_nat ii)) as [->|Hne].
    - exists (-2). rewrite list_lookup_insert_eq by by eapply lookup_lt_Some.
      split; [done|]. rewrite Hb0 in Hv. injection Hv as <-. lia.
    - exists v. rewrite list_lookup_insert_ne by done. auto. }
  apply bind_Ok in Hs as (b & [_ Hb]%rd_Ok & Hs).
  destruct ((b =? -2) && (numSegments d1 <? MAX_SEGMENTS)) eqn:Hg;
    [|by injection Hs as <- _].
  apply andb_true_iff in Hg as [->%Z.eqb_eq Hlt%Z.ltb_lt]. cbv zeta in Hs.
  apply bind_Ok in Hs as ([found d2] & He & Hs).
  match type of He with
  | examineSegment _ _ _ _ ?x = _ => set (dq := x) in *
  end.
  assert (numSegments dq = numSegments d1 ∧ buffer dq = buffer d1)
    as [Hnq Hbq] by (subst dq; split; by destruct d1).
  clearbody dq.
  pose proof (examineSegment_spec _ _ _ _ _ _ _ He)
    as (s & _ & _ & _ & _ & _ & Hn2 & _).
  apply (examineSegment_relabelled _ _ _ _ _ _ _ (-2)) in He;
    [|lia|by rewrite Hbq|lia].
  rewrite Hnq, Hbq in He.
  assert (touched MAX_SEGMENTS (buffer d) (buffer d2)) as T2.
  { eapply touched_trans; [exact T1|].
    eapply relabelled_touched; [| |exact He]; [auto|lia]. }
  destruct found; [|by injection Hs as <- _].
  apply seekInner_touched in Hs; [|lia].
  by eapply touched_trans.
Qed.

Lemma scanLoop_touched fuel image start ii d d' :
  scanLoop MAX_SEGMENTS fuel image start ii d = Ok d' →
  0 ≤ numSegments d →
  touched MAX_SEGMENTS (buffer d) (buffer d').
Proof.
  revert ii d. induction fuel as [|fuel IH]; intros ii d Hs Hn;
    cbn [scanLoop] in Hs; [done|].
  apply bind_Ok in Hs as ([d1 ii1] & Hstep & Hs). cbv zeta in Hs.
  assert (touched MAX_SEGMENTS (buffer d) (buffer d1) ∧ 0 ≤ numSegments d1)
    as [T1 Hn1].
  { unfold scanStep in Hstep.
    apply bind_Ok in Hstep as ([dm fit] & Hseek & Hstep).
    pose proof (seekPair_spec _ _ _ _ _ Hseek Hn) as (_ & _ & Hnum & _).
    apply seekPair_touched in Hseek; [|done].
    destruct fit; [|injection Hstep as <- _; split; [done|lia]].
    unfold shapeFit in Hstep. inv_ok Hstep;
      (split; [|record_cbn; lia]);
      match goal with
      | |- touched _ _ (buffer ?x) =>
          replace (buffer x) with (buffer dm) by by destruct dm
      end; done. }
  destruct (nextIndex d1 ii1 =? start); [by injection Hs as <-|].
  eapply touched_trans; [exact T1|]. by eapply IH.
Qed.

Lemma bufferCleanup_fenced init d d' :
  fenced d → bufferCleanup init d = Ok d' → fenced d'.
Proof.
  intros Hf Hc. pose proof Hf as (Hw & Hh & Hlen & Hbuf & Hfence).
  destruct (bufferCleanup_cells init d Hw Hh Hlen Hbuf) as (buf & Hb & Hl & Hcells).
  rewrite Hb in Hc. injection Hc as <-.
  destruct d. unfold fenced, cell, onBorder, inMargin in *. simpl in *.
  split; [done|]. split; [done|]. split; [done|]. split; [done|].
  intros x y Hx Hy Hbd. rewrite (Hcells x y Hx Hy).
  destruct (negb _ || negb _ || negb _); [by rewrite Hbd|].
  rewrite (Hfence x y Hx Hy Hbd).
  apply orb_true_iff in Hbd as [Hbd|Hbd]; [apply orb_true_iff in Hbd as [Hbd|Hbd];
    [apply orb_true_iff in Hbd as [Hbd|Hbd]|]|]; apply Z.eqb_eq in Hbd;
  match goal with
  | |- (if ?c then _ else _) = _ =>
      assert (c = false) as ->; [|done]
  end;
  repeat (apply andb_false_iff;
          first [right; apply Z.ltb_ge; lia | right; apply Z.leb_gt; lia
                | left | fail]);
  try (apply Z.leb_gt; lia); try (apply Z.ltb_ge; lia).
Qed.

Lemma touched_fenced d d' :
  touched MAX_SEGMENTS (buffer d) (buffer d') →
  width d' = width d → height d' = height d → len d' = len d →
  fenced d → fenced d'.
Proof.
  intros [Hl Ht] Hw Hh Hlen (Hw0 & Hh0 & Hlen0 & Hbuf & Hfence).
  unfold fenced, cell, onBorder. rewrite Hw, Hh, Hlen, Hl.
  split; [done|]. split; [done|]. split; [done|]. split; [done|].
  intros x y Hx Hy Hb. destruct (Ht _ _ (Hfence x y Hx Hy Hb)) as (v' & Hv' & Hc).
  unfold cell in Hv'. rewrite Hv'. f_equal. lia.
Qed.

Lemma touched_wellLabelled d d' :
  touched MAX_SEGMENTS (buffer d) (buffer d') →
  width d' = width d → height d' = height d → len d' = len d →
  wellLabelled MAX_SEGMENTS d → wellLabelled MAX_SEGMENTS d'.
Proof.
  intros Ht Hw Hh Hlen [Hf Hr]. split; [by eapply touched_fenced|].
  intros p v' Hv'. destruct Ht as [Hl Ht].
  destruct (buffer d !! p) as [v|] eqn:Hv.
  - destruct (Ht p v Hv) as (v'' & Hv'' & Hc). rewrite Hv' in Hv''.
    injection Hv'' as <-. specialize (Hr p v Hv). lia.
  - apply lookup_lt_Some in Hv'. apply lookup_ge_None_1 in Hv. lia.
Qed.

Lemma bufferCleanup_wellLabelled init d d' :
  wellLabelled MAX_SEGMENTS d → bufferCleanup init d = Ok d' →
  wellLabelled MAX_SEGMENTS d'.
Proof.
  intros [Hf Hr] Hc. split; [by eapply bufferCleanup_fenced|].
  destruct Hf as (Hw & Hh & Hlen & Hbuf & _).
  destruct (bufferCleanup_cells init d Hw Hh Hlen Hbuf) as (buf & Hb & Hl & Hcells).
  rewrite Hb in Hc. injection Hc as <-.
  replace (buffer (set_buffer buf d)) with buf by by destruct d.
  intros p v Hv.
  destruct (cell_cover d p Hw Hh) as (x & y & Hx & Hy & ->);
    [apply lookup_lt_Some in Hv; lia|].
  rewrite (Hcells x y Hx Hy) in Hv.
  destruct (negb _ || negb _ || negb _).
  { injection Hv as <-. destruct (onBorder d x y); lia. }
  destruct (inMargin d init x y); [injection Hv as <-; lia|].
  by eapply Hr.
Qed.

(** X15.  The labels are an invariant of the detector.  When the border
    of the label buffer holds the sentinel -1000 and every cell holds the
    sentinel, a pixel class (0, -1, -2) or an ordinal between 1 and
    [MAX_SEGMENTS], the same holds after [findSegment]: a scan rewrites
    only cells of class 0, -1 or -2, with a class or with the ordinal of
    a segment in the array, and the cleanup writes only 0 and, on the
    border, -1000. *)
Theorem labels_invariant image init d result d' image' :
  wellLabelled MAX_SEGMENTS d →
  findSegment MAX_SEGMENTS image init d = Ok (result, d', image') →
  wellLabelled MAX_SEGMENTS d'.
Proof.
  intros Hwl Hf.
  apply findSegment_phases in Hf as (ds & dt & Hscan & _ & Hupd & Hclean).
  pose proof (scanLoop_settings _ _ _ _ _ _ Hscan)
    as (Hw & Hh & Hl & _)%settings_fields.
  apply scanLoop_touched in Hscan; [|by destruct d].
  replace (buffer (set_numSegments 0 d)) with (buffer d) in Hscan by by destruct d.
  replace (width (set_numSegments 0 d)) with (width d) in Hw by by destruct d.
  replace (height (set_numSegments 0 d)) with (height d) in Hh by by destruct d.
  replace (len (set_numSegments 0 d)) with (len d) in Hl by by destruct d.
  pose proof (trackingUpdate_configuration _ _ _ Hupd)
    as (Hwt & Hht & Hlt & _)%configuration_fields.
  apply trackingUpdate_arrays in Hupd as (Hbt & _).
  eapply bufferCleanup_wellLabelled; [|exact Hclean].
  eapply (touched_wellLabelled d); [by rewrite Hbt|congruence..|done].
Qed.

(** ** The whole frame without a fault *)











Lemma segmentArray_set_threshold v (d : Detector F) :
  segmentArray (set_threshold v d) = segmentArray d.
Proof. by destruct d. Qed.

Lemma numSegments_set_threshold v (d : Detector F) :
  numSegments (set_threshold v d) = numSegments d.
Proof. by destruct d. Qed.










(** * The diameter ratio

    [setDiameterRatio] stores the ratio and nothing else.  The scan reads
    [diameterRatio] in one place, the leakage correction of the semi-axes
    [m0] and [m1] of a fitted segment, and reads the semi-axes of a
    segment only after it has computed them.  Erasing the ratio and the
    semi-axes therefore commutes with every step. *)

(** ** Erasure and the members *)

Lemma axes_width d : width (axesErased d) = width d.
Proof. by destruct d. Qed.
Lemma axes_height d : height (axesErased d) = height d.
Proof. by destruct d. Qed.
Lemma axes_len d : len (axesErased d) = len d.
Proof. by destruct d. Qed.
Lemma axes_minSize d : minSize (axesErased d) = minSize d.
Proof. by destruct d. Qed.
Lemma axes_maxFailed d : maxFailed (axesErased d) = maxFailed d.
Proof. by destruct d. Qed.
Lemma axes_track d : track (axesErased d) = track d.
Proof. by destruct d. Qed.
Lemma axes_debug d : debug (axesErased d) = debug d.
Proof. by destruct d. Qed.
Lemma axes_draw d : draw (axesErased d) = draw d.
Proof. by destruct d. Qed.
Lemma axes_centerDistanceToleranceRatio d : centerDistanceToleranceRatio (axesErased d) = centerDistanceToleranceRatio d.
Proof. by destruct d. Qed.
Lemma axes_centerDistanceToleranceAbs d : centerDistanceToleranceAbs (axesErased d) = centerDistanceToleranceAbs d.
Proof. by destruct d. Qed.
Lemma axes_circularTolerance d : circularTolerance (axesErased d) = circularTolerance d.
Proof. by destruct d. Qed.
Lemma axes_ratioTolerance d : ratioTolerance (axesErased d) = ratioTolerance d.
Proof. by destruct d. Qed.
Lemma axes_circularityTolerance d : circularityTolerance (axesErased d) = circularityTolerance d.
Proof. by destruct d. Qed.
Lemma axes_outerAreaRatio d : outerAreaRatio (axesErased d) = outerAreaRatio d.
Proof. by destruct d. Qed.
Lemma axes_innerAreaRatio d : innerAreaRatio (axesErased d) = innerAreaRatio d.
Proof. by destruct d. Qed.
Lemma axes_areasRatio d : areasRatio (axesErased d) = areasRatio d.
Proof. by destruct d. Qed.
Lemma axes_threshold d : threshold (axesErased d) = threshold d.
Proof. by destruct d. Qed.
Lemma axes_lastThreshold d : lastThreshold (axesErased d) = lastThreshold d.
Proof. by destruct d. Qed.
Lemma axes_numFailed d : numFailed (axesErased d) = numFailed d.
Proof. by destruct d. Qed.
Lemma axes_lastTrackOK d : lastTrackOK (axesErased d) = lastTrackOK d.
Proof. by destruct d. Qed.
Lemma axes_drawAll d : drawAll (axesErased d) = drawAll d.
Proof. by destruct d. Qed.
Lemma axes_numSegments d : numSegments (axesErased d) = numSegments d.
Proof. by destruct d. Qed.
Lemma axes_queueStart d : queueStart (axesErased d) = queueStart d.
Proof. by destruct d. Qed.
Lemma axes_queueEnd d : queueEnd (axesErased d) = queueEnd d.
Proof. by destruct d. Qed.
Lemma axes_queueOldStart d : queueOldStart (axesErased d) = queueOldStart d.
Proof. by destruct d. Qed.
Lemma axes_buffer d : buffer (axesErased d) = buffer d.
Proof. by destruct d. Qed.
Lemma axes_queue d : queue (axesErased d) = queue d.
Proof. by destruct d. Qed.
Lemma axes_segmentArray d :
  segmentArray (axesErased d) = eraseAxes <$> segmentArray d.
Proof. by destruct d. Qed.
Lemma axes_set_maxFailed v d :
  set_maxFailed v (axesErased d) = axesErased (set_maxFailed v d).
Proof. by destruct d. Qed.
Lemma axes_set_track v d :
  set_track v (axesErased d) = axesErased (set_track v d).
Proof. by destruct d. Qed.
Lemma axes_set_debug v d :
  set_debug v (axesErased d) = axesErased (set_debug v d).
Proof. by destruct d. Qed.
Lemma axes_set_draw v d :
  set_draw v (axesErased d) = axesErased (set_draw v d).
Proof. by destruct d. Qed.
Lemma axes_set_threshold v d :
  set_threshold v (axesErased d) = axesErased (set_threshold v d).
Proof. by destruct d. Qed.
Lemma axes_set_lastThreshold v d :
  set_lastThreshold v (axesErased d) = axesErased (set_lastThreshold v d).
Proof. by destruct d. Qed.
Lemma axes_set_numFailed v d :
  set_numFailed v (axesErased d) = axesErased (set_numFailed v d).
Proof. by destruct d. Qed.
Lemma axes_set_lastTrackOK v d :
  set_lastTrackOK v (axesErased d) = axesErased (set_lastTrackOK v d).
Proof. by destruct d. Qed.
Lemma axes_set_drawAll v d :
  set_drawAll v (axesErased d) = axesErased (set_drawAll v d).
Proof. by destruct d. Qed.
Lemma axes_set_numSegments v d :
  set_numSegments v (axesErased d) = axesErased (set_numSegments v d).
Proof. by destruct d. Qed.
Lemma axes_set_queueStart v d :
  set_queueStart v (axesErased d) = axesErased (set_queueStart v d).
Proof. by destruct d. Qed.
Lemma axes_set_queueEnd v d :
  set_queueEnd v (axesErased d) = axesErased (set_queueEnd v d).
Proof. by destruct d. Qed.
Lemma axes_set_queueOldStart v d :
  set_queueOldStart v (axesErased d) = axesErased (set_queueOldStart v d).
Proof. by destruct d. Qed.
Lemma axes_set_buffer v d :
  set_buffer v (axesErased d) = axesErased (set_buffer v d).
Proof. by destruct d. Qed.
Lemma axes_set_queue v d :
  set_queue v (axesErased d) = axesErased (set_queue v d).
Proof. by destruct d. Qed.
Lemma axes_set_segmentArray v d :
  set_segmentArray (eraseAxes <$> v) (axesErased d)
  = axesErased (set_segmentArray v d).
Proof. by destruct d. Qed.
Lemma erase_x (s : SSegment.t F) :
  SSegment.x (eraseAxes s) = SSegment.x s.
Proof. by destruct s. Qed.
Lemma erase_y (s : SSegment.t F) :
  SSegment.y (eraseAxes s) = SSegment.y s.
Proof. by destruct s. Qed.
Lemma erase_v0 (s : SSegment.t F) :
  SSegment.v0 (eraseAxes s) = SSegment.v0 s.
Proof. by destruct s. Qed.
Lemma erase_v1 (s : SSegment.t F) :
  SSegment.v1 (eraseAxes s) = SSegment.v1 s.
Proof. by destruct s. Qed.
Lemma erase_bwRatio (s : SSegment.t F) :
  SSegment.bwRatio (eraseAxes s) = SSegment.bwRatio s.
Proof. by destruct s. Qed.
Lemma erase_round (s : SSegment.t F) :
  SSegment.round (eraseAxes s) = SSegment.round s.
Proof. by destruct s. Qed.
Lemma erase_valid (s : SSegment.t F) :
  SSegment.valid (eraseAxes s) = SSegment.valid s.
Proof. by destruct s. Qed.
Lemma erase_maxx (s : SSegment.t F) :
  SSegment.maxx (eraseAxes s) = SSegment.maxx s.
Proof. by destruct s. Qed.
Lemma erase_maxy (s : SSegment.t F) :
  SSegment.maxy (eraseAxes s) = SSegment.maxy s.
Proof. by destruct s. Qed.
Lemma erase_minx (s : SSegment.t F) :
  SSegment.minx (eraseAxes s) = SSegment.minx s.
Proof. by destruct s. Qed.
Lemma erase_miny (s : SSegment.t F) :
  SSegment.miny (eraseAxes s) = SSegment.miny s.
Proof. by destruct s. Qed.
Lemma erase_size (s : SSegment.t F) :
  SSegment.size (eraseAxes s) = SSegment.size s.
Proof. by destruct s. Qed.
Lemma erase_mean (s : SSegment.t F) :
  SSegment.mean (eraseAxes s) = SSegment.mean s.
Proof. by destruct s. Qed.
Lemma erase_type (s : SSegment.t F) :
  SSegment.type (eraseAxes s) = SSegment.type s.
Proof. by destruct s. Qed.
Lemma erase_roundness (s : SSegment.t F) :
  SSegment.roundness (eraseAxes s) = SSegment.roundness s.
Proof. by destruct s. Qed.
Lemma erase_horizontal (s : SSegment.t F) :
  SSegment.horizontal (eraseAxes s) = SSegment.horizontal s.
Proof. by destruct s. Qed.
Lemma erase_angle (s : SSegment.t F) :
  SSegment.angle (eraseAxes s) = SSegment.angle s.
Proof. by destruct s. Qed.
Lemma erase_set_x v (s : SSegment.t F) :
  SSegment.set_x v (eraseAxes s) = eraseAxes (SSegment.set_x v s).
Proof. by destruct s. Qed.
Lemma erase_set_y v (s : SSegment.t F) :
  SSegment.set_y v (eraseAxes s) = eraseAxes (SSegment.set_y v s).
Proof. by destruct s. Qed.
Lemma erase_set_v0 v (s : SSegment.t F) :
  SSegment.set_v0 v (eraseAxes s) = eraseAxes (SSegment.set_v0 v s).
Proof. by destruct s. Qed.
Lemma erase_set_v1 v (s : SSegment.t F) :
  SSegment.set_v1 v (eraseAxes s) = eraseAxes (SSegment.set_v1 v s).
Proof. by destruct s. Qed.
Lemma erase_set_bwRatio v (s : SSegment.t F) :
  SSegment.set_bwRatio v (eraseAxes s) = eraseAxes (SSegment.set_bwRatio v s).
Proof. by destruct s. Qed.
Lemma erase_set_round v (s : SSegment.t F) :
  SSegment.set_round v (eraseAxes s) = eraseAxes (SSegment.set_round v s).
Proof. by destruct s. Qed.
Lemma erase_set_valid v (s : SSegment.t F) :
  SSegment.set_valid v (eraseAxes s) = eraseAxes (SSegment.set_valid v s).
Proof. by destruct s. Qed.
Lemma erase_set_maxx v (s : SSegment.t F) :
  SSegment.set_maxx v (eraseAxes s) = eraseAxes (SSegment.set_maxx v s).
Proof. by destruct s. Qed.
Lemma erase_set_maxy v (s : SSegment.t F) :
  SSegment.set_maxy v (eraseAxes s) = eraseAxes (SSegment.set_maxy v s).
Proof. by destruct s. Qed.
Lemma erase_set_minx v (s : SSegment.t F) :
  SSegment.set_minx v (eraseAxes s) = eraseAxes (SSegment.set_minx v s).
Proof. by destruct s. Qed.
Lemma erase_set_miny v (s : SSegment.t F) :
  SSegment.set_miny v (eraseAxes s) = eraseAxes (SSegment.set_miny v s).
Proof. by destruct s. Qed.
Lemma erase_set_size v (s : SSegment.t F) :
  SSegment.set_size v (eraseAxes s) = eraseAxes (SSegment.set_size v s).
Proof. by destruct s. Qed.
Lemma erase_set_mean v (s : SSegment.t F) :
  SSegment.set_mean v (eraseAxes s) = eraseAxes (SSegment.set_mean v s).
Proof. by destruct s. Qed.
Lemma erase_set_type v (s : SSegment.t F) :
  SSegment.set_type v (eraseAxes s) = eraseAxes (SSegment.set_type v s).
Proof. by destruct s. Qed.
Lemma erase_set_roundness v (s : SSegment.t F) :
  SSegment.set_roundness v (eraseAxes s) = eraseAxes (SSegment.set_roundness v s).
Proof. by destruct s. Qed.
Lemma erase_set_horizontal v (s : SSegment.t F) :
  SSegment.set_horizontal v (eraseAxes s) = eraseAxes (SSegment.set_horizontal v s).
Proof. by destruct s. Qed.
Lemma erase_set_angle v (s : SSegment.t F) :
  SSegment.set_angle v (eraseAxes s) = eraseAxes (SSegment.set_angle v s).
Proof. by destruct s. Qed.
Create Rewrite HintDb axes.
#[local] Hint Rewrite
  axes_width axes_height axes_len axes_minSize axes_maxFailed axes_track
  axes_debug axes_draw axes_centerDistanceToleranceRatio
  axes_centerDistanceToleranceAbs axes_circularTolerance axes_ratioTolerance
  axes_circularityTolerance axes_outerAreaRatio axes_innerAreaRatio
  axes_areasRatio axes_threshold axes_lastThreshold axes_numFailed
  axes_lastTrackOK axes_drawAll axes_numSegments axes_queueStart
  axes_queueEnd axes_queueOldStart axes_buffer axes_queue axes_segmentArray
  axes_set_maxFailed axes_set_track axes_set_debug axes_set_draw
  axes_set_threshold axes_set_lastThreshold axes_set_numFailed
  axes_set_lastTrackOK axes_set_drawAll axes_set_numSegments
  axes_set_queueStart axes_set_queueEnd axes_set_queueOldStart
  axes_set_buffer axes_set_queue axes_set_segmentArray erase_x erase_y
  erase_v0 erase_v1 erase_bwRatio erase_round erase_valid erase_maxx
  erase_maxy erase_minx erase_miny erase_size erase_mean erase_type
  erase_roundness erase_horizontal erase_angle erase_set_x erase_set_y
  erase_set_v0 erase_set_v1 erase_set_bwRatio erase_set_round
  erase_set_valid erase_set_maxx erase_set_maxy erase_set_minx
  erase_set_miny erase_set_size erase_set_mean erase_set_type
  erase_set_roundness erase_set_horizontal erase_set_angle : axes.

Lemma eraseAxes_idemp (s : SSegment.t F) : eraseAxes (eraseAxes s) = eraseAxes s.
Proof. by destruct s. Qed.

Lemma eraseAxes_fmap_idemp (l : list (SSegment.t F)) :
  eraseAxes <$> (eraseAxes <$> l) = eraseAxes <$> l.
Proof.
  rewrite <- list_fmap_compose. apply list_fmap_ext. intros i s _.
  apply eraseAxes_idemp.
Qed.

Lemma axesErased_idemp d : axesErased (axesErased d) = axesErased d.
Proof.
  destruct d. unfold axesErased, set_diameterRatio, set_segmentArray.
  cbn. by rewrite eraseAxes_fmap_idemp.
Qed.

Lemma axes_setDiameterRatio r d :
  axesErased (setDiameterRatio r d) = axesErased d.
Proof. by destruct d. Qed.

Lemma rd_fmap {A B} e (g : A → B) (l : list A) i :
  rd e (g <$> l) i = g <$> rd e l i.
Proof.
  unfold rd. destruct (0 <=? i); [|done].
  rewrite list_lookup_fmap. by destruct (l !! Z.to_nat i).
Qed.

Lemma wr_fmap {A B} e (g : A → B) (l : list A) i v :
  wr e (g <$> l) i (g v) = (λ l' : list A, g <$> l') <$> wr e l i v.
Proof.
  unfold wr. rewrite length_fmap. destruct (_ && _); [|done].
  cbn [fmap outcome_fmap]. by rewrite list_fmap_insert.
Qed.

(** ** The steps that do not read the ratio

    One step of a proof that a method commutes with the erasure: decide
    the next computation, which is the same on both sides. *)
Ltac axes_step :=
  autorewrite with axes;
  match goal with
  | |- context [mbind _ ?m] =>
      lazymatch m with
      | context [axesErased] => fail
      | context [eraseAxes] => fail
      | _ => destruct m eqn:?
      end
  | |- context [if ?c then _ else _] =>
      lazymatch c with
      | context [axesErased] => fail
      | context [eraseAxes] => fail
      | _ => destruct c eqn:?
      end
  | |- context [let '(_, _) := ?p in _] => is_var p; destruct p
  end;
  cbn [mbind outcome_bind fmap outcome_fmap fst snd prod_map id].

Ltac axes :=
  cbn [mbind outcome_bind fmap outcome_fmap fst snd prod_map id];
  repeat axes_step; autorewrite with axes; try done.

Lemma classify_axes image pos d :
  classify image pos (axesErased d) = axesErased <$> classify image pos d.
Proof. unfold classify. axes. Qed.

Lemma probe_axes image type sd position d bb :
  probe image type sd position (axesErased d, bb)
  = prod_map axesErased id <$> probe image type sd position (d, bb).
Proof.
  unfold probe.
  replace (neighbour (axesErased d) sd position)
    with (neighbour d sd position) by by destruct d.
  rewrite classify_axes. destruct (classify _ _ d) as [d1|]; [|done].
  axes.
Qed.

Lemma floodFill_axes fuel image type d bb :
  floodFill fuel image type (axesErased d, bb)
  = prod_map axesErased id <$> floodFill fuel image type (d, bb).
Proof.
  revert d bb. induction fuel as [|fuel IH]; intros d bb; cbn [floodFill fst].
  - axes.
  - autorewrite with axes.
    destruct (queueStart d <? queueEnd d); [|done].
    destruct (rd OobQueue (queue d) (queueStart d)) as [position|]; [|done].
    cbn [mbind outcome_bind]. autorewrite with axes.
    rewrite probe_axes. destruct (probe _ _ East _ _) as [[d1 bb1]|]; [|done].
    cbn [mbind outcome_bind fmap outcome_fmap prod_map fst snd id].
    rewrite probe_axes. destruct (probe _ _ West _ _) as [[d2 bb2]|]; [|done].
    cbn [mbind outcome_bind fmap outcome_fmap prod_map fst snd id].
    rewrite probe_axes. destruct (probe _ _ North _ _) as [[d3 bb3]|]; [|done].
    cbn [mbind outcome_bind fmap outcome_fmap prod_map fst snd id].
    rewrite probe_axes. destruct (probe _ _ South _ _) as [[d4 bb4]|]; [|done].
    cbn [mbind outcome_bind fmap outcome_fmap prod_map fst snd id]. apply IH.
Qed.

Lemma boundSegment_axes type bb areaRatio (s : SSegment.t F) :
  boundSegment type bb areaRatio (eraseAxes s)
  = eraseAxes (boundSegment type bb areaRatio s).
Proof. by destruct s. Qed.

Lemma seedSegment_axes d ii (s : SSegment.t F) :
  seedSegment (axesErased d) ii (eraseAxes s) = eraseAxes (seedSegment d ii s).
Proof. unfold seedSegment. by autorewrite with axes. Qed.

Lemma looksRound_axes d (s : SSegment.t F) :
  looksRound (axesErased d) (eraseAxes s) = looksRound d s.
Proof. unfold looksRound. by autorewrite with axes. Qed.

Lemma describeSegment_axes image type areaRatio bb d segmen :
  describeSegment image type areaRatio bb (axesErased d) (eraseAxes segmen)
  = prod_map id eraseAxes <$> describeSegment image type areaRatio bb d segmen.
Proof.
  unfold describeSegment. cbv zeta.
  rewrite !erase_set_size, !boundSegment_axes, !looksRound_axes.
  autorewrite with axes.
  destruct (_ <? _); [|done]. destruct (looksRound _ _); [|done].
  destruct (for_range _ _ _ _) as [m|]; [|done].
  cbn [mbind outcome_bind fmap outcome_fmap prod_map id fst snd].
  by autorewrite with axes.
Qed.

Lemma examineSegment_axes image si ii areaRatio d :
  examineSegment image si ii areaRatio (axesErased d)
  = prod_map id axesErased <$> examineSegment image si ii areaRatio d.
Proof.
  unfold examineSegment.
  rewrite axes_queueStart, axes_set_queueOldStart.
  generalize (set_queueOldStart (queueStart d) d). clear d. intros d.
  cbv zeta.
  rewrite axes_buffer.
  destruct (rd OobBuffer _ ii) as [type|]; [|done]. cbn [mbind outcome_bind].
  rewrite axes_segmentArray, rd_fmap.
  destruct (rd OobSegment _ si) as [segmen|]; [|done].
  cbn [mbind outcome_bind fmap outcome_fmap].
  rewrite axes_numSegments, axes_set_numSegments.
  generalize (set_numSegments (numSegments d + 1) d). clear d. intros d.
  rewrite axes_buffer, axes_numSegments.
  destruct (wr OobBuffer _ ii _) as [buf|]; [|done]. cbn [mbind outcome_bind].
  rewrite axes_set_buffer.
  generalize (set_buffer buf d). clear d. intros d.
  rewrite axes_queue, axes_queueEnd.
  destruct (wr OobQueue _ _ ii) as [q|]; [|done]. cbn [mbind outcome_bind].
  rewrite axes_set_queue, axes_set_queueEnd, !axes_width, seedSegment_axes.
  generalize (seedSegment d ii segmen). intros seg0.
  generalize (ii `rem` width d) (ii `quot` width d). intros x0 y0.
  generalize (set_queueEnd (queueEnd d + 1) (set_queue q d)). clear d. intros d.
  rewrite axes_queue, floodFill_axes.
  destruct (floodFill _ _ _ _) as [[d4 bb]|]; [|done].
  cbn [mbind outcome_bind fmap outcome_fmap prod_map fst snd id].
  rewrite describeSegment_axes.
  destruct (describeSegment _ _ _ _ _ _) as [[result segmen']|]; [|done].
  cbn [mbind outcome_bind fmap outcome_fmap prod_map fst snd id].
  rewrite axes_segmentArray, wr_fmap.
  destruct (wr OobSegment _ _ _) as [segs|]; [|done].
  cbn [mbind outcome_bind fmap outcome_fmap prod_map fst snd id].
  by rewrite axes_set_segmentArray.
Qed.

Lemma pairOK_axes d (o i : SSegment.t F) :
  pairOK (axesErased d) (eraseAxes o) (eraseAxes i) = pairOK d o i.
Proof. unfold pairOK, ratioOK, concentricOK. by autorewrite with axes. Qed.

Lemma seekInner_axes image d :
  seekInner MAX_SEGMENTS image (axesErased d)
  = prod_map axesErased id <$> seekInner MAX_SEGMENTS image d.
Proof.
  unfold seekInner. rewrite axes_segmentArray, axes_numSegments, rd_fmap.
  destruct (rd OobSegment _ _) as [o|]; [|done].
  cbn [mbind outcome_bind fmap outcome_fmap].
  rewrite erase_x, erase_y, classify_axes.
  destruct (classify _ _ d) as [d1|]; [|done].
  cbn [mbind outcome_bind fmap outcome_fmap].
  rewrite axes_buffer, !axes_numSegments, axes_innerAreaRatio.
  destruct (rd OobBuffer _ _) as [v|]; [|done]. cbn [mbind outcome_bind].
  destruct (_ && _); [|done].
  rewrite examineSegment_axes.
  destruct (examineSegment _ _ _ _ d1) as [[found d2]|]; [|done].
  cbn [mbind outcome_bind fmap outcome_fmap prod_map id fst snd].
  destruct found; [|done].
  rewrite axes_segmentArray, axes_numSegments, !rd_fmap.
  destruct (rd OobSegment _ (_ - 2)) as [o'|]; [|done].
  cbn [mbind outcome_bind fmap outcome_fmap].
  destruct (rd OobSegment _ (_ - 1)) as [i'|]; [|done].
  cbn [mbind outcome_bind fmap outcome_fmap prod_map id fst snd].
  by rewrite pairOK_axes.
Qed.

Lemma seekPair_axes image ii d :
  seekPair MAX_SEGMENTS image ii (axesErased d)
  = prod_map axesErased id <$> seekPair MAX_SEGMENTS image ii d.
Proof.
  unfold seekPair. rewrite !axes_buffer, !axes_threshold.
  destruct (rd OobBuffer _ _) as [v|]; [|done]. cbn [mbind outcome_bind].
  assert ((if v =? 0
           then s ← pixelSum image ii;
                if s <? threshold d
                then buf ← wr OobBuffer (buffer d) ii (-2);
                     Ok (set_buffer buf (axesErased d))
                else Ok (axesErased d)
           else Ok (axesErased d))
          = axesErased <$>
              (if v =? 0
               then s ← pixelSum image ii;
                    if s <? threshold d
                    then buf ← wr OobBuffer (buffer d) ii (-2);
                         Ok (set_buffer buf d)
                    else Ok d
               else Ok d)) as ->.
  { destruct (v =? 0); [|done]. destruct (pixelSum _ _); [|done].
    cbn [mbind outcome_bind]. destruct (_ <? _); [|done].
    destruct (wr _ _ _ _); [|done]. cbn [mbind outcome_bind fmap outcome_fmap].
    by rewrite axes_set_buffer. }
  match goal with |- context [fmap _ ?m] => destruct m as [d1|]; [|done] end.
  cbn [mbind outcome_bind fmap outcome_fmap].
  rewrite axes_buffer, axes_numSegments.
  destruct (rd OobBuffer _ _) as [v'|]; [|done]. cbn [mbind outcome_bind].
  destruct (_ && _); [|done]. cbv zeta.
  rewrite axes_set_queueEnd, axes_set_queueStart, axes_numSegments,
    axes_outerAreaRatio.
  rewrite examineSegment_axes.
  destruct (examineSegment _ _ _ _ _) as [[found d2]|]; [|done].
  cbn [mbind outcome_bind fmap outcome_fmap prod_map id fst snd].
  destruct found; [|done]. apply seekInner_axes.
Qed.

(** ** The shape fit

    The fit reads the ratio for the leakage correction, and writes the
    corrected semi-axes: it commutes with the erasure up to the erasure. *)

Lemma axesErased_agree d1 d2 :
  axesErased d1 = axesErased d2 →
  len d1 = len d2 ∧ track d1 = track d2 ∧ draw d1 = draw d2
  ∧ numSegments d1 = numSegments d2
  ∧ queueOldStart d1 = queueOldStart d2 ∧ queueEnd d1 = queueEnd d2
  ∧ queue d1 = queue d2.
Proof.
  intros H.
  rewrite <- (axes_len d1), <- (axes_track d1), <- (axes_draw d1),
    <- (axes_numSegments d1), <- (axes_queueOldStart d1),
    <- (axes_queueEnd d1), <- (axes_queue d1), H.
  by autorewrite with axes.
Qed.

Lemma axesErased_segments v v' d d' :
  eraseAxes <$> v = eraseAxes <$> v' → axesErased d = axesErased d' →
  axesErased (set_segmentArray v d) = axesErased (set_segmentArray v' d').
Proof.
  intros Hv Hd. destruct d, d'. unfold axesErased in *.
  cbn in *. rewrite Hv. by injection Hd as -> -> -> -> -> -> -> -> -> -> -> ->
    -> -> -> -> -> -> -> -> -> -> -> -> -> _ -> ->.
Qed.

Lemma store_axes e (l : list (SSegment.t F)) i v v' d (k : Z) :
  eraseAxes v = eraseAxes v' →
  prod_map axesErased id <$>
    (segs ← wr e (eraseAxes <$> l) i v;
     Ok (set_segmentArray segs (axesErased d), k))
  = prod_map axesErased id <$>
      (segs ← wr e l i v'; Ok (set_segmentArray segs d, k)).
Proof.
  intros Hv. unfold wr. rewrite length_fmap. destruct (_ && _); [|done].
  cbn [mbind outcome_bind fmap outcome_fmap prod_map id fst snd].
  do 2 f_equal. apply axesErased_segments; [|apply axesErased_idemp].
  by rewrite !list_fmap_insert, eraseAxes_fmap_idemp, Hv.
Qed.

Lemma rawFit_axes fm0 fm1 f0 f1 (o i : SSegment.t F) :
  rawFit fm0 fm1 f0 f1 (eraseAxes o) (eraseAxes i) = rawFit fm0 fm1 f0 f1 o i.
Proof. by destruct o, i. Qed.

Lemma circular_axes d (i : SSegment.t F) :
  circular (axesErased d) i = circular d i.
Proof. unfold circular. by autorewrite with axes. Qed.

Lemma acceptInner_axes d sx sy f0 f1 (o i : SSegment.t F) :
  eraseAxes (acceptInner (axesErased d) sx sy f0 f1 (eraseAxes o) i)
  = eraseAxes (acceptInner d sx sy f0 f1 o i).
Proof. by destruct o, i. Qed.

Lemma acceptOuter_axes sx sy (o : SSegment.t F) :
  acceptOuter sx sy (eraseAxes o) = eraseAxes (acceptOuter sx sy o).
Proof. by destruct o. Qed.

Lemma shapeFit_axes image start ii d :
  prod_map axesErased id <$> shapeFit image start ii (axesErased d)
  = prod_map axesErased id <$> shapeFit image start ii d.
Proof.
  unfold shapeFit.
  rewrite !axes_segmentArray, !axes_numSegments, !axes_queueOldStart,
    !axes_queueEnd, !axes_queue, !axes_track, !rd_fmap.
  destruct (rd OobSegment _ (_ - 2)) as [o|]; [|done].
  cbn [mbind outcome_bind fmap outcome_fmap].
  destruct (rd OobSegment _ (_ - 1)) as [i|]; [|done].
  cbn [mbind outcome_bind fmap outcome_fmap].
  destruct (for_range _ _ _ _) as [s|]; [|done]. cbn [mbind outcome_bind].
  destruct (for_range _ _ _ _) as [s'|]; [|done]. cbn [mbind outcome_bind].
  destruct (for_range _ _ _ _) as [cm|]; [|done].
  cbn beta iota delta [mbind outcome_bind]. cbv zeta.
  rewrite !erase_set_x, !erase_set_y, !rawFit_axes, circular_axes.
  match goal with |- context [SSegment.set_y ?a (SSegment.set_x ?b o)] =>
    generalize (SSegment.set_y a (SSegment.set_x b o)) end.
  intros o'.
  match goal with |- context [rawFit ?x1 ?x2 ?x3 ?x4 ?x5 ?x6] =>
    generalize (rawFit x1 x2 x3 x4 x5 x6) end.
  intros i'. destruct (circular d i').
  - rewrite erase_mean, axes_set_threshold, !axes_segmentArray,
      !axes_numSegments, acceptOuter_axes, wr_fmap.
    rewrite !numSegments_set_threshold, !segmentArray_set_threshold.
    destruct (wr OobSegment _ (_ - 2) _) as [segs|]; [|done].
    cbn [mbind outcome_bind fmap outcome_fmap].
    apply store_axes, acceptInner_axes.
  - rewrite wr_fmap.
    destruct (wr OobSegment _ (_ - 2) _) as [segs|]; [|done].
    cbn [mbind outcome_bind fmap outcome_fmap].
    by apply store_axes.
Qed.

Lemma Ok_pair_inj {A B} (a a' : A) (b b' : B) :
  Ok (a, b) = Ok (a', b') → a = a' ∧ b = b'.
Proof. by intros [= -> ->]. Qed.

Lemma scanStep_axes image start ii d :
  prod_map axesErased id <$> scanStep MAX_SEGMENTS image start ii (axesErased d)
  = prod_map axesErased id <$> scanStep MAX_SEGMENTS image start ii d.
Proof.
  unfold scanStep. rewrite seekPair_axes.
  destruct (seekPair _ _ _ d) as [[d1 fit]|]; [|done].
  cbn [mbind outcome_bind fmap outcome_fmap prod_map id fst snd].
  destruct fit; [apply shapeFit_axes|].
  cbn [fmap outcome_fmap prod_map id fst snd]. by rewrite axesErased_idemp.
Qed.

Lemma scanLoop_axes fuel image start ii d :
  axesErased <$> scanLoop MAX_SEGMENTS fuel image start ii (axesErased d)
  = axesErased <$> scanLoop MAX_SEGMENTS fuel image start ii d.
Proof.
  revert ii d. induction fuel as [|fuel IH]; intros ii d; cbn [scanLoop]; [done|].
  pose proof (scanStep_axes image start ii d) as Hstep.
  destruct (scanStep _ _ _ _ (axesErased d)) as [[dl il]|],
    (scanStep _ _ _ _ d) as [[dr ir]|];
    cbn [fmap outcome_fmap prod_map id fst snd] in Hstep;
    try discriminate Hstep; [|by injection Hstep as ->].
  apply Ok_pair_inj in Hstep as [Hd ->].
  cbn [mbind outcome_bind]. cbv zeta. unfold nextIndex.
  destruct (axesErased_agree _ _ Hd) as (Hlen & _). rewrite Hlen.
  destruct (_ =? start); [cbn [fmap outcome_fmap]; by rewrite Hd|].
  by rewrite <- (IH _ dl), <- (IH _ dr), Hd.
Qed.

(** ** The rest of a frame *)

Lemma for_loop_fmap {St} (g : St → St) n i (body body' : Z → St → outcome St) s :
  (∀ j t, body' j (g t) = g <$> body j t) →
  for_loop n i body' (g s) = g <$> for_loop n i body s.
Proof.
  intros Hb. revert i s. induction n as [|n IH]; intros i s; simpl; [done|].
  rewrite Hb. destruct (body i s); [apply IH | done].
Qed.

Lemma selectStep_axes d i result :
  selectStep (axesErased d) i (eraseAxes result)
  = eraseAxes <$> selectStep d i result.
Proof.
  unfold selectStep. rewrite axes_segmentArray, rd_fmap.
  destruct (rd OobSegment _ _) as [s|]; [|done].
  cbn [mbind outcome_bind fmap outcome_fmap].
  autorewrite with axes.
  by destruct (_ && _), (SSegment.valid s).
Qed.

Lemma select_axes d result :
  for_range 0 (numSegments d) (selectStep (axesErased d)) (eraseAxes result)
  = eraseAxes <$> for_range 0 (numSegments d) (selectStep d) result.
Proof. apply for_loop_fmap. intros j t. apply selectStep_axes. Qed.

Lemma changeThreshold_axes d :
  changeThreshold (axesErased d) = prod_map id axesErased (changeThreshold d).
Proof. unfold changeThreshold. by autorewrite with axes. Qed.

Lemma trackingUpdate_axes result d :
  trackingUpdate (eraseAxes result) (axesErased d)
  = axesErased <$> trackingUpdate result d.
Proof.
  unfold trackingUpdate. rewrite !axes_numSegments, !axes_segmentArray, !rd_fmap.
  assert ((if numSegments d =? 2
           then s0 ← eraseAxes <$> rd OobSegment (segmentArray d) 0;
                if SSegment.valid s0
                then s1 ← eraseAxes <$> rd OobSegment (segmentArray d) 1;
                     Ok (SSegment.valid s1)
                else Ok false
           else Ok false)
          = (if numSegments d =? 2
             then s0 ← rd OobSegment (segmentArray d) 0;
                  if SSegment.valid s0
                  then s1 ← rd OobSegment (segmentArray d) 1;
                       Ok (SSegment.valid s1)
                  else Ok false
             else Ok false)) as ->.
  { destruct (_ =? 2); [|done].
    destruct (rd OobSegment _ 0) as [s0|]; [|done].
    cbn [mbind outcome_bind fmap outcome_fmap]. rewrite erase_valid.
    destruct (SSegment.valid s0); [|done].
    destruct (rd OobSegment _ 1) as [s1|]; [|done].
    cbn [mbind outcome_bind fmap outcome_fmap]. by rewrite erase_valid. }
  match goal with |- context [mbind _ ?m] => destruct m as [ok|]; [|done] end.
  cbn [mbind outcome_bind]. rewrite !axes_set_lastTrackOK, erase_valid.
  generalize (set_lastTrackOK ok d). clear d. intros d. cbv zeta.
  autorewrite with axes.
  destruct (SSegment.valid result); [done|].
  destruct (numFailed d <? maxFailed d).
  { destruct (_ `rem` 2 =? 0).
    - rewrite !changeThreshold_axes.
      destruct (changeThreshold _) as [more dc]. cbn [prod_map snd].
      autorewrite with axes.
      by match goal with |- context [if ?c then _ else _] => destruct c end.
    - autorewrite with axes.
      by match goal with |- context [if ?c then _ else _] => destruct c end. }
  rewrite !changeThreshold_axes.
  destruct (changeThreshold _) as [more dc]. cbn [prod_map fst snd id].
  destruct more; autorewrite with axes;
    by match goal with |- context [if ?c then _ else _] => destruct c end.
Qed.

Lemma drawStep_axes d i dat : drawStep (axesErased d) i dat = drawStep d i dat.
Proof.
  unfold drawStep. rewrite axes_buffer, axes_drawAll, axes_segmentArray.
  destruct (rd OobBuffer _ _) as [j|]; [|done]. cbn [mbind outcome_bind].
  destruct (0 <? j); [|done]. destruct (drawAll d); [done|].
  rewrite rd_fmap.
  destruct (rd OobSegment _ _) as [s|]; [|done].
  cbn [mbind outcome_bind fmap outcome_fmap]. by rewrite erase_valid.
Qed.

Lemma bufferCleanup_axes init d :
  bufferCleanup (eraseAxes init) (axesErased d)
  = axesErased <$> bufferCleanup init d.
Proof.
  unfold bufferCleanup. autorewrite with axes.
  destruct (_ || _).
  - destruct (memset0 _ _); [|done]. cbn [mbind outcome_bind].
    destruct (for_range _ _ _ _); [|done]. cbn [mbind outcome_bind].
    destruct (for_range _ _ _ _); [|done]. cbn [mbind outcome_bind].
    cbn [fmap outcome_fmap]. by autorewrite with axes.
  - destruct (for_range _ _ _ _); [|done]. cbn [mbind outcome_bind].
    cbn [fmap outcome_fmap]. by autorewrite with axes.
Qed.

Lemma fmap_bind_sim {A B C} (g : A → A) (h : B → C) (m1 m2 : outcome A)
    (k1 k2 : A → outcome B) :
  g <$> m1 = g <$> m2 →
  (∀ a1 a2, g a1 = g a2 → h <$> k1 a1 = h <$> k2 a2) →
  h <$> (m1 ≫= k1) = h <$> (m2 ≫= k2).
Proof.
  destruct m1, m2; cbn; intros H Hk; try discriminate H.
  - injection H. apply Hk.
  - by injection H as ->.
Qed.

Lemma Ok_inj {A} (a a' : A) : Ok a = Ok a' → a = a'.
Proof. by intros [= ->]. Qed.

(** X17.  [setDiameterRatio] changes the semi-axes and nothing else.  A
    frame processed after [setDiameterRatio r] and the same frame
    processed without it end alike, with the same fault or with results
    and states that differ at most in [m0] and [m1] of the segments and
    in [diameterRatio] itself: the acceptance tests use the area ratios
    that the constructor computed, which the method does not update, and
    the ratio enters only the leakage correction of the semi-axes.  The
    frames written are the same. *)
Theorem setDiameterRatio_only_axes image init r d :
  prod_map (prod_map eraseAxes axesErased) id
    <$> findSegment MAX_SEGMENTS image init (setDiameterRatio r d)
  = prod_map (prod_map eraseAxes axesErased) id
    <$> findSegment MAX_SEGMENTS image init d.
Proof.
  pose proof (axes_setDiameterRatio r d) as HN. revert HN.
  generalize (setDiameterRatio r d). intros d1 HN.
  unfold findSegment. cbv zeta.
  assert (axesErased (set_numSegments 0 d1) = axesErased (set_numSegments 0 d))
    as H0 by by rewrite <- !axes_set_numSegments, HN.
  assert (scanStart image init (set_numSegments 0 d1)
          = scanStart image init (set_numSegments 0 d)) as ->.
  { unfold scanStart. by destruct (axesErased_agree _ _ H0) as (_ & -> & _). }
  destruct (axesErased_agree _ _ H0) as (-> & _).
  revert H0. generalize (set_numSegments 0 d1) (set_numSegments 0 d).
  clear. intros d1 d2 H0.
  apply fmap_bind_sim with (g := axesErased).
  { by rewrite <- (scanLoop_axes _ _ _ _ d1), H0, scanLoop_axes. }
  clear. intros ds1 ds2 Hs.
  apply fmap_bind_sim with (g := eraseAxes).
  { rewrite <- !select_axes.
    destruct (axesErased_agree _ _ Hs) as (_ & _ & _ & -> & _).
    by rewrite Hs. }
  intros r1 r2 Hr.
  apply fmap_bind_sim with (g := axesErased).
  { by rewrite <- !trackingUpdate_axes, Hr, Hs. }
  clear Hs. intros dt1 dt2 Ht.
  destruct (axesErased_agree _ _ Ht) as (Hlen & _ & Hdraw & _ & Hos & Hqe & Hq).
  rewrite Hos, Hqe, Hq, Hdraw, Hlen.
  destruct (for_range _ _ (blackenStep _) _) as [dat|]; [|done].
  cbn [mbind outcome_bind].
  assert (for_range 0 (len dt2) (drawStep dt1) dat
          = for_range 0 (len dt2) (drawStep dt2) dat) as ->.
  { apply for_loop_ext. intros j t.
    by rewrite <- (drawStep_axes dt1), Ht, drawStep_axes. }
  match goal with
  | |- context [mbind _ (if ?c then ?a else ?b)] =>
      destruct (if c then a else b) as [dat'|]; [|done]
  end.
  cbn [mbind outcome_bind].
  pose proof (bufferCleanup_axes r1 dt1) as H1.
  rewrite Hr, Ht, bufferCleanup_axes in H1.
  destruct (bufferCleanup r1 dt1) as [c1|], (bufferCleanup r2 dt2) as [c2|];
    cbn [fmap outcome_fmap] in H1; try discriminate H1;
    cbn [mbind outcome_bind fmap outcome_fmap prod_map id fst snd];
    [|by injection H1 as ->].
  apply Ok_inj in H1. by rewrite Hr, H1.
Qed.
End Properties.

(** * Examples on synthetic frames *)

Local Open Scope Z_scope.

(** ** The runs *)




Lemma ideal_run :
  findSegment Sample.MAX_SEGMENTS Sample.ideal noSegment Sample.started
  = Ok (Sample.idealResult, Sample.idealAfter, snd Sample.idealRun).
Proof. vm_compute. reflexivity. Qed.

Lemma verbose_run :
  findSegment Sample.MAX_SEGMENTS Sample.ideal noSegment Sample.verbose
  = Ok Sample.verboseRun.
Proof. vm_compute. reflexivity. Qed.

Lemma offCentre_run :
  findSegment Sample.MAX_SEGMENTS Sample.offCentre noSegment Sample.started
  = Ok Sample.offCentreRun.
Proof. vm_compute. reflexivity. Qed.

Lemma offCentre_pair :
  seekPair Sample.MAX_SEGMENTS Sample.offCentre Sample.seed Sample.started
  = Ok Sample.offCentrePair.
Proof. vm_compute. reflexivity. Qed.

Lemma smallHole_pair :
  seekPair Sample.MAX_SEGMENTS Sample.smallHole Sample.seed Sample.started
  = Ok Sample.smallHolePair.
Proof. vm_compute. reflexivity. Qed.

Lemma dim_run1 :
  findSegment Sample.MAX_SEGMENTS Sample.dim noSegment Sample.untracked
  = Ok Sample.dimRun1.
Proof. vm_compute. reflexivity. Qed.



(** ** The threshold schedule at five failures *)

Lemma changeThreshold_schedule_witness :
  let d := set_numFailed 5 Sample.started in
  1 ≤ numFailed d
  ∧ (let div := 2 ^ Z.log2 (numFailed d) in
     let step := 256 `quot` div in
     div ≤ numFailed d < 2 * div
     ∧ threshold (snd (changeThreshold d))
       = 3 * (step * (numFailed d - div) + step `quot` 2)
     ∧ (fst (changeThreshold d) = true ↔ 16 < step)
     ∧ map (λ n, threshold (snd (changeThreshold (set_numFailed n d))) `quot` 3)
           [1; 2; 3; 4; 5; 6; 7]
       = [128; 64; 192; 32; 96; 160; 224]).
Proof.
  intros d.
  assert (h : 1 ≤ numFailed d) by (vm_compute; discriminate).
  exact (conj h (changeThreshold_schedule d h)).
Defined.

(** ** The ideal ring *)


Lemma valid_result_center_witness :
  ∃ result d' image',
    findSegment Sample.MAX_SEGMENTS Sample.ideal noSegment Sample.started
    = Ok (result, d', image')
    ∧ SSegment.valid result = true
    ∧ ∃ ii dv dm,
        visits Sample.MAX_SEGMENTS Sample.ideal
          (scanStart Sample.ideal noSegment Sample.started)
          (set_numSegments 0 Sample.started) ii dv
        ∧ seekPair Sample.MAX_SEGMENTS Sample.ideal ii dv = Ok (dm, true)
        ∧ unionCentroid Sample.ideal dm
          = Ok (SSegment.x result, SSegment.y result).
Proof.
  do 3 eexists.
  assert (h2 : SSegment.valid Sample.idealResult = true) by reflexivity.
  exact (conj ideal_run (conj h2
           (valid_result_center _ _ _ _ _ _ _ ideal_run h2))).
Defined.

Lemma valid_result_axes_witness :
  ∃ result d' image',
    findSegment Sample.MAX_SEGMENTS Sample.ideal noSegment Sample.started
    = Ok (result, d', image')
    ∧ SSegment.valid result = true
    ∧ ∃ ii dv dm o i f0 f1,
        visits Sample.MAX_SEGMENTS Sample.ideal
          (scanStart Sample.ideal noSegment Sample.started)
          (set_numSegments 0 Sample.started) ii dv
        ∧ seekPair Sample.MAX_SEGMENTS Sample.ideal ii dv = Ok (dm, true)
        ∧ segment dm (numSegments dm - 2) = Some o
        ∧ segment dm (numSegments dm - 1) = Some i
        ∧ unionEigen Sample.ideal dm = Ok (f0, f1)
        ∧ let t := leakage dm f0 f1 (SSegment.size o) (SSegment.size i) in
          SSegment.m0 result = (fsqrt f0 + t)%fl
          ∧ SSegment.m1 result = (fsqrt f1 + t)%fl.
Proof.
  do 3 eexists.
  assert (h2 : SSegment.valid Sample.idealResult = true) by reflexivity.
  exact (conj ideal_run (conj h2
           (valid_result_axes _ _ _ _ _ _ _ ideal_run h2))).
Defined.

(** The cleanup after the ideal ring was found, tracking enabled: the
    margin of the result is cleared. *)
Lemma bufferCleanup_policy_witness :
  let init := Sample.idealResult in
  let d := Sample.idealAfter in
  (0 < width d ∧ 0 < height d ∧ len d = width d * height d
   ∧ Z.of_nat (length (buffer d)) = len d)
  ∧ ∃ buf, bufferCleanup init d = Ok (set_buffer buf d)
      ∧ Z.of_nat (length buf) = len d
      ∧ ∀ x y, 0 ≤ x < width d → 0 ≤ y < height d →
          buf !! cell d x y
          = if negb (SSegment.valid init) || negb (track d) || negb (lastTrackOK d)
            then Some (if onBorder d x y then -1000 else 0)
            else if inMargin d init x y then Some 0
            else buffer d !! cell d x y.
Proof.
  intros init d.
  assert (h1 : 0 < width d) by reflexivity.
  assert (h2 : 0 < height d) by reflexivity.
  assert (h3 : len d = width d * height d) by reflexivity.
  assert (h4 : Z.of_nat (length (buffer d)) = len d) by reflexivity.
  exact (conj (conj h1 (conj h2 (conj h3 h4)))
           (bufferCleanup_policy init d h1 h2 h3 h4)).
Defined.

(** The ideal ring with and without [debug] and [draw]. *)
Lemma diagnostic_flags_inert_witness :
  ∃ result1 d1 image1 result2 d2 image2,
    findSegment Sample.MAX_SEGMENTS Sample.ideal noSegment
      (withFlags false false Sample.started) = Ok (result1, d1, image1)
    ∧ findSegment Sample.MAX_SEGMENTS Sample.ideal noSegment
        (withFlags true true Sample.started) = Ok (result2, d2, image2)
    ∧ result1 = result2
    ∧ threshold d1 = threshold d2
    ∧ numFailed d1 = numFailed d2
    ∧ withDiag false false false d1 = withDiag false false false d2.
Proof.
  do 6 eexists.
  assert (h1 : findSegment Sample.MAX_SEGMENTS Sample.ideal noSegment
                 (withFlags false false Sample.started)
               = Ok (Sample.idealResult, Sample.idealAfter, snd Sample.idealRun))
    by exact ideal_run.
  assert (h2 : findSegment Sample.MAX_SEGMENTS Sample.ideal noSegment
                 (withFlags true true Sample.started)
               = Ok (fst (fst Sample.verboseRun), snd (fst Sample.verboseRun),
                     snd Sample.verboseRun))
    by exact verbose_run.
  exact (conj h1 (conj h2
           (diagnostic_flags_inert _ _ _ _ _ _ _ _ _ _ _ _ _ _ h1 h2))).
Defined.


(** ** A hole that is too small *)

(** Both regions are round, the quotient of the areas is about 1.7, and
    the cascade reports no fit. *)
Lemma ratio_mismatch_rejected_witness :
  ∃ dm fit o i,
    let d := Sample.started in
    (seekPair Sample.MAX_SEGMENTS Sample.smallHole Sample.seed d = Ok (dm, fit)
     ∧ 0 ≤ numSegments d
     ∧ numSegments dm = numSegments d + 2
     ∧ segment dm (numSegments d) = Some o
     ∧ segment dm (numSegments d + 1) = Some i
     ∧ (let q := (fofZ (SSegment.size o) / areasRatio dm
                  / fofZ (SSegment.size i))%fl in
        (q - ratioTolerance dm <? fofZ 1)%fl = false
        ∨ (fofZ 1 <? q + ratioTolerance dm)%fl = false))
    ∧ (SSegment.round o = true ∧ SSegment.round i = true)
    ∧ fit = false
    ∧ SSegment.valid o = false ∧ SSegment.valid i = false
    ∧ scanStep Sample.MAX_SEGMENTS Sample.smallHole 0 Sample.seed d
      = Ok (dm, Sample.seed).
Proof.
  exists (fst Sample.smallHolePair), (snd Sample.smallHolePair).
  do 2 eexists. intros d.
  assert (h1 : seekPair Sample.MAX_SEGMENTS Sample.smallHole Sample.seed d
               = Ok (fst Sample.smallHolePair, snd Sample.smallHolePair))
    by exact smallHole_pair.
  assert (h2 : 0 ≤ numSegments d) by (vm_compute; discriminate).
  assert (h3 : numSegments (fst Sample.smallHolePair) = numSegments d + 2)
    by reflexivity.
  refine (let h4 := eq_refl in let h5 := eq_refl in
          let h6 := or_introl eq_refl in
          conj (conj h1 (conj h2 (conj h3 (conj h4 (conj h5 h6)))))
            (conj (conj eq_refl eq_refl)
               (ratio_mismatch_rejected _ _ 0 _ _ _ _ _ _ h1 h2 h3 h4 h5 h6))).
Defined.

(** ** A frame that needs another threshold *)



(** ** A hole off the centre *)

(** C1 fails.  The hole of the ring lies one pixel to the right of the
    centre of the ring.  The ring is found; the centroid of the pixels of
    the inner region is (17, 16), and the centre of the result is
    (16, 16), the centroid of the pixels of both regions. *)
Lemma center_is_not_inner_centroid :
  ∃ result d' image' dm,
    findSegment Sample.MAX_SEGMENTS Sample.offCentre noSegment Sample.started
    = Ok (result, d', image')
    ∧ SSegment.valid result = true
    ∧ seekPair Sample.MAX_SEGMENTS Sample.offCentre Sample.seed Sample.started
      = Ok (dm, true)
    ∧ lastCentroid Sample.offCentre dm
      = Ok (Binary32.of_Z 17, Binary32.of_Z 16)
    ∧ unionCentroid Sample.offCentre dm
      = Ok (Binary32.of_Z 16, Binary32.of_Z 16)
    ∧ SSegment.x result = Binary32.of_Z 16
    ∧ SSegment.y result = Binary32.of_Z 16
    ∧ SSegment.x result ≠ Binary32.of_Z 17.
Proof.
  exists (fst (fst Sample.offCentreRun)), (snd (fst Sample.offCentreRun)),
    (snd Sample.offCentreRun), (fst Sample.offCentrePair).
  split; [exact offCentre_run|]. split; [reflexivity|].
  split; [exact offCentre_pair|].
  split; [vm_compute; reflexivity|]. split; [vm_compute; reflexivity|].
  split; [reflexivity|]. split; [reflexivity|]. discriminate.
Qed.

(** ** The semi-axes of the ideal ring *)

(** C2 fails.  The ring has the radii 14 and 5, which are in the
    configured ratio; both semi-axis members of the result lie between 7
    and 8. *)
Lemma axes_are_not_the_radii :
  ∃ result d' image',
    findSegment Sample.MAX_SEGMENTS Sample.ideal noSegment Sample.started
    = Ok (result, d', image')
    ∧ SSegment.valid result = true
    ∧ diameterRatio Sample.started
      = Binary32.div (Binary32.of_Z 5) (Binary32.of_Z 14)
    ∧ (Binary32.of_Z 7 <? SSegment.m0 result)%fl = true
    ∧ (SSegment.m0 result <? Binary32.of_Z 8)%fl = true
    ∧ (Binary32.of_Z 7 <? SSegment.m1 result)%fl = true
    ∧ (SSegment.m1 result <? Binary32.of_Z 8)%fl = true.
Proof.
  do 3 eexists. split; [exact ideal_run|].
  repeat split; reflexivity.
Qed.

(** ** Examples on the small frame *)

Lemma tiny_started : Sample.tinyDetector = Ok Sample.tinyStarted.
Proof. vm_compute. reflexivity. Qed.

Lemma tiny_run :
  findSegment Sample.MAX_SEGMENTS Sample.tinyFrame noSegment Sample.tinyStarted
  = Ok Sample.tinyRun.
Proof. vm_compute. reflexivity. Qed.

Lemma tiny_pair :
  seekPair Sample.MAX_SEGMENTS Sample.tinyFrame Sample.tinySeed Sample.tinyStarted
  = Ok Sample.tinyPair.
Proof. vm_compute. reflexivity. Qed.

Lemma tiny_fit :
  shapeFit Sample.tinyFrame 0 Sample.tinySeed (fst Sample.tinyPair)
  = Ok Sample.tinyFit.
Proof. vm_compute. reflexivity. Qed.

Lemma tiny_outer :
  examineSegment Sample.tinyFrame 0 Sample.tinySeed
    (outerAreaRatio Sample.tinyReady) Sample.tinyReady
  = Ok Sample.tinyOuter.
Proof. vm_compute. reflexivity. Qed.

Lemma tiny_cleanup :
  bufferCleanup (fst (fst Sample.tinyRun)) (snd (fst Sample.tinyRun))
  = Ok (snd (fst Sample.tinyRun)).
Proof. vm_compute. reflexivity. Qed.

Lemma scanReady_tinyStarted : scanReady Sample.tinyStarted.
Proof. exact (CCircleDetect_scanReady _ _ _ _ _ tiny_started). Qed.

Lemma fenced_tinyStarted : fenced Sample.tinyStarted.
Proof.
  by apply (CCircleDetect_fenced Sample.MAX_SEGMENTS 12 12
              (Binary32.div (Binary32.of_Z 1) (Binary32.of_Z 2))).
Qed.

Lemma seedReady_tinyReady : seedReady Sample.tinyReady.
Proof.
  split; [|split; [done|]].
  - change Sample.tinyReady
      with (set_buffer (<[Z.to_nat Sample.tinySeed := -2]>
                          (buffer Sample.tinyStarted)) Sample.tinyStarted).
    apply scanReady_set_buffer; [by rewrite length_insert|].
    exact scanReady_tinyStarted.
  - intros p Hp. by apply elem_of_nil in Hp.
Qed.

Lemma fenced_tinyReady : fenced Sample.tinyReady.
Proof.
  change Sample.tinyReady
    with (set_buffer (<[Z.to_nat Sample.tinySeed := -2]>
                        (buffer Sample.tinyStarted)) Sample.tinyStarted).
  apply fenced_set_buffer; [by rewrite length_insert| |exact fenced_tinyStarted].
  intros p Hp. rewrite list_lookup_insert_ne; [done|].
  intros <-. discriminate Hp.
Qed.

Lemma wellLabelled_tinyStarted :
  wellLabelled Sample.MAX_SEGMENTS Sample.tinyStarted.
Proof.
  split; [exact fenced_tinyStarted|].
  intros p v.
  apply (Forall_lookup_1
           (λ v, v = -1000 ∨ -2 ≤ v ≤ 0 ∨ 1 ≤ v ≤ Sample.MAX_SEGMENTS)).
  eapply bool_decide_unpack. vm_compute. exact I.
Qed.



(** ** The further properties on the examples *)

(** The detector as constructed, with no failure counted: the sweep is not
    exhausted and the threshold becomes -384. *)
Lemma sweep_exhausted_from_16_witness :
  let d := Sample.tinyStarted in
  (0 ≤ numFailed d < 2 ^ 31)
  ∧ ((fst (changeThreshold d) = false ↔ 16 ≤ numFailed d)
     ∧ (numFailed d ≤ 1 →
     fst (changeThreshold d) = true
     ∧ threshold (snd (changeThreshold d)) = 768 * numFailed d - 384)).
Proof.
  intros d.
  assert (h1 : 0 ≤ numFailed d < 2 ^ 31)
    by (split; [discriminate|reflexivity]).
  exact (conj h1
           ltac:(eapply sweep_exhausted_from_16; eassumption)).
Defined.

(** Five failures. *)
Lemma changeThreshold_no_overflow_witness :
  let d := set_numFailed 5 Sample.started in
  (1 ≤ numFailed d < 2 ^ 31)
  ∧ (let div := thresholdDiv (numFailed d) 1 in
     let step := 256 `quot` div in
     1 ≤ div ≤ numFailed d
     ∧ 0 ≤ step ≤ 256
     ∧ 0 ≤ step * (numFailed d - div) < 256
     ∧ 0 ≤ threshold (snd (changeThreshold d)) < 768).
Proof.
  intros d.
  assert (h1 : 1 ≤ numFailed d < 2 ^ 31)
    by (split; [discriminate|reflexivity]).
  exact (conj h1
           ltac:(eapply changeThreshold_no_overflow; eassumption)).
Defined.

(** The probe for five failures. *)
Lemma sweep_never_repeats_witness :
  let d := Sample.started in
  let n := 5 in
  let m := 5 in
  ((1 ≤ n < 256) ∧
   (1 ≤ m < 256) ∧
   (threshold (snd (changeThreshold (set_numFailed n d))) = threshold (snd
     (changeThreshold (set_numFailed m d)))))
  ∧ (n = m).
Proof.
  intros d n m.
  assert (h1 : 1 ≤ n < 256) by (split; [discriminate|reflexivity]).
  assert (h2 : 1 ≤ m < 256) by (split; [discriminate|reflexivity]).
  assert (h3 : threshold (snd (changeThreshold (set_numFailed n d))) =
      threshold (snd (changeThreshold (set_numFailed m d))))
    by (reflexivity).
  exact (conj (conj h1 (conj h2 (h3)))
           ltac:(eapply sweep_never_repeats; eassumption)).
Defined.

(** The first frame of the small detector. *)
Lemma findSegment_keeps_configuration_witness :
  let image := Sample.tinyFrame in
  let init := noSegment in
  let d := Sample.tinyStarted in
  let result := fst (fst Sample.tinyRun) in
  let d' := snd (fst Sample.tinyRun) in
  let image' := snd Sample.tinyRun in
  (findSegment Sample.MAX_SEGMENTS image init d = Ok (result, d', image'))
  ∧ (width d' = width d ∧ height d' = height d ∧ len d' = len d
     ∧ minSize d' = minSize d ∧ maxFailed d' = maxFailed d
     ∧ track d' = track d ∧ debug d' = debug d ∧ draw d' = draw d
     ∧ centerDistanceToleranceRatio d' = centerDistanceToleranceRatio d
     ∧ centerDistanceToleranceAbs d' = centerDistanceToleranceAbs d
     ∧ circularTolerance d' = circularTolerance d
     ∧ ratioTolerance d' = ratioTolerance d
     ∧ circularityTolerance d' = circularityTolerance d
     ∧ diameterRatio d' = diameterRatio d
     ∧ outerAreaRatio d' = outerAreaRatio d
     ∧ innerAreaRatio d' = innerAreaRatio d
     ∧ areasRatio d' = areasRatio d).
Proof.
  intros image init d result d' image'.
  assert (h1 : findSegment Sample.MAX_SEGMENTS image init d = Ok (result, d',
      image'))
    by (exact tiny_run).
  exact (conj h1
           ltac:(eapply findSegment_keeps_configuration; eassumption)).
Defined.


(** The cleanup of the margin of the ring, which the first frame has done,
    done again. *)
Lemma bufferCleanup_idempotent_witness :
  let init := fst (fst Sample.tinyRun) in
  let d := snd (fst Sample.tinyRun) in
  let d1 := snd (fst Sample.tinyRun) in
  ((0 < width d) ∧
   (0 < height d) ∧
   (len d = width d * height d) ∧
   (Z.of_nat (length (buffer d)) = len d) ∧
   (bufferCleanup init d = Ok d1))
  ∧ (bufferCleanup init d1 = Ok d1).
Proof.
  intros init d d1.
  assert (h1 : 0 < width d) by (reflexivity).
  assert (h2 : 0 < height d) by (reflexivity).
  assert (h3 : len d = width d * height d) by (reflexivity).
  assert (h4 : Z.of_nat (length (buffer d)) = len d) by (reflexivity).
  assert (h5 : bufferCleanup init d = Ok d1) by (exact tiny_cleanup).
  exact (conj (conj h1 (conj h2 (conj h3 (conj h4 (h5)))))
           ltac:(eapply bufferCleanup_idempotent; eassumption)).
Defined.

(** The first frame of the small detector counts two segments. *)
Lemma numSegments_bounded_witness :
  let image := Sample.tinyFrame in
  let init := noSegment in
  let d := Sample.tinyStarted in
  let result := fst (fst Sample.tinyRun) in
  let d' := snd (fst Sample.tinyRun) in
  let image' := snd Sample.tinyRun in
  ((0 ≤ Sample.MAX_SEGMENTS) ∧
   (findSegment Sample.MAX_SEGMENTS image init d = Ok (result, d', image')))
  ∧ (0 ≤ numSegments d' ≤ Sample.MAX_SEGMENTS).
Proof.
  intros image init d result d' image'.
  assert (h1 : 0 ≤ Sample.MAX_SEGMENTS) by (discriminate).
  assert (h2 : findSegment Sample.MAX_SEGMENTS image init d = Ok (result, d',
      image'))
    by (exact tiny_run).
  exact (conj (conj h1 (h2))
           ltac:(eapply numSegments_bounded; eassumption)).
Defined.

(** The scan of the small frame from pixel 0, entered at the seed of the
    ring. *)
Lemma tracking_stops_after_pair_witness :
  let fuel := 0%nat in
  let image := Sample.tinyFrame in
  let start := 0 in
  let ii := Sample.tinySeed in
  let d := Sample.tinyStarted in
  let dm := fst Sample.tinyPair in
  let d' := fst Sample.tinyFit in
  let ii' := snd Sample.tinyFit in
  ((track d = true) ∧
   (0 ≤ start < len d) ∧
   (seekPair Sample.MAX_SEGMENTS image ii d = Ok (dm, true)) ∧
   (shapeFit image start ii dm = Ok (d', ii')))
  ∧ (scanLoop Sample.MAX_SEGMENTS (S fuel) image start ii d = Ok d').
Proof.
  intros fuel image start ii d dm d' ii'.
  assert (h1 : track d = true) by (reflexivity).
  assert (h2 : 0 ≤ start < len d) by (split; [discriminate|reflexivity]).
  assert (h3 : seekPair Sample.MAX_SEGMENTS image ii d = Ok (dm, true))
    by (exact tiny_pair).
  assert (h4 : shapeFit image start ii dm = Ok (d', ii')) by (exact tiny_fit).
  exact (conj (conj h1 (conj h2 (conj h3 (h4))))
           ltac:(eapply tracking_stops_after_pair; eassumption)).
Defined.

(** The cascade at the seed of the ring. *)
Lemma seekPair_appends_witness :
  let image := Sample.tinyFrame in
  let ii := Sample.tinySeed in
  let d := Sample.tinyStarted in
  let d' := fst Sample.tinyPair in
  let fit := snd Sample.tinyPair in
  ((seekPair Sample.MAX_SEGMENTS image ii d = Ok (d', fit)) ∧
   (0 ≤ numSegments d))
  ∧ (threshold d' = threshold d
     ∧ numSegments d ≤ numSegments d' ≤ numSegments d + 2
     ∧ (∀ j, j < numSegments d → segment d' j = segment d j)
     ∧ (∀ j s, numSegments d ≤ j < numSegments d' → segment d' j = Some s →
     SSegment.valid s = false)
     ∧ (fit = true → numSegments d' = numSegments d + 2)).
Proof.
  intros image ii d d' fit.
  assert (h1 : seekPair Sample.MAX_SEGMENTS image ii d = Ok (d', fit))
    by (exact tiny_pair).
  assert (h2 : 0 ≤ numSegments d) by (discriminate).
  exact (conj (conj h1 (h2))
           ltac:(eapply seekPair_appends; eassumption)).
Defined.

(** A frame on which nothing is found. *)
Lemma threshold_after_frame_witness :
  let image := Sample.dim in
  let init := noSegment in
  let d := Sample.untracked in
  let result := fst (fst Sample.dimRun1) in
  let d' := snd (fst Sample.dimRun1) in
  let image' := snd Sample.dimRun1 in
  (findSegment Sample.MAX_SEGMENTS image init d = Ok (result, d', image'))
  ∧ (if SSegment.valid result
     then lastThreshold d' = threshold d' ∧ drawAll d' = false
     else lastThreshold d' = lastThreshold d
     ∧ drawAll d' = debug d || drawAll d
     ∧ threshold d' =
     if (numFailed d <? maxFailed d) && negb (numFailed d `rem` 2 =? 0)
     then lastThreshold d
     else threshold
     (snd (changeThreshold (set_numFailed (numFailed d + 1) d)))).
Proof.
  intros image init d result d' image'.
  assert (h1 : findSegment Sample.MAX_SEGMENTS image init d = Ok (result, d',
      image'))
    by (exact dim_run1).
  exact (conj h1
           ltac:(eapply threshold_after_frame; eassumption)).
Defined.

(** The first frame of the small detector finds the ring and nothing else. *)
Lemma lastTrackOK_after_frame_witness :
  let image := Sample.tinyFrame in
  let init := noSegment in
  let d := Sample.tinyStarted in
  let result := fst (fst Sample.tinyRun) in
  let d' := snd (fst Sample.tinyRun) in
  let image' := snd Sample.tinyRun in
  (findSegment Sample.MAX_SEGMENTS image init d = Ok (result, d', image'))
  ∧ (lastTrackOK d' = true ↔
     numSegments d' = 2
     ∧ ∃ s0 s1, segment d' 0 = Some s0 ∧ segment d' 1 = Some s1
     ∧ SSegment.valid s0 = true ∧ SSegment.valid s1 = true).
Proof.
  intros image init d result d' image'.
  assert (h1 : findSegment Sample.MAX_SEGMENTS image init d = Ok (result, d',
      image'))
    by (exact tiny_run).
  exact (conj h1
           ltac:(eapply lastTrackOK_after_frame; eassumption)).
Defined.

(** The flood fill of the ring of the small frame. *)
Lemma examineSegment_labels_witness :
  let image := Sample.tinyFrame in
  let si := 0 in
  let ii := Sample.tinySeed in
  let areaRatio := outerAreaRatio Sample.tinyReady in
  let d := Sample.tinyReady in
  let found := fst Sample.tinyOuter in
  let d' := snd Sample.tinyOuter in
  let type := -2 in
  ((examineSegment image si ii areaRatio d = Ok (found, d')) ∧
   (0 ≤ numSegments d) ∧
   (queueEnd d ≤ queueStart d) ∧
   (buffer d !! Z.to_nat ii = Some type) ∧
   (type < 0))
  ∧ (relabelled type (numSegments d + 1) (buffer d) (buffer d')
     ∧ (∀ p v, buffer d !! p = Some v → v ≠ 0 → v ≠ type →
     buffer d' !! p = Some v)
     ∧ buffer d' !! Z.to_nat ii = Some (numSegments d + 1)
     ∧ ∀ p, p ∈ lastRegion d' →
     0 ≤ p ∧ buffer d' !! Z.to_nat p = Some (numSegments d + 1)).
Proof.
  intros image si ii areaRatio d found d' type.
  assert (h1 : examineSegment image si ii areaRatio d = Ok (found, d'))
    by (exact tiny_outer).
  assert (h2 : 0 ≤ numSegments d) by (discriminate).
  assert (h3 : queueEnd d ≤ queueStart d) by (discriminate).
  assert (h4 : buffer d !! Z.to_nat ii = Some type) by (reflexivity).
  assert (h5 : type < 0) by (reflexivity).
  exact (conj (conj h1 (conj h2 (conj h3 (conj h4 (h5)))))
           ltac:(eapply examineSegment_labels; eassumption)).
Defined.

(** The first frame of the small detector blackens the hole of the ring. *)
Lemma frame_after_call_witness :
  let image := Sample.tinyFrame in
  let init := noSegment in
  let d := Sample.tinyStarted in
  let result := fst (fst Sample.tinyRun) in
  let d' := snd (fst Sample.tinyRun) in
  let image' := snd Sample.tinyRun in
  ((draw d = false) ∧
   (findSegment Sample.MAX_SEGMENTS image init d = Ok (result, d', image')))
  ∧ (getwidth image' = getwidth image ∧ getheight image' = getheight image
     ∧ length (data image') = length (data image)
     ∧ ∀ k, (k < length (data image))%nat →
     data image' !! k
     = if decide (Z.of_nat k `div` 3 ∈ lastRegion d')
     then Some 0 else data image !! k).
Proof.
  intros image init d result d' image'.
  assert (h1 : draw d = false) by (reflexivity).
  assert (h2 : findSegment Sample.MAX_SEGMENTS image init d = Ok (result, d',
      image'))
    by (exact tiny_run).
  exact (conj (conj h1 (h2))
           ltac:(eapply frame_after_call; eassumption)).
Defined.

(** The flood fill of the ring of the small frame. *)
Lemma examineSegment_succeeds_witness :
  let image := Sample.tinyFrame in
  let si := 0 in
  let ii := Sample.tinySeed in
  let areaRatio := outerAreaRatio Sample.tinyReady in
  let d := Sample.tinyReady in
  let type := -2 in
  ((seedReady d) ∧
   (fenced d) ∧
   (fits image d) ∧
   (0 ≤ si < Z.of_nat (length (segmentArray d))) ∧
   (0 ≤ ii) ∧
   (buffer d !! Z.to_nat ii = Some type) ∧
   (type = -1 ∨ type = -2))
  ∧ (succeeds (λ r, seedReady (snd r) ∧ fenced (snd r)
     ∧ settings (snd r) = settings d)
     (examineSegment image si ii areaRatio d)).
Proof.
  intros image si ii areaRatio d type.
  assert (h1 : seedReady d) by (exact seedReady_tinyReady).
  assert (h2 : fenced d) by (exact fenced_tinyReady).
  assert (h3 : fits image d) by (unfold fits; discriminate).
  assert (h4 : 0 ≤ si < Z.of_nat (length (segmentArray d)))
    by (split; [discriminate|reflexivity]).
  assert (h5 : 0 ≤ ii) by (discriminate).
  assert (h6 : buffer d !! Z.to_nat ii = Some type) by (reflexivity).
  assert (h7 : type = -1 ∨ type = -2) by (right; reflexivity).
  exact (conj (conj h1 (conj h2 (conj h3 (conj h4 (conj h5 (conj h6 (h7)))))))
           ltac:(eapply examineSegment_succeeds; eassumption)).
Defined.

(** The labels after the first frame of the small detector. *)
Lemma labels_invariant_witness :
  let image := Sample.tinyFrame in
  let init := noSegment in
  let d := Sample.tinyStarted in
  let result := fst (fst Sample.tinyRun) in
  let d' := snd (fst Sample.tinyRun) in
  let image' := snd Sample.tinyRun in
  ((wellLabelled Sample.MAX_SEGMENTS d) ∧
   (findSegment Sample.MAX_SEGMENTS image init d = Ok (result, d', image')))
  ∧ (wellLabelled Sample.MAX_SEGMENTS d').
Proof.
  intros image init d result d' image'.
  assert (h1 : wellLabelled Sample.MAX_SEGMENTS d)
    by (exact wellLabelled_tinyStarted).
  assert (h2 : findSegment Sample.MAX_SEGMENTS image init d = Ok (result, d',
      image'))
    by (exact tiny_run).
  exact (conj (conj h1 (h2))
           ltac:(eapply labels_invariant; eassumption)).
Defined.


